(** * Dueli: the live-session runtime

    A shallow embedding of the challenge controller
    ([controllers/challenge.controller.js]), the two rating controllers
    ([controllers/rating.controller.js], both revisions found in the
    repository) and the Socket.IO room handlers ([config/socket.js]),
    followed by the comment and message controllers
    ([controllers/comment.controller.js], [controllers/message.controller.js])
    and the follow and block routes ([controllers/user.controller.js] behind
    [middleware/auth.js] and [middleware/checkBlocked.js]).

    What is modelled: the MongoDB collections the handlers read and write
    (as finite maps and lists), the HTTP status and error code each handler
    answers with, and the payload of the periodic viewer-count broadcast.
    Every [await] is a plain sequential step; [new Date()] is an argument
    [now].  Logging, response bodies, Mongoose's [createdAt]/[updatedAt]
    stamps and the events the REST handlers push to the rooms are left out:
    no handler reads them back. *)

From Stdlib Require Import ZArith QArith Qfield Lqa Floats.PrimFloat Uint63 Ascii.
From Stdlib Require Import String.
From Stdlib Require HexString.
From stdpp Require Import gmap strings list sorting.

Set Default Proof Using "Type".

(** ** JavaScript numbers

    The handlers compute with JavaScript [Number]s.  The arithmetic they use
    is kept behind an interface with two implementations: IEEE 754 binary64
    (what the engine runs) and exact rationals (what the formulas mean when
    rounding is set aside). *)

Class JsNumber (T : Type) := {
  js_of_nat : nat -> T;          (* integer literals and [Array.length] *)
  js_0_20 : T;                   (* the literal [0.20] *)
  js_0_80 : T;                   (* the literal [0.80] *)
  js_add : T -> T -> T;
  js_mul : T -> T -> T;
  js_div : T -> T -> T;
  js_lt : T -> T -> bool;
  js_le : T -> T -> bool
}.

(** binary64: the literals are the doubles nearest to 0.2 and 0.8. *)
#[export] Instance Binary64 : JsNumber float := {
  js_of_nat n := PrimFloat.of_uint63 (Uint63.of_Z (Z.of_nat n));
  js_0_20 := 0x1.999999999999ap-3%float;
  js_0_80 := 0x1.999999999999ap-1%float;
  js_add := PrimFloat.add;
  js_mul := PrimFloat.mul;
  js_div := PrimFloat.div;
  js_lt := PrimFloat.ltb;
  js_le := PrimFloat.leb
}.

(** Exact arithmetic. *)
#[export] Instance Exact : JsNumber Q := {
  js_of_nat n := inject_Z (Z.of_nat n);
  js_0_20 := 20 # 100;
  js_0_80 := 80 # 100;
  js_add := Qplus;
  js_mul := Qmult;
  js_div := Qdiv;
  js_lt x y := negb (Qle_bool y x);
  js_le := Qle_bool
}.

(** ** Data model ([models/index.js]) *)

Definition ObjectId := nat.
Definition Date := nat.

(** [challengeSchema.status] *)
Inductive ChallengeStatus := pending | scheduled | live | completed | cancelled.

(** The [status] of an entry of [challenge.advertisements]:
    [enum: ['pending', 'displayed', 'rejected']].  Every [challenge.save()]
    validates the entries of the array, so a stored entry has one of the
    three. *)
Inductive AdStatus := ad_pending | ad_displayed | ad_rejected.

(** [advertisementSchema.status] *)
Inductive AdvertisementStatus :=
  | adv_pending | adv_assigned | adv_displayed | adv_rejected | adv_expired
  | adv_cancelled.

Inductive Role := user_role | admin_role.
Inductive CompetitorRole := role_creator | role_opponent.

#[export] Instance ChallengeStatus_eq_dec : EqDecision ChallengeStatus.
Proof. solve_decision. Defined.
#[export] Instance AdStatus_eq_dec : EqDecision AdStatus.
Proof. solve_decision. Defined.
#[export] Instance Role_eq_dec : EqDecision Role.
Proof. solve_decision. Defined.

(** The invoice number the pre-save hook of a transaction builds,
    [`INV-${Date.now()}-${Math.floor(Math.random() * 1000)}`], kept as the
    pair of the two numbers: two such strings are equal exactly when the
    pairs are. *)
Definition InvoiceNumber := (Date * nat)%type.

(** One entry of [challenge.advertisements]. *)
Record AdBinding := {
  adId : ObjectId;
  ad_status : AdStatus;
  rejectedBy : option ObjectId;
  rejectionReason : option string
}.

(** What [createLiveBroadcast] resolves to (the fields the controller reads). *)
Record Broadcast := {
  broadcastId : string;
  streamKey : string;
  embedUrl : string
}.

Inductive ErrorCode :=
  | CHALLENGE_NOT_FOUND | FORBIDDEN | CANNOT_CANCEL
  | NOT_PARTICIPANT | NO_OPPONENT | ALREADY_LIVE | ALREADY_COMPLETED
  | YOUTUBE_NOT_LINKED | YOUTUBE_API_ERROR
  | NOT_LIVE | AD_NOT_FOUND | INVALID_COMPETITOR
  | SELF_RATING | PARTICIPANT_NOT_FOUND
  | VALIDATION_ERROR | DUPLICATE_FIELD | SERVER_ERROR.

(** The answer of a handler: [res.status(code).json(...)]. *)
Inductive Response :=
  | Success (http : nat)
  | Failure (http : nat) (code : ErrorCode).

Definition succeeded (r : Response) : bool :=
  match r with Success _ => true | Failure _ _ => false end.

Section Model.
Context {T : Type} `{JsNumber T}.

Record RevenueDistribution := {
  platform : T;
  rd_creator : T;
  rd_opponent : T
}.

Record Challenge := {
  creator : ObjectId;
  opponent : option ObjectId;
  title : string;
  description : string;
  scheduledTime : option Date;
  startedAt : option Date;
  endedAt : option Date;
  status : ChallengeStatus;
  creatorYoutubeUrl : option string;
  opponentYoutubeUrl : option string;
  creatorStreamKey : option string;
  opponentStreamKey : option string;
  creatorBroadcastId : option string;
  opponentBroadcastId : option string;
  advertisements : list AdBinding;
  totalRevenue : T;
  revenueDistribution : RevenueDistribution;
  viewerCount : nat;
  peakViewers : nat;
  totalRatings : nat;
  creatorRatingSum : T;
  opponentRatingSum : T;
  creatorRatingCount : nat;
  opponentRatingCount : nat
}.

(** [ratingSchema]; the unique index is on (rater, challenge, competitorRated). *)
Record Rating := {
  r_challenge : ObjectId;
  rater : ObjectId;
  competitorRated : ObjectId;
  score : T;
  timestamp : Date
}.

(** [advertisementSchema]; the free-text [rejectionReason] of the
    advertisement document is not modelled (the binding keeps its own). *)
Record Advertisement := {
  paidAmount : T;
  adv_status : AdvertisementStatus;
  adv_rejectedBy : option ObjectId;
  rejectionDate : option Date
}.

(** [transactionSchema]; [invoiceNumber] carries a unique index. *)
Record Transaction := {
  t_user : ObjectId;
  t_challenge : ObjectId;
  amount : T;
  invoiceNumber : InvoiceNumber;
  ratingPercentage : T;
  totalChallengeRevenue : T;
  competitorRole : CompetitorRole
}.

Record User := {
  role : Role;
  youtubeLinked : bool;
  youtubeAccessToken : string;
  youtubeRefreshToken : string;
  totalEarnings : T;
  totalChallenges : T
}.

(** The collections. *)
Record DB := {
  Challenges : gmap ObjectId Challenge;
  Ratings : list Rating;
  Users : gmap ObjectId User;
  Advertisements : gmap ObjectId Advertisement;
  Transactions : list Transaction
}.

End Model.

Arguments RevenueDistribution T : clear implicits.
Arguments Challenge T : clear implicits.
Arguments Rating T : clear implicits.
Arguments Advertisement T : clear implicits.
Arguments Transaction T : clear implicits.
Arguments User T : clear implicits.
Arguments DB T : clear implicits.

(** ** The challenge controller ([controllers/challenge.controller.js]) *)

Section ChallengeController.
Context {T : Type} `{JsNumber T}.

(** [JSON.parse] followed by [decrypt] ([config/encryption.js]); [None]
    stands for a throw. *)
Variable decrypt : string -> option string.

Definition with_challenge (id : ObjectId) (c : Challenge T) (db : DB T) : DB T :=
  {| Challenges := <[id := c]> (Challenges db);
     Ratings := Ratings db;
     Users := Users db;
     Advertisements := Advertisements db;
     Transactions := Transactions db |}.

(** [challenge.status = s] *)
Definition set_status (s : ChallengeStatus) (c : Challenge T) : Challenge T :=
  {| creator := creator c; opponent := opponent c; title := title c;
     description := description c; scheduledTime := scheduledTime c;
     startedAt := startedAt c; endedAt := endedAt c;
     status := s;
     creatorYoutubeUrl := creatorYoutubeUrl c;
     opponentYoutubeUrl := opponentYoutubeUrl c;
     creatorStreamKey := creatorStreamKey c;
     opponentStreamKey := opponentStreamKey c;
     creatorBroadcastId := creatorBroadcastId c;
     opponentBroadcastId := opponentBroadcastId c;
     advertisements := advertisements c; totalRevenue := totalRevenue c;
     revenueDistribution := revenueDistribution c;
     viewerCount := viewerCount c; peakViewers := peakViewers c;
     totalRatings := totalRatings c;
     creatorRatingSum := creatorRatingSum c;
     opponentRatingSum := opponentRatingSum c;
     creatorRatingCount := creatorRatingCount c;
     opponentRatingCount := opponentRatingCount c |}.

(** [exports.cancelChallenge] *)
Definition cancelChallenge (uid : ObjectId) (urole : Role) (id : ObjectId)
    (db : DB T) : Response * DB T :=
  match Challenges db !! id with
  | None => (Failure 404 CHALLENGE_NOT_FOUND, db)
  | Some challenge =>
    let isCreator := bool_decide (creator challenge = uid) in
    let isAdmin := bool_decide (urole = admin_role) in
    if negb isCreator && negb isAdmin then (Failure 403 FORBIDDEN, db)
    else if bool_decide (status challenge = completed)
    then (Failure 400 CANNOT_CANCEL, db)
    else (Success 200, with_challenge id (set_status cancelled challenge) db)
  end.

(** The update block of [startChallenge]. *)
Definition go_live (now : Date) (creatorBroadcast opponentBroadcast : Broadcast)
    (c : Challenge T) : Challenge T :=
  {| creator := creator c; opponent := opponent c; title := title c;
     description := description c; scheduledTime := scheduledTime c;
     startedAt := Some now; endedAt := endedAt c;
     status := live;
     creatorYoutubeUrl := Some (embedUrl creatorBroadcast);
     opponentYoutubeUrl := Some (embedUrl opponentBroadcast);
     creatorStreamKey := Some (streamKey creatorBroadcast);
     opponentStreamKey := Some (streamKey opponentBroadcast);
     creatorBroadcastId := Some (broadcastId creatorBroadcast);
     opponentBroadcastId := Some (broadcastId opponentBroadcast);
     advertisements := advertisements c; totalRevenue := totalRevenue c;
     revenueDistribution := revenueDistribution c;
     viewerCount := viewerCount c; peakViewers := peakViewers c;
     totalRatings := totalRatings c;
     creatorRatingSum := creatorRatingSum c;
     opponentRatingSum := opponentRatingSum c;
     creatorRatingCount := creatorRatingCount c;
     opponentRatingCount := opponentRatingCount c |}.

(** The body of the [try] block up to the update: the four tokens are
    decrypted, then both broadcasts are requested under [Promise.all].
    [creatorCall] and [opponentCall] are the provider's answers to the two
    [createLiveBroadcast] calls ([None]: the call threw).  [None] as a result
    is control reaching the [catch]. *)
Definition open_broadcasts (creatorDoc opponentDoc : User T)
    (creatorCall opponentCall : option Broadcast) : option (Broadcast * Broadcast) :=
  _ ← decrypt (youtubeAccessToken creatorDoc);
  _ ← decrypt (youtubeRefreshToken creatorDoc);
  _ ← decrypt (youtubeAccessToken opponentDoc);
  _ ← decrypt (youtubeRefreshToken opponentDoc);
  creatorBroadcast ← creatorCall;
  opponentBroadcast ← opponentCall;
  Some (creatorBroadcast, opponentBroadcast).

(** [exports.startChallenge] up to the [try]: the documents the handler
    holds once every guard is passed, or the answer of the guard that
    failed.  [populate] replaces the two references by the user documents, or
    by [null] when the document is gone. *)
Definition start_guards (uid id : ObjectId) (db : DB T)
    : Response + (Challenge T * User T * User T) :=
  match Challenges db !! id with
  | None => inl (Failure 404 CHALLENGE_NOT_FOUND)
  | Some challenge =>
    match Users db !! creator challenge with
    | None => inl (Failure 500 SERVER_ERROR)   (* [challenge.creator._id] of null *)
    | Some creatorDoc =>
      let populated :=
        o ← opponent challenge; u ← Users db !! o; Some (o, u) in
      let isParticipant :=
        bool_decide (creator challenge = uid)
        || match populated with
           | Some (o, _) => bool_decide (o = uid)
           | None => false
           end in
      if negb isParticipant then inl (Failure 403 NOT_PARTICIPANT) else
      match populated with
      | None => inl (Failure 400 NO_OPPONENT)
      | Some (_, opponentDoc) =>
        if bool_decide (status challenge = live)
        then inl (Failure 400 ALREADY_LIVE)
        else if bool_decide (status challenge = completed)
        then inl (Failure 400 ALREADY_COMPLETED)
        else if negb (youtubeLinked creatorDoc) || negb (youtubeLinked opponentDoc)
        then inl (Failure 400 YOUTUBE_NOT_LINKED)
        else inr (challenge, creatorDoc, opponentDoc)
      end
    end
  end.

(** The [try] block: the broadcasts are requested, then the document held
    in memory is updated and saved. *)
Definition start_broadcast (id : ObjectId) (now : Date)
    (creatorCall opponentCall : option Broadcast)
    (held : Challenge T * User T * User T) (db : DB T) : Response * DB T :=
  match open_broadcasts held.1.2 held.2 creatorCall opponentCall with
  | Some (creatorBroadcast, opponentBroadcast) =>
    (Success 200,
     with_challenge id
       (go_live now creatorBroadcast opponentBroadcast held.1.1) db)
  | None => (Failure 500 YOUTUBE_API_ERROR, db)
  end.

(** [exports.startChallenge] *)
Definition startChallenge (uid id : ObjectId) (now : Date)
    (creatorCall opponentCall : option Broadcast) (db : DB T) : Response * DB T :=
  match start_guards uid id db with
  | inl r => (r, db)
  | inr held => start_broadcast id now creatorCall opponentCall held db
  end.

(** Two calls of [startChallenge] for the same challenge that both get
    through their guards before either saves: each handler is suspended at
    its [await Promise.all(...)] while the other runs. *)
Definition racing_starts (uid1 uid2 id : ObjectId) (now1 now2 : Date)
    (creatorCall1 opponentCall1 creatorCall2 opponentCall2 : option Broadcast)
    (db : DB T) : Response * Response * DB T :=
  match start_guards uid1 id db, start_guards uid2 id db with
  | inl r1, inl r2 => (r1, r2, db)
  | inl r1, inr held2 =>
    let '(r2, db2) :=
      start_broadcast id now2 creatorCall2 opponentCall2 held2 db in
    (r1, r2, db2)
  | inr held1, inl r2 =>
    let '(r1, db1) :=
      start_broadcast id now1 creatorCall1 opponentCall1 held1 db in
    (r1, r2, db1)
  | inr held1, inr held2 =>
    let '(r1, db1) :=
      start_broadcast id now1 creatorCall1 opponentCall1 held1 db in
    let '(r2, db2) :=
      start_broadcast id now2 creatorCall2 opponentCall2 held2 db1 in
    (r1, r2, db2)
  end.

(** The revenue block of [endChallenge]: the displayed bindings, then the sum
    of the [paidAmount] of their advertisement documents. *)
Definition displayedAds (ads : list AdBinding) : list AdBinding :=
  filter (λ ad, ad_status ad = ad_displayed) ads.

(** [adDoc ? adDoc.paidAmount : 0], with [adDoc] the advertisement document
    of the binding. *)
Definition paidAmount_of (advs : gmap ObjectId (Advertisement T))
    (ad : AdBinding) : T :=
  match advs !! adId ad with
  | Some adDoc => paidAmount adDoc
  | None => js_of_nat 0
  end.

Definition add_paidAmount (advs : gmap ObjectId (Advertisement T))
    (sum : T) (ad : AdBinding) : T :=
  js_add sum (paidAmount_of advs ad).

Definition computeTotalRevenue (advs : gmap ObjectId (Advertisement T))
    (ads : list AdBinding) : T :=
  foldl (add_paidAmount advs) (js_of_nat 0) (displayedAds ads).

(** [Rating.find({ challenge, competitorRated })] *)
Definition ratings_of (id : ObjectId) (competitor : option ObjectId)
    (rs : list (Rating T)) : list (Rating T) :=
  filter (λ r, r_challenge r = id ∧ Some (competitorRated r) = competitor) rs.

(** [ratings.reduce((sum, r) => sum + r.score, 0)] *)
Definition sum_scores (rs : list (Rating T)) : T :=
  foldl (λ sum r, js_add sum (score r)) (js_of_nat 0) rs.

Definition platformShare (totalRevenue : T) : T := js_mul totalRevenue js_0_20.
Definition competitorsShare (totalRevenue : T) : T := js_mul totalRevenue js_0_80.

(** [(score / totalScore) * 100] *)
Definition percentage (score totalScore : T) : T :=
  js_mul (js_div score totalScore) (js_of_nat 100).

(** The [if (totalScore > 0) ... else ...] block, for one competitor. *)
Definition competitorRevenue (totalRevenue score totalScore : T) : T :=
  if js_lt (js_of_nat 0) totalScore
  then js_mul (competitorsShare totalRevenue)
              (js_div (percentage score totalScore) (js_of_nat 100))
  else js_div (competitorsShare totalRevenue) (js_of_nat 2).

(** The [revenueDistribution] object written by [endChallenge]. *)
Definition distribution (totalRevenue creatorTotalScore opponentTotalScore : T)
    : RevenueDistribution T :=
  let totalScore := js_add creatorTotalScore opponentTotalScore in
  {| platform := platformShare totalRevenue;
     rd_creator := competitorRevenue totalRevenue creatorTotalScore totalScore;
     rd_opponent := competitorRevenue totalRevenue opponentTotalScore totalScore |}.

(** The update block of [endChallenge]. *)
Definition complete (now : Date) (total : T) (dist : RevenueDistribution T)
    (c : Challenge T) : Challenge T :=
  {| creator := creator c; opponent := opponent c; title := title c;
     description := description c; scheduledTime := scheduledTime c;
     startedAt := startedAt c; endedAt := Some now;
     status := completed;
     creatorYoutubeUrl := creatorYoutubeUrl c;
     opponentYoutubeUrl := opponentYoutubeUrl c;
     creatorStreamKey := creatorStreamKey c;
     opponentStreamKey := opponentStreamKey c;
     creatorBroadcastId := creatorBroadcastId c;
     opponentBroadcastId := opponentBroadcastId c;
     advertisements := advertisements c; totalRevenue := total;
     revenueDistribution := dist;
     viewerCount := viewerCount c; peakViewers := peakViewers c;
     totalRatings := totalRatings c;
     creatorRatingSum := creatorRatingSum c;
     opponentRatingSum := opponentRatingSum c;
     creatorRatingCount := creatorRatingCount c;
     opponentRatingCount := opponentRatingCount c |}.

(** [$inc: { totalEarnings: revenue, totalChallenges: 1 }] *)
Definition inc_earnings (revenue : T) (u : User T) : User T :=
  {| role := role u; youtubeLinked := youtubeLinked u;
     youtubeAccessToken := youtubeAccessToken u;
     youtubeRefreshToken := youtubeRefreshToken u;
     totalEarnings := js_add (totalEarnings u) revenue;
     totalChallenges := js_add (totalChallenges u) (js_of_nat 1) |}.

(** [Transaction.create] followed by [User.findByIdAndUpdate].  The insert
    is refused when the invoice number is taken ([None]: the duplicate-key
    error, before anything is written). *)
Definition pay (t : Transaction T) (db : DB T) : option (DB T) :=
  if bool_decide (invoiceNumber t ∈ invoiceNumber <$> Transactions db)
  then None
  else
    Some {| Challenges := Challenges db;
            Ratings := Ratings db;
            Users := alter (inc_earnings (amount t)) (t_user t) (Users db);
            Advertisements := Advertisements db;
            Transactions := Transactions db ++ [t] |}.

(** [exports.endChallenge].  [invoices] are the invoice numbers the pre-save
    hook draws for the transaction of the creator and for that of the
    opponent.  [challenge.save()] runs the validators of the document: the
    entries of [advertisements] pass by their type, and of the assigned paths
    only [totalRevenue] carries one ([min: 0]).  What follows the save can
    still fail, and then the challenge stays completed: the transaction of
    the opponent needs a [user] (400), and a transaction whose invoice number
    is taken is refused by the unique index, which the error handler answers
    with 409 [DUPLICATE_FIELD]. *)
Definition endChallenge (uid id : ObjectId) (now : Date)
    (invoices : InvoiceNumber * InvoiceNumber) (db : DB T)
    : Response * DB T :=
  match Challenges db !! id with
  | None => (Failure 404 CHALLENGE_NOT_FOUND, db)
  | Some challenge =>
    let isParticipant :=
      bool_decide (creator challenge = uid)
      || bool_decide (opponent challenge = Some uid) in
    if negb isParticipant then (Failure 403 NOT_PARTICIPANT, db)
    else if negb (bool_decide (status challenge = live))
    then (Failure 400 NOT_LIVE, db)
    else
      let totalRevenue :=
        computeTotalRevenue (Advertisements db) (advertisements challenge) in
      let creatorRatings :=
        ratings_of id (Some (creator challenge)) (Ratings db) in
      let opponentRatings := ratings_of id (opponent challenge) (Ratings db) in
      let creatorTotalScore := sum_scores creatorRatings in
      let opponentTotalScore := sum_scores opponentRatings in
      let totalScore := js_add creatorTotalScore opponentTotalScore in
      let creatorRevenue :=
        competitorRevenue totalRevenue creatorTotalScore totalScore in
      let opponentRevenue :=
        competitorRevenue totalRevenue opponentTotalScore totalScore in
      let ratingPercentage score :=
        if js_lt (js_of_nat 0) totalScore
        then percentage score totalScore else js_of_nat 50 in
      if negb (js_le (js_of_nat 0) totalRevenue)
      then (Failure 400 VALIDATION_ERROR, db)
      else
        let db1 :=
          with_challenge id
            (complete now totalRevenue
               (distribution totalRevenue creatorTotalScore opponentTotalScore)
               challenge) db in
        let creatorPaid :=
          if js_lt (js_of_nat 0) creatorRevenue
          then pay {| t_user := creator challenge; t_challenge := id;
                      amount := creatorRevenue;
                      invoiceNumber := invoices.1;
                      ratingPercentage := ratingPercentage creatorTotalScore;
                      totalChallengeRevenue := totalRevenue;
                      competitorRole := role_creator |} db1
          else Some db1 in
        match creatorPaid with
        | None => (Failure 409 DUPLICATE_FIELD, db1)
        | Some db2 =>
          if js_lt (js_of_nat 0) opponentRevenue
          then match opponent challenge with
               | Some o =>
                 match pay {| t_user := o; t_challenge := id;
                              amount := opponentRevenue;
                              invoiceNumber := invoices.2;
                              ratingPercentage :=
                                ratingPercentage opponentTotalScore;
                              totalChallengeRevenue := totalRevenue;
                              competitorRole := role_opponent |} db2 with
                 | Some db3 => (Success 200, db3)
                 | None => (Failure 409 DUPLICATE_FIELD, db2)
                 end
               | None => (Failure 400 VALIDATION_ERROR, db2)
               end
          else (Success 200, db2)
        end
  end.

(** [reason || 'Conflicts with principles'] *)
Definition reason_or_default (reason : option string) : string :=
  match reason with
  | Some r => if bool_decide (r = "") then "Conflicts with principles" else r
  | None => "Conflicts with principles"
  end.

Definition reject_binding (uid : ObjectId) (reason : option string)
    (ad : AdBinding) : AdBinding :=
  {| adId := adId ad; ad_status := ad_rejected;
     rejectedBy := Some uid;
     rejectionReason := Some (reason_or_default reason) |}.

Definition set_advertisements (ads : list AdBinding) (c : Challenge T)
    : Challenge T :=
  {| creator := creator c; opponent := opponent c; title := title c;
     description := description c; scheduledTime := scheduledTime c;
     startedAt := startedAt c; endedAt := endedAt c;
     status := status c;
     creatorYoutubeUrl := creatorYoutubeUrl c;
     opponentYoutubeUrl := opponentYoutubeUrl c;
     creatorStreamKey := creatorStreamKey c;
     opponentStreamKey := opponentStreamKey c;
     creatorBroadcastId := creatorBroadcastId c;
     opponentBroadcastId := opponentBroadcastId c;
     advertisements := ads; totalRevenue := totalRevenue c;
     revenueDistribution := revenueDistribution c;
     viewerCount := viewerCount c; peakViewers := peakViewers c;
     totalRatings := totalRatings c;
     creatorRatingSum := creatorRatingSum c;
     opponentRatingSum := opponentRatingSum c;
     creatorRatingCount := creatorRatingCount c;
     opponentRatingCount := opponentRatingCount c |}.

(** [Advertisement.findByIdAndUpdate(adId, { status: 'rejected', ... })] *)
Definition reject_document (uid : ObjectId) (now : Date)
    (adDoc : Advertisement T) : Advertisement T :=
  {| paidAmount := paidAmount adDoc; adv_status := adv_rejected;
     adv_rejectedBy := Some uid; rejectionDate := Some now |}.

(** [exports.rejectAdvertisement] *)
Definition rejectAdvertisement (uid id ad : ObjectId) (reason : option string)
    (now : Date) (db : DB T) : Response * DB T :=
  match Challenges db !! id with
  | None => (Failure 404 CHALLENGE_NOT_FOUND, db)
  | Some challenge =>
    let isParticipant :=
      bool_decide (creator challenge = uid)
      || bool_decide (opponent challenge = Some uid) in
    if negb isParticipant then (Failure 403 NOT_PARTICIPANT, db) else
    match list_find (λ b, adId b = ad) (advertisements challenge) with
    | None => (Failure 404 AD_NOT_FOUND, db)
    | Some (adIndex, binding) =>
      let ads :=
        <[adIndex := reject_binding uid reason binding]>
          (advertisements challenge) in
      let db1 := with_challenge id (set_advertisements ads challenge) db in
      (Success 200,
       {| Challenges := Challenges db1;
          Ratings := Ratings db1;
          Users := Users db1;
          Advertisements :=
            alter (reject_document uid now) ad (Advertisements db1);
          Transactions := Transactions db1 |})
    end
  end.

End ChallengeController.

(** ** The rating controller ([controllers/rating.controller.js]) *)

Section RatingController.
Context {T : Type} `{JsNumber T}.

(** [ratingSchema.score]: [min: 1, max: 5], checked by [create] and [save]. *)
Definition valid_score (s : T) : bool :=
  js_le (js_of_nat 1) s && js_le s (js_of_nat 5).

(** [existingRating.score = score; existingRating.timestamp = new Date()] *)
Definition rescore (s : T) (now : Date) (r : Rating T) : Rating T :=
  {| r_challenge := r_challenge r; rater := rater r;
     competitorRated := competitorRated r;
     score := s; timestamp := now |}.

(** The five assignments under "Update challenge stats". *)
Definition set_rating_stats (creatorRatings opponentRatings : list (Rating T))
    (c : Challenge T) : Challenge T :=
  {| creator := creator c; opponent := opponent c; title := title c;
     description := description c; scheduledTime := scheduledTime c;
     startedAt := startedAt c; endedAt := endedAt c;
     status := status c;
     creatorYoutubeUrl := creatorYoutubeUrl c;
     opponentYoutubeUrl := opponentYoutubeUrl c;
     creatorStreamKey := creatorStreamKey c;
     opponentStreamKey := opponentStreamKey c;
     creatorBroadcastId := creatorBroadcastId c;
     opponentBroadcastId := opponentBroadcastId c;
     advertisements := advertisements c; totalRevenue := totalRevenue c;
     revenueDistribution := revenueDistribution c;
     viewerCount := viewerCount c; peakViewers := peakViewers c;
     totalRatings := length creatorRatings + length opponentRatings;
     creatorRatingSum := sum_scores creatorRatings;
     opponentRatingSum := sum_scores opponentRatings;
     creatorRatingCount := length creatorRatings;
     opponentRatingCount := length opponentRatings |}.

(** The key of [Rating.findOne({ challenge, rater, competitorRated })]. *)
Definition same_vote (id uid competitor : ObjectId) (r : Rating T) : Prop :=
  r_challenge r = id ∧ rater r = uid ∧ competitorRated r = competitor.

#[export] Instance same_vote_dec id uid competitor r :
  Decision (same_vote id uid competitor r).
Proof. unfold same_vote. apply _. Defined.

(** The document of [Rating.create({ challenge, rater, competitorRated,
    score })]; [timestamp] defaults to [Date.now]. *)
Definition new_rating (id uid competitor : ObjectId) (s : T) (now : Date)
    : Rating T :=
  {| r_challenge := id; rater := uid; competitorRated := competitor;
     score := s; timestamp := now |}.

(** The update-or-create step; [None] when the schema validator refuses the
    score. *)
Definition upsert_rating (id uid competitor : ObjectId) (s : T) (now : Date)
    (rs : list (Rating T)) : option (list (Rating T)) :=
  if valid_score s then
    Some match list_find (same_vote id uid competitor) rs with
         | Some (i, existingRating) => <[i := rescore s now existingRating]> rs
         | None => rs ++ [new_rating id uid competitor s now]
         end
  else None.

(** [competitorRated === creator.toString() || competitorRated ===
    opponent.toString()]; [None] is the [TypeError] of [undefined.toString()]. *)
Definition rated_is_participant (competitor : ObjectId) (c : Challenge T)
    : option bool :=
  if bool_decide (competitor = creator c) then Some true
  else match opponent c with
       | Some o => Some (bool_decide (competitor = o))
       | None => None
       end.

(** [exports.submitRating] *)
Definition submitRating (uid id competitor : ObjectId) (s : T) (now : Date)
    (db : DB T) : Response * DB T :=
  match Challenges db !! id with
  | None => (Failure 404 CHALLENGE_NOT_FOUND, db)
  | Some challenge =>
    if negb (bool_decide (status challenge = live))
    then (Failure 400 NOT_LIVE, db)
    else
      match rated_is_participant competitor challenge with
      | None => (Failure 500 SERVER_ERROR, db)
      | Some false => (Failure 400 INVALID_COMPETITOR, db)
      | Some true =>
        match upsert_rating id uid competitor s now (Ratings db) with
        | None => (Failure 400 VALIDATION_ERROR, db)
        | Some rs =>
          let creatorRatings := ratings_of id (Some (creator challenge)) rs in
          let opponentRatings := ratings_of id (opponent challenge) rs in
          (Success 201,
           {| Challenges :=
                <[id := set_rating_stats creatorRatings opponentRatings challenge]>
                  (Challenges db);
              Ratings := rs;
              Users := Users db;
              Advertisements := Advertisements db;
              Transactions := Transactions db |})
        end
      end
  end.

(** *** The revised controller ([addRating])

    The later revision of the same controller works on a challenge that
    keeps its competitors in a [participants] array.  It answers with a
    message only; [SELF_RATING] and [PARTICIPANT_NOT_FOUND] name its 403 and
    its second 400. *)

Record Participant := {
  p_user : ObjectId;
  p_ratings : nat;
  averageRating : T
}.

Record ParticipantRating := {
  pr_challenge : ObjectId;
  pr_rater : ObjectId;
  participant : ObjectId;
  pr_score : T;
  updatedAt : Date
}.

Record ArenaChallenge := {
  a_status : ChallengeStatus;
  participants : list Participant
}.

Record ArenaDB := {
  ArenaChallenges : gmap ObjectId ArenaChallenge;
  ArenaRatings : list ParticipantRating
}.

Definition arena_vote (id uid p : ObjectId) (r : ParticipantRating) : Prop :=
  pr_challenge r = id ∧ pr_rater r = uid ∧ participant r = p.

#[export] Instance arena_vote_dec id uid p r : Decision (arena_vote id uid p r).
Proof. unfold arena_vote. apply _. Defined.

(** [exports.addRating] *)
Definition addRating (userId challengeId p : ObjectId) (s : T) (now : Date)
    (db : ArenaDB) : Response * ArenaDB :=
  match ArenaChallenges db !! challengeId with
  | None => (Failure 404 CHALLENGE_NOT_FOUND, db)
  | Some challenge =>
    if negb (bool_decide (a_status challenge = live))
    then (Failure 400 NOT_LIVE, db)
    else if bool_decide (Exists (λ q, p_user q = userId) (participants challenge))
    then (Failure 403 SELF_RATING, db)
    else if negb (bool_decide (Exists (λ q, p_user q = p) (participants challenge)))
    then (Failure 400 PARTICIPANT_NOT_FOUND, db)
    else
      let rs :=
        match list_find (arena_vote challengeId userId p) (ArenaRatings db) with
        | Some (i, rating) =>
          <[i := {| pr_challenge := pr_challenge rating;
                    pr_rater := pr_rater rating;
                    participant := participant rating;
                    pr_score := s; updatedAt := now |}]> (ArenaRatings db)
        | None =>
          ArenaRatings db ++
            [ {| pr_challenge := challengeId; pr_rater := userId;
                 participant := p; pr_score := s; updatedAt := now |} ]
        end in
      let ratings :=
        filter (λ r, pr_challenge r = challengeId ∧ participant r = p) rs in
      let averageScore :=
        js_div (foldl (λ acc r, js_add acc (pr_score r)) (js_of_nat 0) ratings)
               (js_of_nat (length ratings)) in
      let challenge' :=
        match list_find (λ q, p_user q = p) (participants challenge) with
        | Some (participantIndex, q) =>
          {| a_status := a_status challenge;
             participants :=
               <[participantIndex :=
                   {| p_user := p_user q; p_ratings := length ratings;
                      averageRating := averageScore |}]>
                 (participants challenge) |}
        | None => challenge
        end in
      (Success 201,
       {| ArenaChallenges := <[challengeId := challenge']> (ArenaChallenges db);
          ArenaRatings := rs |})
  end.

End RatingController.

Arguments Participant T : clear implicits.
Arguments ParticipantRating T : clear implicits.
Arguments ArenaChallenge T : clear implicits.
Arguments ArenaDB T : clear implicits.

(** ** The Socket.IO handlers ([config/socket.js])

    [io.sockets.adapter.rooms] is a map from room names to sets of socket
    ids.  [socket.join] creates the room when needed and [socket.leave]
    drops a room that becomes empty. *)

Definition SocketId := nat.
Abbreviation Rooms := (gmap string (gset SocketId)).

(** The values found in the emitted payloads. *)
Inductive JsValue :=
  | VString (s : string)
  | VNumber (n : nat)
  | VDate (d : Date)
  | VUser (id : ObjectId) (username : string)       (* [{ id, username }] *)
  | VUndefined.

Inductive Target := ToRoom (room : string) | ToSocket (sid : SocketId).

#[export] Instance Target_eq_dec : EqDecision Target.
Proof. solve_decision. Defined.

Record Emit := {
  target : Target;
  event : string;
  payload : list (string * JsValue)
}.

Record SocketUser := {
  su_id : ObjectId;
  username : string
}.

Definition challenge_room (challengeId : string) : string :=
  "challenge:" +:+ challengeId.

(** [room ? room.size : 0] *)
Definition room_size (rooms : Rooms) (room : string) : nat :=
  match rooms !! room with
  | Some sockets => size sockets
  | None => 0
  end.

Definition socket_join (sid : SocketId) (room : string) (rooms : Rooms) : Rooms :=
  <[room := {[sid]} ∪ default ∅ (rooms !! room)]> rooms.

Definition socket_leave (sid : SocketId) (room : string) (rooms : Rooms) : Rooms :=
  match rooms !! room with
  | Some sockets =>
    if bool_decide (sockets ∖ {[sid]} = ∅) then delete room rooms
    else <[room := sockets ∖ {[sid]}]> rooms
  | None => rooms
  end.

Definition user_object (u : SocketUser) : JsValue :=
  VUser (su_id u) (username u).

(** [socket.on('join_challenge', ...)] *)
Definition join_challenge (sid : SocketId) (u : SocketUser) (challengeId : string)
    (rooms : Rooms) : Rooms * list Emit :=
  let rooms' := socket_join sid (challenge_room challengeId) rooms in
  let count := room_size rooms' (challenge_room challengeId) in
  (rooms',
   [ {| target := ToRoom (challenge_room challengeId);
        event := "viewer_joined";
        payload := [("viewerCount", VNumber count); ("user", user_object u)] |};
     {| target := ToSocket sid;
        event := "challenge_data";
        payload := [("challengeId", VString challengeId);
                    ("viewerCount", VNumber count)] |} ]).

(** [socket.on('leave_challenge', ...)] *)
Definition leave_challenge (sid : SocketId) (u : SocketUser) (challengeId : string)
    (rooms : Rooms) : Rooms * list Emit :=
  let rooms' := socket_leave sid (challenge_room challengeId) rooms in
  let count := room_size rooms' (challenge_room challengeId) in
  (rooms',
   [ {| target := ToRoom (challenge_room challengeId);
        event := "viewer_left";
        payload := [("viewerCount", VNumber count); ("user", user_object u)] |} ]).

(** [s.split(':')] *)
Fixpoint split_colon_aux (s : string) (cur : string) : list string :=
  match s with
  | EmptyString => [cur]
  | String c rest =>
    if Ascii.eqb c ":"%char then cur :: split_colon_aux rest ""
    else split_colon_aux rest (cur +:+ String c "")
  end.

Definition split_colon (s : string) : list string := split_colon_aux s "".

(** [room.split(':')[1]] *)
Definition room_challengeId (room : string) : JsValue :=
  match split_colon room !! 1 with
  | Some challengeId => VString challengeId
  | None => VUndefined
  end.

(** The callback of [setInterval(..., 5000)]: one emission per room whose
    name starts with [challenge:]. *)
Definition viewer_count_update (now : Date) (rooms : Rooms) : list Emit :=
  (λ entry : string * gset SocketId,
     {| target := ToRoom entry.1;
        event := "viewer_count_update";
        payload := [("challengeId", room_challengeId entry.1);
                    ("viewerCount", VNumber (size entry.2));
                    ("timestamp", VDate now)] |})
  <$> filter (λ entry : string * gset SocketId,
                String.prefix "challenge:" entry.1 = true)
             (map_to_list rooms).

(** The period of the interval, in milliseconds. *)
Definition viewer_count_period : nat := 5000.

(** [setInterval(callback, delay)], called at the time [armed]: the callback
    runs at [armed + delay], at [armed + 2 * delay], and so on. *)
Definition setInterval_runs (delay armed t : Date) : bool :=
  bool_decide (armed < t) && bool_decide ((t - armed) mod delay = 0).

(** What the interval of [initializeSocketIO], armed at [armed], emits in the
    millisecond [t], when the rooms are [rooms] then. *)
Definition periodic_broadcast (armed t : Date) (rooms : Rooms) : list Emit :=
  if setInterval_runs viewer_count_period armed t
  then viewer_count_update t rooms else [].

(** What it emits after [from] and up to [from + len], [rooms_at] giving the
    rooms at each time. *)
Definition emitted_between (armed from len : Date) (rooms_at : Date → Rooms)
    : list Emit :=
  t ← seq (S from) len; periodic_broadcast armed t (rooms_at t).

(** The events of a list that go to a room. *)
Definition sent_to (room : string) (es : list Emit) : list Emit :=
  filter (λ e, target e = ToRoom room) es.

Definition has_field (name : string) (p : list (string * JsValue)) : bool :=
  bool_decide (name ∈ p.*1).

(** ** The server as a transition system *)

Inductive Request (T : Type) :=
  | CancelChallenge (uid : ObjectId) (urole : Role) (id : ObjectId)
  | StartChallenge (uid id : ObjectId) (now : Date)
      (creatorCall opponentCall : option Broadcast)
  | EndChallenge (uid id : ObjectId) (now : Date)
      (invoices : InvoiceNumber * InvoiceNumber)
  | RejectAdvertisement (uid id ad : ObjectId) (reason : option string) (now : Date)
  | SubmitRating (uid id competitor : ObjectId) (s : T) (now : Date).

Arguments CancelChallenge {T}.
Arguments StartChallenge {T}.
Arguments EndChallenge {T}.
Arguments RejectAdvertisement {T}.
Arguments SubmitRating {T}.

Section Server.
Context {T : Type} `{JsNumber T}.
Variable decrypt : string -> option string.

Definition handle (req : Request T) (db : DB T) : Response * DB T :=
  match req with
  | CancelChallenge uid urole id => cancelChallenge uid urole id db
  | StartChallenge uid id now creatorCall opponentCall =>
    startChallenge decrypt uid id now creatorCall opponentCall db
  | EndChallenge uid id now invoices => endChallenge uid id now invoices db
  | RejectAdvertisement uid id ad reason now =>
    rejectAdvertisement uid id ad reason now db
  | SubmitRating uid id competitor s now =>
    submitRating uid id competitor s now db
  end.

(** Requests served one after the other; the answers are kept in order. *)
Fixpoint serve (reqs : list (Request T)) (db : DB T) : list Response * DB T :=
  match reqs with
  | [] => ([], db)
  | req :: reqs =>
    let '(r, db1) := handle req db in
    let '(rs, db2) := serve reqs db1 in
    (r :: rs, db2)
  end.

(** The requests that end challenge [id] and were answered with success. *)
Definition ended (id : ObjectId) (req : Request T) (r : Response) : bool :=
  match req with
  | EndChallenge _ id' _ _ => bool_decide (id' = id) && succeeded r
  | _ => false
  end.

Fixpoint count_ended (id : ObjectId) (reqs : list (Request T))
    (rs : list Response) : nat :=
  match reqs, rs with
  | req :: reqs, r :: rs =>
    (if ended id req r then 1 else 0) + count_ended id reqs rs
  | _, _ => 0
  end.

End Server.

(** ** Rating sessions

    A vote is one call of [submitRating]; a session is a run of calls that
    were all answered with 201. *)

Record Vote (T : Type) := {
  v_rater : ObjectId;
  v_challenge : ObjectId;
  v_competitor : ObjectId;
  v_score : T;
  v_time : Date
}.

Arguments v_rater {T}.
Arguments v_challenge {T}.
Arguments v_competitor {T}.
Arguments v_score {T}.
Arguments v_time {T}.

Section Sessions.
Context {T : Type} `{JsNumber T}.

Definition cast (v : Vote T) (db : DB T) : Response * DB T :=
  submitRating (v_rater v) (v_challenge v) (v_competitor v) (v_score v)
    (v_time v) db.

Inductive session : DB T → list (Vote T) → DB T → Prop :=
  | session_nil db : session db [] db
  | session_snoc db votes db1 v db2 :
      session db votes db1 →
      cast v db1 = (Success 201, db2) →
      session db (votes ++ [v]) db2.

(** Running the calls one after the other, and whether each was answered
    with 201. *)
Definition after (votes : list (Vote T)) (db : DB T) : DB T :=
  foldl (λ db v, (cast v db).2) db votes.

Fixpoint all_accepted (votes : list (Vote T)) (db : DB T) : bool :=
  match votes with
  | [] => true
  | v :: votes =>
    match cast v db with
    | (Success http, db1) => Nat.eqb http 201 && all_accepted votes db1
    | (Failure _ _, _) => false
    end
  end.

(** The key of the unique index of [ratingSchema]. *)
Definition vote_key (r : Rating T) : ObjectId * ObjectId * ObjectId :=
  (r_challenge r, rater r, competitorRated r).

Definition unique_votes (rs : list (Rating T)) : Prop := NoDup (vote_key <$> rs).

(** The votes of a session for competitor [p] of challenge [id]. *)
Definition votes_for (id p : ObjectId) (votes : list (Vote T)) : list (Vote T) :=
  filter (λ v, v_challenge v = id ∧ v_competitor v = p) votes.

(** The distinct members of a list, in the order of their first occurrence. *)
Definition distinct (l : list ObjectId) : list ObjectId :=
  foldl (λ seen u, if bool_decide (u ∈ seen) then seen else seen ++ [u]) [] l.

(** The distinct raters of [p], in the order of their first vote. *)
Definition raters_of (id p : ObjectId) (votes : list (Vote T)) : list ObjectId :=
  distinct (v_rater <$> votes_for id p votes).

(** The latest score [u] gave to [p]. *)
Definition latest_score (id p u : ObjectId) (votes : list (Vote T)) : option T :=
  last (v_score <$> filter (λ v, v_rater v = u) (votes_for id p votes)).

(** The sum, over the distinct raters, of each rater's latest score. *)
Definition sum_latest (id p : ObjectId) (votes : list (Vote T)) : T :=
  foldl js_add (js_of_nat 0)
    (omap (λ u, latest_score id p u votes) (raters_of id p votes)).

(** The records of competitor [p] in challenge [id] are those the votes
    call for: one per distinct rater, carrying that rater's latest score. *)
Definition tallied (id p : ObjectId) (votes : list (Vote T))
    (rs : list (Rating T)) : Prop :=
  rater <$> ratings_of id (Some p) rs = raters_of id p votes
  ∧ ∀ r, r ∈ ratings_of id (Some p) rs →
      latest_score id p (rater r) votes = Some (score r).

(** The denormalised counters of a challenge agree with the collection. *)
Definition stats_consistent (id : ObjectId) (c : Challenge T)
    (rs : list (Rating T)) : Prop :=
  creatorRatingSum c = sum_scores (ratings_of id (Some (creator c)) rs)
  ∧ creatorRatingCount c = length (ratings_of id (Some (creator c)) rs)
  ∧ opponentRatingSum c = sum_scores (ratings_of id (opponent c) rs)
  ∧ opponentRatingCount c = length (ratings_of id (opponent c) rs)
  ∧ totalRatings c = creatorRatingCount c + opponentRatingCount c.

(** A challenge nobody has rated yet: no record, and the schema defaults in
    the counters. *)
Definition unrated (id : ObjectId) (db : DB T) : Prop :=
  (∀ r, r ∈ Ratings db → r_challenge r ≠ id)
  ∧ ∀ c, Challenges db !! id = Some c →
      creatorRatingSum c = js_of_nat 0 ∧ creatorRatingCount c = 0
      ∧ opponentRatingSum c = js_of_nat 0 ∧ opponentRatingCount c = 0
      ∧ totalRatings c = 0.

End Sessions.

(** ** The lifecycle graph: pending/scheduled → live → completed/cancelled,
    and pending/scheduled → cancelled. *)

Inductive lifecycle : ChallengeStatus → ChallengeStatus → Prop :=
  | lifecycle_start s : s = pending ∨ s = scheduled → lifecycle s live
  | lifecycle_end : lifecycle live completed
  | lifecycle_abort : lifecycle live cancelled
  | lifecycle_cancel s : s = pending ∨ s = scheduled → lifecycle s cancelled.

(** ** Rooms reached by joins and leaves *)

Inductive SocketEvent :=
  | JoinChallenge (sid : SocketId) (u : SocketUser) (challengeId : string)
  | LeaveChallenge (sid : SocketId) (u : SocketUser) (challengeId : string).

Definition on_event (e : SocketEvent) (rooms : Rooms) : Rooms * list Emit :=
  match e with
  | JoinChallenge sid u challengeId => join_challenge sid u challengeId rooms
  | LeaveChallenge sid u challengeId => leave_challenge sid u challengeId rooms
  end.

Definition after_events (es : list SocketEvent) (rooms : Rooms) : Rooms :=
  foldl (λ rooms e, (on_event e rooms).1) rooms es.

(** ** The revenue the specification asks for

    Written from the wording of the specification, to be compared with what
    [endChallenge] stores: going through the bindings of the challenge, one
    whose status is [displayed] adds the [paidAmount] of its advertisement,
    any other adds nothing.  (A displayed binding whose advertisement
    document is gone adds the 0 the handler adds for it.) *)

Section RevenueSpec.
Context {T : Type} `{JsNumber T}.


End RevenueSpec.

(** ** The records a counter stands for

    Written from the wording of the specification, to be compared with the
    counters [submitRating] stores: going through the collection record by
    record, one of the given challenge that rates the given competitor
    counts for one and adds its score, any other record adds nothing. *)

Section RatingSpec.
Context {T : Type} `{JsNumber T}.

Fixpoint rating_records (id competitor : ObjectId) (rs : list (Rating T))
    : nat :=
  match rs with
  | [] => 0
  | r :: rs =>
    if bool_decide (r_challenge r = id) && bool_decide (competitorRated r = competitor)
    then S (rating_records id competitor rs)
    else rating_records id competitor rs
  end.

Fixpoint rating_points (id competitor : ObjectId) (sum : T)
    (rs : list (Rating T)) : T :=
  match rs with
  | [] => sum
  | r :: rs =>
    if bool_decide (r_challenge r = id) && bool_decide (competitorRated r = competitor)
    then rating_points id competitor (js_add sum (score r)) rs
    else rating_points id competitor sum rs
  end.

End RatingSpec.

(** ** What the handlers keep

    The vocabulary of the invariants proved below. *)

(** A binding is left alone or rejected. *)
Definition binding_kept (b b' : AdBinding) : Prop :=
  b' = b ∨ (adId b' = adId b ∧ ad_status b' = ad_rejected).

(** The moves of [status] the handlers can make. *)
Inductive moves : ChallengeStatus → ChallengeStatus → Prop :=
  | moves_stay s : moves s s
  | moves_start s : s ≠ live → s ≠ completed → moves s live
  | moves_end : moves live completed
  | moves_cancel s : s ≠ completed → moves s cancelled.

(** A challenge that has left pending and scheduled. *)
Definition started (s : ChallengeStatus) : Prop :=
  s = live ∨ s = completed ∨ s = cancelled.

Section Kept.
Context {T : Type}.

(** What holds between a challenge document and a later state of it. *)
Definition persists (c c' : Challenge T) : Prop :=
  creator c' = creator c
  ∧ opponent c' = opponent c
  ∧ peakViewers c' = peakViewers c
  ∧ (status c = completed → status c' = completed)
  ∧ Forall2 binding_kept (advertisements c) (advertisements c').

(** One handler call, seen from one challenge document. *)
Definition step (c c' : Challenge T) : Prop :=
  persists c c' ∧ moves (status c) (status c').

End Kept.

(** ** Scenarios

    Small databases used to run the handlers.  Users 1 and 2 are the two
    competitors of challenge 7; users 10, 11 and 12 are viewers. *)

Section Scenarios.
Context {T : Type} `{JsNumber T}.

Definition member (r : Role) (linked : bool) : User T :=
  {| role := r; youtubeLinked := linked;
     youtubeAccessToken := "access"; youtubeRefreshToken := "refresh";
     totalEarnings := js_of_nat 0; totalChallenges := js_of_nat 0 |}.

Definition binding (ad : ObjectId) (s : AdStatus) : AdBinding :=
  {| adId := ad; ad_status := s; rejectedBy := None; rejectionReason := None |}.

(** A challenge of user 1 with the schema defaults in every counter. *)
Definition duel (o : option ObjectId) (s : ChallengeStatus)
    (ads : list AdBinding) : Challenge T :=
  {| creator := 1; opponent := o; title := "Duel"; description := "";
     scheduledTime := None; startedAt := None; endedAt := None;
     status := s;
     creatorYoutubeUrl := None; opponentYoutubeUrl := None;
     creatorStreamKey := None; opponentStreamKey := None;
     creatorBroadcastId := None; opponentBroadcastId := None;
     advertisements := ads; totalRevenue := js_of_nat 0;
     revenueDistribution :=
       {| platform := js_of_nat 0; rd_creator := js_of_nat 0;
          rd_opponent := js_of_nat 0 |};
     viewerCount := 0; peakViewers := 0; totalRatings := 0;
     creatorRatingSum := js_of_nat 0; opponentRatingSum := js_of_nat 0;
     creatorRatingCount := 0; opponentRatingCount := 0 |}.

Definition paid (n : nat) : Advertisement T :=
  {| paidAmount := js_of_nat n; adv_status := adv_displayed;
     adv_rejectedBy := None; rejectionDate := None |}.

Definition rated (u p : ObjectId) (n : nat) : Rating T :=
  {| r_challenge := 7; rater := u; competitorRated := p;
     score := js_of_nat n; timestamp := 0 |}.

Definition arena (c : Challenge T) (rs : list (Rating T))
    (ads : gmap ObjectId (Advertisement T)) : DB T :=
  {| Challenges := {[ 7 := c ]};
     Ratings := rs;
     Users := {[ 1 := member user_role true; 2 := member user_role true ]};
     Advertisements := ads;
     Transactions := [] |}.

(** Three displayed advertisements worth 100; 9 points for the creator and
    3 for the opponent. *)
Definition db100 : DB T :=
  arena (duel (Some 2) live
           [binding 1 ad_displayed; binding 2 ad_displayed; binding 3 ad_displayed])
        [rated 10 1 5; rated 11 1 4; rated 10 2 3]
        {[ 1 := paid 50; 2 := paid 30; 3 := paid 20 ]}.

(** A revenue of 50 and no rating. *)
Definition db50 : DB T :=
  arena (duel (Some 2) live [binding 1 ad_displayed; binding 2 ad_displayed])
        []
        {[ 1 := paid 30; 2 := paid 20 ]}.

(** A revenue of 3 and no rating. *)
Definition db3 : DB T :=
  arena (duel (Some 2) live [binding 1 ad_displayed]) [] {[ 1 := paid 3 ]}.

(** One binding in each state, the advertisements of the pending and the
    rejected one worth 500, next to a displayed one worth 50. *)
Definition mixed_bindings : list AdBinding :=
  [binding 1 ad_displayed; binding 2 ad_pending; binding 3 ad_rejected].

Definition mixed_advertisements : gmap ObjectId (Advertisement T) :=
  {[ 1 := paid 50; 2 := paid 500; 3 := paid 500 ]}.


(** Challenge 7 before an opponent has joined. *)
Definition db_open : DB T := arena (duel None pending []) [] ∅.

(** Challenge 7, accepted and waiting to start. *)
Definition db_ready : DB T := arena (duel (Some 2) pending []) [] ∅.

(** Challenge 7 in each of the later states. *)
Definition db_live : DB T := arena (duel (Some 2) live []) [] ∅.
Definition db_completed : DB T := arena (duel (Some 2) completed []) [] ∅.
Definition db_cancelled : DB T := arena (duel (Some 2) cancelled []) [] ∅.

(** What the streaming provider answers when it accepts a request. *)
Definition studio (n : string) : Broadcast :=
  {| broadcastId := n; streamKey := "key-" +:+ n;
     embedUrl := "https://www.youtube.com/embed/" +:+ n |}.

(** Four calls of [submitRating] on the live challenge 7: viewer 10 rates the
    creator 5, viewer 11 rates the creator 4, viewer 10 rates the opponent 3,
    and viewer 10 changes the creator's rating to 2. *)
Definition vote (u p : ObjectId) (n : nat) (now : Date) : Vote T :=
  {| v_rater := u; v_challenge := 7; v_competitor := p;
     v_score := js_of_nat n; v_time := now |}.

Definition four_votes : list (Vote T) :=
  [vote 10 1 5 61; vote 11 1 4 62; vote 10 2 3 63; vote 10 1 2 64].

(** The invoice numbers drawn when a challenge of the scenarios is ended. *)
Definition drawn : InvoiceNumber * InvoiceNumber := ((100, 417), (101, 52)).

(** A transaction of another challenge that holds the first number of
    [drawn]. *)
Definition taken_invoice : Transaction T :=
  {| t_user := 2; t_challenge := 8; amount := js_of_nat 5;
     invoiceNumber := (100, 417);
     ratingPercentage := js_of_nat 50;
     totalChallengeRevenue := js_of_nat 10;
     competitorRole := role_opponent |}.

Definition with_transactions (ts : list (Transaction T)) (db : DB T) : DB T :=
  {| Challenges := Challenges db;
     Ratings := Ratings db;
     Users := Users db;
     Advertisements := Advertisements db;
     Transactions := ts |}.

(** A start, a rating and an end of challenge 7. *)
Definition full_run : list (Request T) :=
  [StartChallenge 1 7 10 (Some (studio "a")) (Some (studio "b"));
   SubmitRating 10 7 1 (js_of_nat 5) 20; EndChallenge 2 7 30 drawn].

(** The total stored for challenge 7. *)
Definition stored_total (db : DB T) : option T :=
  totalRevenue <$> Challenges db !! 7.

(** The distribution stored for challenge 7. *)
Definition stored_distribution (db : DB T) : option (RevenueDistribution T) :=
  revenueDistribution <$> Challenges db !! 7.

End Scenarios.

(** Three viewers join the room of challenge 42 and one of them leaves;
    a fourth socket sits in a room that is not a challenge room. *)
Definition viewer (n : ObjectId) : SocketUser :=
  {| su_id := n; username := "viewer" |}.

Definition two_viewers : Rooms :=
  <["lobby" := {[9]}]>
    (after_events
       [JoinChallenge 1 (viewer 10) "42"; JoinChallenge 2 (viewer 11) "42";
        JoinChallenge 3 (viewer 12) "42"; LeaveChallenge 3 (viewer 12) "42"]
       ∅).

(** Every room has a member. *)
Definition inhabited (rooms : Rooms) : Prop :=
  ∀ room sockets, rooms !! room = Some sockets → sockets ≠ ∅.

(** The object literal the periodic broadcast sends to a room. *)
Definition viewer_count_payload (now : Date) (room : string)
    (sockets : gset SocketId) : list (string * JsValue) :=
  [("challengeId", room_challengeId room);
   ("viewerCount", VNumber (size sockets));
   ("timestamp", VDate now)].

(** ** The ledger of an ended challenge *)

Section Ledger.
Context {T : Type} `{JsNumber T}.

(** The [$inc] that goes with one transaction. *)
Definition credit (us : gmap ObjectId (User T)) (t : Transaction T)
    : gmap ObjectId (User T) :=
  alter (inc_earnings (amount t)) (t_user t) us.

End Ledger.

(** The amounts of a list of transactions added up, and the part of it that
    goes to user [u]. *)
Definition paid_out (ts : list (Transaction Q)) : Q :=
  foldr Qplus 0%Q (amount <$> ts).

Definition paid_to (u : ObjectId) (ts : list (Transaction Q)) : Q :=
  paid_out (filter (λ t, t_user t = u) ts).

(** ** What a refused request leaves behind *)

Section Staffed.
Context {T : Type}.

(** Every live challenge has an opponent. *)
Definition staffed (db : DB T) : Prop :=
  ∀ id c, Challenges db !! id = Some c → status c = live → is_Some (opponent c).

End Staffed.

(** ** Room names *)

(** No colon among the characters of [s]. *)
Fixpoint colon_free (s : string) : bool :=
  match s with
  | EmptyString => true
  | String c rest => negb (Ascii.eqb c ":"%char) && colon_free rest
  end.

(** ** Rating summaries

    The virtuals of the challenge schema and the two revisions of
    [getChallengeRatings]. *)

Section RatingSummaries.
Context {T : Type} `{JsNumber T}.

(** [challengeSchema.virtual('creatorAvgRating')] and
    [challengeSchema.virtual('opponentAvgRating')] ([models/index.js]). *)
Definition creatorAvgRating (c : Challenge T) : T :=
  if Nat.ltb 0 (creatorRatingCount c)
  then js_div (creatorRatingSum c) (js_of_nat (creatorRatingCount c))
  else js_of_nat 0.

Definition opponentAvgRating (c : Challenge T) : T :=
  if Nat.ltb 0 (opponentRatingCount c)
  then js_div (opponentRatingSum c) (js_of_nat (opponentRatingCount c))
  else js_of_nat 0.

(** The [creator] and [opponent] objects of the aggregated ratings. *)
Record CompetitorSummary := {
  totalScore : T;
  count : nat;
  average : T;
  share : T                      (* [percentage] *)
}.

Record RatingsSummary := {
  of_creator : CompetitorSummary;
  of_opponent : CompetitorSummary;
  ratings_total : nat           (* [totalRatings] *)
}.

End RatingSummaries.

Arguments CompetitorSummary T : clear implicits.
Arguments RatingsSummary T : clear implicits.

(** [exports.getChallengeRatings] of [controllers/challenge.controller.js]:
    the percentages are guarded by [challenge.totalRatings > 0]. *)
Module challenge_controller.
Section Handlers.
Context {T : Type} `{JsNumber T}.

Definition getChallengeRatings (id : ObjectId) (db : DB T)
    : Response * option (RatingsSummary T) :=
  match Challenges db !! id with
  | None => (Failure 404 CHALLENGE_NOT_FOUND, None)
  | Some challenge =>
    let both :=
      js_add (creatorRatingSum challenge) (opponentRatingSum challenge) in
    (Success 200,
     Some
       {| of_creator :=
            {| totalScore := creatorRatingSum challenge;
               count := creatorRatingCount challenge;
               average :=
                 if Nat.ltb 0 (creatorRatingCount challenge)
                 then js_div (creatorRatingSum challenge)
                             (js_of_nat (creatorRatingCount challenge))
                 else js_of_nat 0;
               share :=
                 if Nat.ltb 0 (totalRatings challenge)
                 then js_mul (js_div (creatorRatingSum challenge) both)
                             (js_of_nat 100)
                 else js_of_nat 0 |};
          of_opponent :=
            {| totalScore := opponentRatingSum challenge;
               count := opponentRatingCount challenge;
               average :=
                 if Nat.ltb 0 (opponentRatingCount challenge)
                 then js_div (opponentRatingSum challenge)
                             (js_of_nat (opponentRatingCount challenge))
                 else js_of_nat 0;
               share :=
                 if Nat.ltb 0 (totalRatings challenge)
                 then js_mul (js_div (opponentRatingSum challenge) both)
                             (js_of_nat 100)
                 else js_of_nat 0 |};
          ratings_total := totalRatings challenge |})
  end.

End Handlers.
End challenge_controller.

(** [exports.getChallengeRatings] of [controllers/rating.controller.js]:
    the percentages are guarded by the sum of the two score sums. *)
Module rating_controller.
Section Handlers.
Context {T : Type} `{JsNumber T}.

Definition getChallengeRatings (id : ObjectId) (db : DB T)
    : Response * option (RatingsSummary T) :=
  match Challenges db !! id with
  | None => (Failure 404 CHALLENGE_NOT_FOUND, None)
  | Some challenge =>
    let stored := totalRatings challenge in      (* [challenge.totalRatings] *)
    let totalRatings :=
      js_add (creatorRatingSum challenge) (opponentRatingSum challenge) in
    (Success 200,
     Some
       {| of_creator :=
            {| totalScore := creatorRatingSum challenge;
               count := creatorRatingCount challenge;
               average :=
                 if Nat.ltb 0 (creatorRatingCount challenge)
                 then js_div (creatorRatingSum challenge)
                             (js_of_nat (creatorRatingCount challenge))
                 else js_of_nat 0;
               share :=
                 if js_lt (js_of_nat 0) totalRatings
                 then js_mul (js_div (creatorRatingSum challenge) totalRatings)
                             (js_of_nat 100)
                 else js_of_nat 0 |};
          of_opponent :=
            {| totalScore := opponentRatingSum challenge;
               count := opponentRatingCount challenge;
               average :=
                 if Nat.ltb 0 (opponentRatingCount challenge)
                 then js_div (opponentRatingSum challenge)
                             (js_of_nat (opponentRatingCount challenge))
                 else js_of_nat 0;
               share :=
                 if js_lt (js_of_nat 0) totalRatings
                 then js_mul (js_div (opponentRatingSum challenge) totalRatings)
                             (js_of_nat 100)
                 else js_of_nat 0 |};
          ratings_total := stored |})
  end.

End Handlers.
End rating_controller.

(** Every record carries a score the schema accepts. *)
Definition scored {T} `{JsNumber T} (rs : list (Rating T)) : Prop :=
  Forall (λ r, valid_score (score r) = true) rs.

(** ** Join requests ([controllers/challenge.controller.js], continued)

    The answers of the handlers below carry the error code of the source as
    a string. *)

Inductive Reply :=
  | Sent (http : nat)
  | Denied (http : nat) (code : string).

(** [challengeInvitationSchema.status] *)
Inductive InvitationStatus :=
  inv_pending | inv_accepted | inv_rejected | inv_expired.

#[export] Instance InvitationStatus_eq_dec : EqDecision InvitationStatus.
Proof. solve_decision. Defined.

(** [challengeInvitationSchema]; its unique index is on (challenge, invitee). *)
Record ChallengeInvitation := {
  i_challenge : ObjectId;
  inviter : ObjectId;
  invitee : ObjectId;
  i_status : InvitationStatus;
  i_message : string;
  responseMessage : option string;
  respondedAt : option Date;
  expiresAt : Date
}.

(** [notificationSchema], without the text shown to the user ([content],
    [link]). *)
Inductive NotificationType :=
  challenge_invite | invite_accepted | invite_rejected | new_message.

Record Notification := {
  n_user : ObjectId;
  n_type : NotificationType;
  n_challengeId : option ObjectId;
  n_userId : option ObjectId
}.

Section Sites.
Context {T : Type}.

(** The collections of [DB] together with the invitations and the
    notifications. *)
Record Site := {
  base : DB T;
  Invitations : list ChallengeInvitation;
  Notifications : list Notification
}.

Definition with_base (db : DB T) (s : Site) : Site :=
  {| base := db; Invitations := Invitations s;
     Notifications := Notifications s |}.

(** [challenge.opponent = userId; challenge.status = challenge.scheduledTime
    ? 'scheduled' : 'pending'] *)
Definition accept_opponent (userId : ObjectId) (c : Challenge T) : Challenge T :=
  {| creator := creator c; opponent := Some userId; title := title c;
     description := description c; scheduledTime := scheduledTime c;
     startedAt := startedAt c; endedAt := endedAt c;
     status := match scheduledTime c with
               | Some _ => scheduled
               | None => pending
               end;
     creatorYoutubeUrl := creatorYoutubeUrl c;
     opponentYoutubeUrl := opponentYoutubeUrl c;
     creatorStreamKey := creatorStreamKey c;
     opponentStreamKey := opponentStreamKey c;
     creatorBroadcastId := creatorBroadcastId c;
     opponentBroadcastId := opponentBroadcastId c;
     advertisements := advertisements c; totalRevenue := totalRevenue c;
     revenueDistribution := revenueDistribution c;
     viewerCount := viewerCount c; peakViewers := peakViewers c;
     totalRatings := totalRatings c;
     creatorRatingSum := creatorRatingSum c;
     opponentRatingSum := opponentRatingSum c;
     creatorRatingCount := creatorRatingCount c;
     opponentRatingCount := opponentRatingCount c |}.

(** [invitation.status = ...; invitation.responseMessage = message || '';
    invitation.respondedAt = new Date()] *)
Definition respond (st : InvitationStatus) (message : option string)
    (now : Date) (i : ChallengeInvitation) : ChallengeInvitation :=
  {| i_challenge := i_challenge i; inviter := inviter i; invitee := invitee i;
     i_status := st; i_message := i_message i;
     responseMessage := Some (default "" message);
     respondedAt := Some now; expiresAt := expiresAt i |}.

(** Seven days, in milliseconds. *)
Definition invitation_lifetime : nat := 7 * 24 * 60 * 60 * 1000.

(** [maxlength: 500] of [message] and [responseMessage]. *)
Definition fits (message : string) : bool :=
  bool_decide (String.length message ≤ 500).

(** [exports.requestToJoin].  [ChallengeInvitation.create] runs the
    validators of the schema and then inserts, which the unique index on
    (challenge, invitee) refuses when the pair is taken; the error handler
    answers a duplicate key with 409 [DUPLICATE_FIELD]. *)
Definition requestToJoin (uid id : ObjectId) (message : option string)
    (now : Date) (s : Site) : Reply * Site :=
  match Challenges (base s) !! id with
  | None => (Denied 404 "CHALLENGE_NOT_FOUND", s)
  | Some challenge =>
    if bool_decide (creator challenge = uid)
    then (Denied 400 "CANNOT_JOIN_OWN", s)
    else if negb (bool_decide (status challenge = pending))
    then (Denied 400 "INVALID_STATUS", s)
    else if bool_decide (is_Some (opponent challenge))
    then (Denied 400 "ALREADY_HAS_OPPONENT", s)
    else if bool_decide
              (Exists (λ i, i_challenge i = id ∧ invitee i = uid
                            ∧ i_status i = inv_pending) (Invitations s))
    then (Denied 409 "ALREADY_REQUESTED", s)
    else
      let invitation :=
        {| i_challenge := id; inviter := uid; invitee := creator challenge;
           i_status := inv_pending; i_message := default "" message;
           responseMessage := None; respondedAt := None;
           expiresAt := now + invitation_lifetime |} in
      if negb (fits (i_message invitation))
      then (Denied 400 "VALIDATION_ERROR", s)
      else if bool_decide
                (Exists (λ i, i_challenge i = id
                              ∧ invitee i = creator challenge) (Invitations s))
      then (Denied 409 "DUPLICATE_FIELD", s)
      else
        (Sent 201,
         {| base := base s;
            Invitations := Invitations s ++ [invitation];
            Notifications :=
              Notifications s ++
                [ {| n_user := creator challenge; n_type := challenge_invite;
                     n_challengeId := Some id; n_userId := Some uid |} ] |})
  end.

(** [exports.acceptRejectJoinRequest].  On [accept] the challenge is saved
    before the invitation is. *)
Definition acceptRejectJoinRequest (uid challengeId userId : ObjectId)
    (action : string) (message : option string) (now : Date) (s : Site)
    : Reply * Site :=
  if negb (bool_decide (action ∈ ["accept"; "reject"]))
  then (Denied 400 "INVALID_ACTION", s) else
  match Challenges (base s) !! challengeId with
  | None => (Denied 404 "CHALLENGE_NOT_FOUND", s)
  | Some challenge =>
    if negb (bool_decide (creator challenge = uid))
    then (Denied 403 "NOT_CREATOR", s) else
    match list_find (λ i, i_challenge i = challengeId ∧ inviter i = userId
                          ∧ i_status i = inv_pending) (Invitations s) with
    | None => (Denied 404 "INVITATION_NOT_FOUND", s)
    | Some (k, invitation) =>
      if bool_decide (action = "accept") then
        let s1 :=
          with_base
            (with_challenge challengeId (accept_opponent userId challenge)
               (base s)) s in
        if negb (fits (default "" message))
        then (Denied 400 "VALIDATION_ERROR", s1)
        else
          (Sent 200,
           {| base := base s1;
              Invitations :=
                <[k := respond inv_accepted message now invitation]>
                  (Invitations s1);
              Notifications :=
                Notifications s1 ++
                  [ {| n_user := userId; n_type := invite_accepted;
                       n_challengeId := Some challengeId;
                       n_userId := None |} ] |})
      else
        if negb (fits (default "" message))
        then (Denied 400 "VALIDATION_ERROR", s)
        else
          (Sent 200,
           {| base := base s;
              Invitations :=
                <[k := respond inv_rejected message now invitation]>
                  (Invitations s);
              Notifications :=
                Notifications s ++
                  [ {| n_user := userId; n_type := invite_rejected;
                       n_challengeId := Some challengeId;
                       n_userId := None |} ] |})
    end
  end.

End Sites.

Arguments Site T : clear implicits.

Section SiteRuns.
Context {T : Type} `{JsNumber T}.
Variable decrypt : string -> option string.

(** One request served on a site: a request of the transition system above,
    a join request or the answer to one. *)
Inductive site_step : Site T → Site T → Prop :=
  | step_handle req s r db' :
      handle decrypt req (base s) = (r, db') →
      site_step s (with_base db' s)
  | step_join uid id message now s r s' :
      requestToJoin uid id message now s = (r, s') →
      site_step s s'
  | step_respond uid challengeId userId action message now s r s' :
      acceptRejectJoinRequest uid challengeId userId action message now s
        = (r, s') →
      site_step s s'.

End SiteRuns.

(** Every invitation is addressed to the creator of its challenge. *)
Definition addressed {T} (s : Site T) : Prop :=
  ∀ i, i ∈ Invitations s →
    ∃ c, Challenges (base s) !! i_challenge i = Some c ∧ invitee i = creator c.

(** Challenge [id] belongs to [owner], who has been sent a join request for it. *)
Definition requested {T} (id owner : ObjectId) (s : Site T) : Prop :=
  (∃ c, Challenges (base s) !! id = Some c ∧ creator c = owner)
  ∧ Exists (λ i, i_challenge i = id ∧ invitee i = owner) (Invitations s).

(** Challenge 7 of the scenarios, open to join requests. *)
Definition lobby {T} `{JsNumber T} : Site T :=
  {| base := db_open; Invitations := []; Notifications := [] |}.

(** ** Pagination

    The list handlers share one computation: [skip = (page - 1) * limit]
    is taken with the limit asked for, [maxLimit = Math.min(limit, cap)]
    bounds the page, and [pages = Math.ceil(total / maxLimit)].  [page] and
    [limit] are what [parseInt] returns, for the positive integers. *)

Definition skip_of (page limit : positive) : nat :=
  (Pos.to_nat page - 1) * Pos.to_nat limit.

Definition maxLimit_of (cap : nat) (limit : positive) : nat :=
  Pos.to_nat limit `min` cap.

(** [.skip(skip).limit(maxLimit)] *)
Definition window {A} (cap : nat) (page limit : positive) (l : list A) : list A :=
  take (maxLimit_of cap limit) (drop (skip_of page limit) l).

(** [Math.ceil(n / m)] for [m] positive. *)
Definition ceil_div (n m : nat) : nat := (n + m - 1) / m.

Record Pagination := {
  p_page : positive;
  p_limit : nat;
  p_total : nat;
  p_pages : nat
}.

Definition pagination_of (cap : nat) (page limit : positive) (total : nat)
    : Pagination :=
  {| p_page := page; p_limit := maxLimit_of cap limit; p_total := total;
     p_pages := ceil_div total (maxLimit_of cap limit) |}.

(** The pages [1 .. n]. *)
Definition pages_upto (n : nat) : list positive := Pos.of_nat <$> seq 1 n.

(** ** The comment controller ([controllers/comment.controller.js]) *)

(** [commentSchema] *)
Record Comment := {
  c_challenge : ObjectId;
  author : ObjectId;
  content : string;
  isDeleted : bool;
  c_timestamp : Date
}.

Record CommentsPage := {
  comments : list (ObjectId * Comment);
  pagination : Pagination
}.

(** A collection whose documents are never removed: the [_id] of a document
    is its position. *)
Definition indexed {A} (l : list A) : list (ObjectId * A) :=
  imap (λ i x, (i, x)) l.

(** [sort('-timestamp')]; ties are left in the order merge sort gives. *)
Definition newer (a b : ObjectId * Comment) : Prop :=
  c_timestamp b.2 ≤ c_timestamp a.2.

#[export] Instance newer_dec a b : Decision (newer a b).
Proof. unfold newer. apply _. Defined.

Section CommentController.
Context {T : Type}.

(** [String.prototype.trim], the setter of [content]. *)
Variable trim : string -> string.

(** The collections the comment handlers use; [TotalComments] holds the
    [totalComments] path of the challenge documents (default 0). *)
Record Board := {
  board_db : DB T;
  Comments : list Comment;
  TotalComments : gmap ObjectId nat
}.

(** [content]: trimmed, then [required] and [maxlength: 500]. *)
Definition valid_content (content : option string) : option string :=
  text ← content;
  if bool_decide (1 ≤ String.length (trim text) ≤ 500)
  then Some (trim text) else None.

(** [exports.postComment] *)
Definition postComment (uid challengeId : ObjectId) (content : option string)
    (now : Date) (b : Board) : Reply * Board :=
  match Challenges (board_db b) !! challengeId with
  | None => (Denied 404 "CHALLENGE_NOT_FOUND", b)
  | Some challenge =>
    if negb (bool_decide (status challenge ∈ [live; completed]))
    then (Denied 400 "INVALID_STATUS", b)
    else
      match valid_content content with
      | None => (Denied 400 "VALIDATION_ERROR", b)
      | Some text =>
        (Sent 201,
         {| board_db := board_db b;
            Comments :=
              Comments b ++
                [ {| c_challenge := challengeId; author := uid; content := text;
                     isDeleted := false; c_timestamp := now |} ];
            TotalComments :=
              <[challengeId := default 0 (TotalComments b !! challengeId) + 1]>
                (TotalComments b) |})
      end
  end.

(** [Comment.find({ challenge, isDeleted: false }).sort('-timestamp')] *)
Definition visible_comments (challengeId : ObjectId) (b : Board)
    : list (ObjectId * Comment) :=
  merge_sort newer
    (filter (λ e, c_challenge e.2 = challengeId ∧ isDeleted e.2 = false)
       (indexed (Comments b))).

(** [exports.getChallengeComments]; its answer is always 200. *)
Definition getChallengeComments (challengeId : ObjectId) (page limit : positive)
    (b : Board) : CommentsPage :=
  {| comments := window 100 page limit (visible_comments challengeId b);
     pagination :=
       pagination_of 100 page limit
         (length (filter (λ c, c_challenge c = challengeId ∧ isDeleted c = false)
                    (Comments b))) |}.

Definition mark_deleted (c : Comment) : Comment :=
  {| c_challenge := c_challenge c; author := author c; content := content c;
     isDeleted := true; c_timestamp := c_timestamp c |}.

(** [exports.deleteComment] *)
Definition deleteComment (uid : ObjectId) (urole : Role) (commentId : ObjectId)
    (b : Board) : Reply * Board :=
  match Comments b !! commentId with
  | None => (Denied 404 "COMMENT_NOT_FOUND", b)
  | Some comment =>
    let isAuthor := bool_decide (author comment = uid) in
    let isAdmin := bool_decide (urole = admin_role) in
    if negb isAuthor && negb isAdmin then (Denied 403 "FORBIDDEN", b)
    else
      (Sent 200,
       {| board_db := board_db b;
          Comments := <[commentId := mark_deleted comment]> (Comments b);
          TotalComments := TotalComments b |})
  end.

(** The [totalComments] of every challenge is the number of its comment
    documents. *)
Definition counted (b : Board) : Prop :=
  ∀ id, default 0 (TotalComments b !! id)
        = length (filter (λ c, c_challenge c = id) (Comments b)).

End CommentController.

Arguments Board T : clear implicits.

(** [n] comments on the live challenge 7, one per tick, the first of them
    deleted. *)
Definition crowd (n : nat) : Board float :=
  {| board_db := db_live;
     Comments :=
       (λ k, {| c_challenge := 7; author := 10; content := "hi";
                isDeleted := Nat.eqb k 0; c_timestamp := k |}) <$> seq 0 n;
     TotalComments := {[ 7 := n ]} |}.

(** ** The message controller ([controllers/message.controller.js]) *)

(** [messageSchema] *)
Record Message := {
  sender : ObjectId;
  receiver : ObjectId;
  subject : string;
  m_content : string;
  read : bool;
  readAt : option Date;
  deletedBySender : bool;
  deletedByReceiver : bool;
  createdAt : Date
}.

#[export] Instance Message_eq_dec : EqDecision Message.
Proof. solve_decision. Defined.

Record MessagesPage := {
  messages : list (ObjectId * Message);
  m_pagination : Pagination;
  unreadCount : nat
}.

(** [sort('-createdAt')] *)
Definition sent_after (a b : ObjectId * Message) : Prop :=
  createdAt b.2 ≤ createdAt a.2.

#[export] Instance sent_after_dec a b : Decision (sent_after a b).
Proof. unfold sent_after. apply _. Defined.

Section MessageController.
Context {T : Type}.
Variable trim : string -> string.

(** The collections the message handlers use. *)
Record Mailbox := {
  mail_db : DB T;
  Messages : list Message;
  MailNotifications : list Notification
}.

(** [subject || 'No Subject'], trimmed. *)
Definition subject_of (subject : option string) : string :=
  match subject with
  | Some text => if bool_decide (text = "") then trim "No Subject" else trim text
  | None => trim "No Subject"
  end.

(** [exports.sendMessage].  [Message.create] runs the validators of the
    schema: [subject] has [maxlength: 200], [content] is required and has
    [maxlength: 2000], both after [trim]. *)
Definition sendMessage (uid receiverId : ObjectId) (subject content : option string)
    (now : Date) (m : Mailbox) : Reply * Mailbox :=
  match Users (mail_db m) !! receiverId with
  | None => (Denied 404 "USER_NOT_FOUND", m)
  | Some _ =>
    match content with
    | None => (Denied 400 "VALIDATION_ERROR", m)
    | Some text =>
      if negb (bool_decide (String.length (subject_of subject) ≤ 200))
         || negb (bool_decide (1 ≤ String.length (trim text) ≤ 2000))
      then (Denied 400 "VALIDATION_ERROR", m)
      else
        (Sent 201,
         {| mail_db := mail_db m;
            Messages :=
              Messages m ++
                [ {| sender := uid; receiver := receiverId;
                     subject := subject_of subject; m_content := trim text;
                     read := false; readAt := None;
                     deletedBySender := false; deletedByReceiver := false;
                     createdAt := now |} ];
            MailNotifications :=
              MailNotifications m ++
                [ {| n_user := receiverId; n_type := new_message;
                     n_challengeId := None; n_userId := Some uid |} ] |})
    end
  end.

(** The query of [getInbox]; [unread] says whether the request carries
    [unread=true]. *)
Definition in_inbox (uid : ObjectId) (unread : bool) (msg : Message) : Prop :=
  receiver msg = uid ∧ deletedByReceiver msg = false
  ∧ (unread = true → read msg = false).

#[export] Instance in_inbox_dec uid unread msg : Decision (in_inbox uid unread msg).
Proof. unfold in_inbox. apply _. Defined.

Definition inbox_of (uid : ObjectId) (unread : bool) (m : Mailbox)
    : list (ObjectId * Message) :=
  merge_sort sent_after
    (filter (λ e, in_inbox uid unread e.2) (indexed (Messages m))).

(** [exports.getInbox]; its answer is always 200. *)
Definition getInbox (uid : ObjectId) (page limit : positive) (unread : bool)
    (m : Mailbox) : MessagesPage :=
  {| messages := window 50 page limit (inbox_of uid unread m);
     m_pagination :=
       pagination_of 50 page limit
         (length (filter (in_inbox uid unread) (Messages m)));
     unreadCount :=
       length (filter (λ msg, receiver msg = uid ∧ read msg = false
                              ∧ deletedByReceiver msg = false) (Messages m)) |}.

Definition sent_by (uid : ObjectId) (msg : Message) : Prop :=
  sender msg = uid ∧ deletedBySender msg = false.

#[export] Instance sent_by_dec uid msg : Decision (sent_by uid msg).
Proof. unfold sent_by. apply _. Defined.

Definition outbox_of (uid : ObjectId) (m : Mailbox) : list (ObjectId * Message) :=
  merge_sort sent_after (filter (λ e, sent_by uid e.2) (indexed (Messages m))).

(** [exports.getSentMessages]; it reports no unread count. *)
Definition getSentMessages (uid : ObjectId) (page limit : positive)
    (m : Mailbox) : list (ObjectId * Message) * Pagination :=
  (window 50 page limit (outbox_of uid m),
   pagination_of 50 page limit (length (filter (sent_by uid) (Messages m)))).

Definition with_messages (msgs : list Message) (m : Mailbox) : Mailbox :=
  {| mail_db := mail_db m; Messages := msgs;
     MailNotifications := MailNotifications m |}.

Definition mark_read (now : Date) (msg : Message) : Message :=
  {| sender := sender msg; receiver := receiver msg; subject := subject msg;
     m_content := m_content msg; read := true; readAt := Some now;
     deletedBySender := deletedBySender msg;
     deletedByReceiver := deletedByReceiver msg; createdAt := createdAt msg |}.

(** [exports.markAsRead] *)
Definition markAsRead (uid messageId : ObjectId) (now : Date) (m : Mailbox)
    : Reply * Mailbox :=
  match Messages m !! messageId with
  | None => (Denied 404 "MESSAGE_NOT_FOUND", m)
  | Some message =>
    if negb (bool_decide (receiver message = uid))
    then (Denied 403 "FORBIDDEN", m)
    else
      (Sent 200,
       with_messages (<[messageId := mark_read now message]> (Messages m)) m)
  end.

(** The two [if] of the soft delete. *)
Definition mark_removed (isSender isReceiver : bool) (msg : Message) : Message :=
  {| sender := sender msg; receiver := receiver msg; subject := subject msg;
     m_content := m_content msg; read := read msg; readAt := readAt msg;
     deletedBySender := if isSender then true else deletedBySender msg;
     deletedByReceiver := if isReceiver then true else deletedByReceiver msg;
     createdAt := createdAt msg |}.

(** [exports.deleteMessage] *)
Definition deleteMessage (uid messageId : ObjectId) (m : Mailbox)
    : Reply * Mailbox :=
  match Messages m !! messageId with
  | None => (Denied 404 "MESSAGE_NOT_FOUND", m)
  | Some message =>
    let isSender := bool_decide (sender message = uid) in
    let isReceiver := bool_decide (receiver message = uid) in
    if negb isSender && negb isReceiver then (Denied 403 "FORBIDDEN", m)
    else
      (Sent 200,
       with_messages
         (<[messageId := mark_removed isSender isReceiver message]> (Messages m))
         m)
  end.

End MessageController.

Arguments Mailbox T : clear implicits.

(** An unread message sent at [now]. *)
Definition letter (from to : ObjectId) (now : Date) : Message :=
  {| sender := from; receiver := to; subject := "No Subject";
     m_content := "hello"; read := false; readAt := None;
     deletedBySender := false; deletedByReceiver := false; createdAt := now |}.

(** User 1 has written to user 2, who has answered. *)
Definition mailbag : Mailbox float :=
  {| mail_db := db_ready; Messages := [letter 1 2 1; letter 2 1 2];
     MailNotifications := [] |}.

(** ** Following and blocking ([controllers/user.controller.js],
    [middleware/auth.js], [middleware/checkBlocked.js])

    The paths of a user document these handlers use.  A [save] writes the
    paths that were assigned, so each one is an [alter] of the stored
    document.  The id of a route is the string [req.params.id]: the
    handlers compare it as a string and hand it to [findById] and [push],
    which cast it. *)

Record Account := {
  following : list ObjectId;
  followers : list ObjectId;
  followerCount : nat;
  blockedUsers : list ObjectId;
  isSuspended : bool
}.

Abbreviation Accounts := (gmap ObjectId Account).

Definition set_following (ids : list ObjectId) (a : Account) : Account :=
  {| following := ids; followers := followers a;
     followerCount := followerCount a; blockedUsers := blockedUsers a;
     isSuspended := isSuspended a |}.

(** [doc.followers = ...; doc.followerCount = doc.followers.length] *)
Definition set_followers (ids : list ObjectId) (a : Account) : Account :=
  {| following := following a; followers := ids;
     followerCount := length ids; blockedUsers := blockedUsers a;
     isSuspended := isSuspended a |}.

Definition set_blockedUsers (ids : list ObjectId) (a : Account) : Account :=
  {| following := following a; followers := followers a;
     followerCount := followerCount a; blockedUsers := ids;
     isSuspended := isSuspended a |}.

(** *** The spelling of ids

    [ObjectId.prototype.toString] prints an id as its 24 hexadecimal digits,
    in lower case.  (Ids are natural numbers here; one that does not fit
    takes the digits it needs.)  Casting a string to an id, as [findById]
    and [push] on an array of ids do, reads the digits in either case; a
    string that is not made of 24 hexadecimal digits or more is refused
    with a [CastError], which the error handler answers with 404
    [INVALID_ID]. *)

Definition is_hex_digit (ch : ascii) : bool :=
  match HexString.ascii_to_digit ch with
  | Some _ => true
  | None => false
  end.

Fixpoint all_hex (s : string) : bool :=
  match s with
  | EmptyString => true
  | String ch s => is_hex_digit ch && all_hex s
  end.

Fixpoint zeros (n : nat) : string :=
  match n with
  | 0 => EmptyString
  | S n => String "0" (zeros n)
  end.

Definition hex_digits (x : ObjectId) : string :=
  match N.of_nat x with
  | N0 => EmptyString
  | Npos p => HexString.Raw.of_pos p ""
  end.

Definition toString (x : ObjectId) : string :=
  zeros (24 - String.length (hex_digits x)) +:+ hex_digits x.

Definition castObjectId (s : string) : option ObjectId :=
  if (24 <=? String.length s) && all_hex s
  then Some (N.to_nat (HexString.Raw.to_N s 0))
  else None.

(** [ids.includes(raw)] for a string [raw]: [raw == id] for one of the ids,
    which compares [raw] with the id as [toString] prints it. *)
Definition includes (raw : string) (ids : list ObjectId) : bool :=
  bool_decide (raw ∈ toString <$> ids).

(** [ids.filter(id => id.toString() !== raw)] *)
Definition without (raw : string) (ids : list ObjectId) : list ObjectId :=
  filter (λ id, toString id ≠ raw) ids.

(** [protect], once the token is verified and names [uid]: the user is
    loaded, a suspended one is refused, and the route runs with [req.user]. *)
Definition protect (uid : ObjectId)
    (route : Account → Accounts → Reply * Accounts) (accts : Accounts)
    : Reply * Accounts :=
  match accts !! uid with
  | None => (Denied 401 "USER_NOT_FOUND", accts)
  | Some user =>
    if isSuspended user then (Denied 403 "ACCOUNT_SUSPENDED", accts)
    else route user accts
  end.

(** [req.body.receiver || req.params.id]: [body_receiver] is the string the
    body has under [receiver], if it has one; the empty string is falsy. *)
Definition receiver_of (body_receiver : option string) (param_id : string)
    : string :=
  match body_receiver with
  | Some r => if bool_decide (r = "") then param_id else r
  | None => param_id
  end.

(** [checkBlocked].  [receiver.blockedUsers.includes(senderId)] is asked
    with an id and compares by value; [sender.blockedUsers.includes(receiverId)]
    is asked with the string of the request. *)
Definition checkBlocked (uid : ObjectId) (body_receiver : option string)
    (param_id : string) (next : Accounts → Reply * Accounts)
    (accts : Accounts) : Reply * Accounts :=
  let receiverId := receiver_of body_receiver param_id in
  if bool_decide (receiverId = "") then next accts
  else
    match castObjectId receiverId with
    | None => (Denied 404 "INVALID_ID", accts)
    | Some receiverKey =>
      match accts !! receiverKey with
      | None => (Denied 404 "USER_NOT_FOUND", accts)
      | Some receiver =>
        if bool_decide (uid ∈ blockedUsers receiver)
        then (Denied 403 "USER_BLOCKED", accts)
        else
          match accts !! uid with
          | Some sender =>
            if includes receiverId (blockedUsers sender)
            then (Denied 403 "USER_BLOCKED", accts)
            else next accts
          | None => next accts
          end
      end
    end.

(** [exports.followUser]; [userToFollowId] is [req.params.id] as the
    request spells it.  [push] casts it to the id it spells. *)
Definition followUser (user : Account) (uid : ObjectId) (userToFollowId : string)
    (accts : Accounts) : Reply * Accounts :=
  if bool_decide (userToFollowId = toString uid)
  then (Denied 400 "CANNOT_FOLLOW_SELF", accts)
  else
    match castObjectId userToFollowId with
    | None => (Denied 404 "INVALID_ID", accts)
    | Some target =>
      match accts !! target with
      | None => (Denied 404 "USER_NOT_FOUND", accts)
      | Some userToFollow =>
        if includes userToFollowId (following user)
        then (Denied 409 "ALREADY_FOLLOWING", accts)
        else
          let accts := alter (set_following (following user ++ [target]))
                         uid accts in
          (Sent 200,
           alter (set_followers (followers userToFollow ++ [uid]))
             target accts)
      end
    end.

(** The second [save] of [unfollowUser] and [blockUser], of the document
    [findById] has loaded, with [followers] filtered.  When that document is
    the caller's own, the save of [req.user] has raised its version since it
    was loaded: a save that replaces the array is then refused with a
    [VersionError], which the error handler answers with 500, and what
    [req.user.save()] has written stays. *)
Definition save_followers (uid target : ObjectId) (loaded : Account)
    (accts : Accounts) : Reply * Accounts :=
  let kept := without (toString uid) (followers loaded) in
  if bool_decide (target = uid) && negb (bool_decide (kept = followers loaded))
  then (Denied 500 "SERVER_ERROR", accts)
  else (Sent 200, alter (set_followers kept) target accts).

(** [exports.unfollowUser] *)
Definition unfollowUser (user : Account) (uid : ObjectId)
    (userToUnfollowId : string) (accts : Accounts) : Reply * Accounts :=
  match castObjectId userToUnfollowId with
  | None => (Denied 404 "INVALID_ID", accts)
  | Some target =>
    match accts !! target with
    | None => (Denied 404 "USER_NOT_FOUND", accts)
    | Some userToUnfollow =>
      if negb (includes userToUnfollowId (following user))
      then (Denied 400 "NOT_FOLLOWING", accts)
      else
        let accts :=
          alter (set_following (without userToUnfollowId (following user)))
            uid accts in
        save_followers uid target userToUnfollow accts
    end
  end.

(** [exports.blockUser] *)
Definition blockUser (user : Account) (uid : ObjectId) (userToBlockId : string)
    (accts : Accounts) : Reply * Accounts :=
  if bool_decide (userToBlockId = toString uid)
  then (Denied 400 "CANNOT_BLOCK_SELF", accts)
  else
    match castObjectId userToBlockId with
    | None => (Denied 404 "INVALID_ID", accts)
    | Some target =>
      match accts !! target with
      | None => (Denied 404 "USER_NOT_FOUND", accts)
      | Some userToBlock =>
        if includes userToBlockId (blockedUsers user)
        then (Denied 409 "ALREADY_BLOCKED", accts)
        else
          let accts :=
            alter (λ doc, set_following (without userToBlockId (following user))
                            (set_blockedUsers (blockedUsers user ++ [target])
                               doc))
              uid accts in
          save_followers uid target userToBlock accts
      end
    end.

(** [exports.unblockUser]: no document is looked up, the string of the
    request is only compared with the ids of the block list. *)
Definition unblockUser (user : Account) (uid : ObjectId)
    (userToUnblockId : string) (accts : Accounts) : Reply * Accounts :=
  if negb (includes userToUnblockId (blockedUsers user))
  then (Denied 400 "NOT_BLOCKED", accts)
  else
    (Sent 200,
     alter (set_blockedUsers (without userToUnblockId (blockedUsers user)))
       uid accts).

(** The routes of [routes/user.routes.js] for these handlers; [id] is
    [req.params.id]. *)
Inductive UserRequest :=
  | Follow (body_receiver : option string) (id : string)
  | Unfollow (id : string)
  | Block (id : string)
  | Unblock (id : string).

Definition user_route (uid : ObjectId) (req : UserRequest) (accts : Accounts)
    : Reply * Accounts :=
  match req with
  | Follow body_receiver id =>
    protect uid
      (λ user, checkBlocked uid body_receiver id (followUser user uid id)) accts
  | Unfollow id => protect uid (λ user, unfollowUser user uid id) accts
  | Block id => protect uid (λ user, blockUser user uid id) accts
  | Unblock id => protect uid (λ user, unblockUser user uid id) accts
  end.

(** [req.params.id] *)
Definition params_id (req : UserRequest) : string :=
  match req with
  | Follow _ id | Unfollow id | Block id | Unblock id => id
  end.

(** The follow lists of the stored users agree with each other. *)
Definition consistent (accts : Accounts) : Prop :=
  ∀ u a, accts !! u = Some a →
    followerCount a = length (followers a)
    ∧ NoDup (following a) ∧ NoDup (followers a)
    ∧ (u ∉ following a)
    ∧ ∀ v b, accts !! v = Some b → (v ∈ following a ↔ u ∈ followers b).

#[export] Instance consistent_dec accts : Decision (consistent accts).
Proof.
  unfold consistent.
  change (Decision
            (map_Forall
               (λ u a,
                  followerCount a = length (followers a)
                  ∧ NoDup (following a) ∧ NoDup (followers a)
                  ∧ (u ∉ following a)
                  ∧ map_Forall (λ v b, v ∈ following a ↔ u ∈ followers b) accts)
               accts)).
  apply _.
Defined.

(** A user who follows nobody and has blocked nobody. *)
Definition newcomer : Account :=
  {| following := []; followers := []; followerCount := 0;
     blockedUsers := []; isSuspended := false |}.

(** Users 1 and 2 follow each other; user 3 is new. *)
Definition friends : Accounts :=
  {[ 1 := set_followers [2] (set_following [2] newcomer);
     2 := set_followers [1] (set_following [1] newcomer);
     3 := newcomer ]}.

(** User 10 follows user 11. *)
Definition fans : Accounts :=
  {[ 10 := set_following [11] newcomer;
     11 := set_followers [10] newcomer ]}.

(** The ids of users 10 and 11 as [toString] prints them, and as a request
    may spell them as well. *)
Definition id10 : string := "00000000000000000000000a".
Definition id11 : string := "00000000000000000000000b".
Definition ID10 : string := "00000000000000000000000A".
Definition ID11 : string := "00000000000000000000000B".

(** * Properties *)

(** ** Shape of the answers *)

Section HandlerFacts.
Context {T : Type} `{JsNumber T}.

Lemma lookup_with_challenge id c (db : DB T) :
  Challenges (with_challenge id c db) !! id = Some c.
Proof. apply lookup_insert_eq. Qed.

(** What an accepted [Transaction.create] has checked and written. *)
Lemma pay_writes t (db db' : DB T) :
  pay t db = Some db' →
  (invoiceNumber t ∉ invoiceNumber <$> Transactions db)
  ∧ db' = {| Challenges := Challenges db;
             Ratings := Ratings db;
             Users := alter (inc_earnings (amount t)) (t_user t) (Users db);
             Advertisements := Advertisements db;
             Transactions := Transactions db ++ [t] |}.
Proof.
  unfold pay. case_bool_decide as Hnew; [done|]. by intros [= <-].
Qed.

Lemma challenges_pay t (db db' : DB T) :
  pay t db = Some db' → Challenges db' = Challenges db.
Proof. by intros [_ ->]%pay_writes. Qed.

Lemma ratings_pay t (db db' : DB T) :
  pay t db = Some db' → Ratings db' = Ratings db.
Proof. by intros [_ ->]%pay_writes. Qed.

(** What a successful [endChallenge] has checked and written. *)
Lemma endChallenge_success uid id now invoices (db db' : DB T) http :
  endChallenge uid id now invoices db = (Success http, db') →
  ∃ c, Challenges db !! id = Some c
    ∧ status c = live
    ∧ (creator c = uid ∨ opponent c = Some uid)
    ∧ http = 200
    ∧ js_le (js_of_nat 0)
        (computeTotalRevenue (Advertisements db) (advertisements c)) = true
    ∧ Challenges db' !! id =
        Some (complete now
                (computeTotalRevenue (Advertisements db) (advertisements c))
                (distribution
                   (computeTotalRevenue (Advertisements db) (advertisements c))
                   (sum_scores (ratings_of id (Some (creator c)) (Ratings db)))
                   (sum_scores (ratings_of id (opponent c) (Ratings db))))
                c)
    ∧ Ratings db' = Ratings db.
Proof.
  unfold endChallenge. intros Hend.
  destruct (Challenges db !! id) as [c|] eqn:Hc; [|done].
  exists c. split; [done|].
  destruct (bool_decide (creator c = uid) || bool_decide (opponent c = Some uid))
    eqn:Hp; simpl in Hend; [|done].
  destruct (bool_decide (status c = live)) eqn:Hl; simpl in Hend; [|done].
  apply bool_decide_eq_true in Hl.
  destruct (js_le _ _) eqn:Hv; simpl in Hend; [|done].
  split; [done|]. split.
  { apply orb_true_iff in Hp as [Hp|Hp]; apply bool_decide_eq_true in Hp; auto. }
  repeat case_match; simplify_eq; repeat split;
    repeat match goal with
           | Hpay : pay _ _ = Some _ |- _ =>
             apply pay_writes in Hpay as [_ ->]
           end;
    try apply lookup_with_challenge; done.
Qed.

End HandlerFacts.

(** ** Revenue distribution *)

Section ExactRevenue.
Local Open Scope Q_scope.

(** In exact arithmetic the [totalScore > 0] test is the order of [Q]. *)
Lemma exact_positive (x : Q) : js_lt (js_of_nat 0) x = true ↔ 0 < x.
Proof.
  simpl. change (inject_Z (Z.of_nat 0)) with 0.
  rewrite negb_true_iff, <- not_true_iff_false, Qle_bool_iff. split.
  - apply Qnot_le_lt.
  - intros Hlt Hle. exact (Qlt_not_le _ _ Hlt Hle).
Qed.

Lemma exact_shares_sum (total cs os : Q) :
  rd_creator (distribution total cs os) + rd_opponent (distribution total cs os)
  + platform (distribution total cs os) == total.
Proof.
  unfold distribution, competitorRevenue, competitorsShare, platformShare,
    percentage. cbn [platform rd_creator rd_opponent].
  destruct (js_lt (js_of_nat 0) (js_add cs os)) eqn:Hpos.
  - apply exact_positive in Hpos. simpl in *.
    assert (~ cs + os == 0) by (intros E; rewrite E in Hpos; inversion Hpos).
    change (inject_Z (Z.of_nat 100)) with 100. field. done.
  - simpl. change (inject_Z (Z.of_nat 2)) with 2. field.
Qed.

Lemma exact_creator_share (total cs os : Q) :
  0 < cs + os →
  rd_creator (distribution total cs os) == (80 # 100) * total * (cs / (cs + os)).
Proof.
  intros Hpos. unfold distribution, competitorRevenue, competitorsShare,
    percentage. cbn [rd_creator].
  assert (~ cs + os == 0) by (intros E; rewrite E in Hpos; inversion Hpos).
  assert (js_lt (js_of_nat 0) (js_add cs os) = true) as ->
    by (apply exact_positive; exact Hpos).
  simpl.
  change (inject_Z (Z.of_nat 100)) with 100. field. done.
Qed.

Lemma exact_platform_share (total cs os : Q) :
  platform (distribution total cs os) == (20 # 100) * total.
Proof. unfold distribution, platformShare. simpl. ring. Qed.

End ExactRevenue.

Section RevenueFacts.
Context {T : Type} `{JsNumber T}.

(** Whatever the arithmetic: when the [totalScore > 0] test fails, both
    competitors get [competitorsShare / 2]. *)
Lemma equal_split (total cs os : T) :
  js_lt (js_of_nat 0) (js_add cs os) = false →
  rd_creator (distribution total cs os)
    = js_div (competitorsShare total) (js_of_nat 2)
  ∧ rd_opponent (distribution total cs os)
    = js_div (competitorsShare total) (js_of_nat 2).
Proof.
  intros Htest. unfold distribution, competitorRevenue. simpl.
  rewrite Htest. done.
Qed.

Lemma stored_after_end uid id now invoices (db db' : DB T) http c :
  endChallenge uid id now invoices db = (Success http, db') →
  Challenges db !! id = Some c →
  ∃ c', Challenges db' !! id = Some c'
    ∧ status c' = completed
    ∧ totalRevenue c'
      = computeTotalRevenue (Advertisements db) (advertisements c)
    ∧ revenueDistribution c'
      = distribution (totalRevenue c')
          (sum_scores (ratings_of id (Some (creator c)) (Ratings db)))
          (sum_scores (ratings_of id (opponent c) (Ratings db)))
    ∧ js_le (js_of_nat 0) (totalRevenue c') = true.
Proof.
  intros Hend Hc.
  apply endChallenge_success in Hend
    as (c0 & Hc0 & _ & _ & _ & Hvalid & Hc' & _).
  simplify_eq. eexists. split; [exact Hc'|]. done.
Qed.

End RevenueFacts.

(** C1, as amended.  A successful [endChallenge] stores shares that add up
    to the total revenue (the sum of [paidAmount] over the displayed
    advertisements, never negative) in exact arithmetic: creator + opponent +
    platform = total, where the platform share is 20% of the total and, when
    the total score is positive, the creator's share is the 80% share times
    creator score / total score.  Worked scenario: three displayed
    advertisements worth 100, 9 points for the creator and 3 for the
    opponent give 20 to the platform, 60 to the creator and 20 to the
    opponent; these three values are also what binary64 computes. *)
Theorem revenue_shares_sum_to_total :
  (∀ uid id now invoices (db db' : DB Q) http,
     endChallenge uid id now invoices db = (Success http, db') →
     ∃ c c',
       Challenges db !! id = Some c ∧ Challenges db' !! id = Some c'
       ∧ totalRevenue c'
         = computeTotalRevenue (Advertisements db) (advertisements c)
       ∧ (0 <= totalRevenue c')%Q
       ∧ (rd_creator (revenueDistribution c')
          + rd_opponent (revenueDistribution c')
          + platform (revenueDistribution c') == totalRevenue c')%Q
       ∧ (platform (revenueDistribution c') == (20 # 100) * totalRevenue c')%Q
       ∧ ∀ cs os,
           cs = sum_scores (ratings_of id (Some (creator c)) (Ratings db)) →
           os = sum_scores (ratings_of id (opponent c) (Ratings db)) →
           (0 < cs + os)%Q →
           (rd_creator (revenueDistribution c')
            == (80 # 100) * totalRevenue c' * (cs / (cs + os)))%Q)
  ∧ (∃ d,
       (endChallenge 1 7 99 drawn (db100 (T:=Q))).1 = Success 200
       ∧ Qeq (computeTotalRevenue (Advertisements db100)
                [binding 1 ad_displayed; binding 2 ad_displayed;
                 binding 3 ad_displayed]) 100
       ∧ Qeq (sum_scores (ratings_of 7 (Some 1) (Ratings (db100 (T:=Q))))) 9
       ∧ Qeq (sum_scores (ratings_of 7 (Some 2) (Ratings (db100 (T:=Q))))) 3
       ∧ stored_distribution (endChallenge 1 7 99 drawn (db100 (T:=Q))).2 = Some d
       ∧ (platform d == 20)%Q ∧ (rd_creator d == 60)%Q
       ∧ (rd_opponent d == 20)%Q)
  ∧ ((endChallenge 1 7 99 drawn (db100 (T:=float))).1 = Success 200
     ∧ stored_distribution (endChallenge 1 7 99 drawn (db100 (T:=float))).2
       = Some {| platform := 20%float; rd_creator := 60%float;
                 rd_opponent := 20%float |}).
Proof.
  split; [|split].
  - intros uid id now invoices db db' http Hend.
    destruct (endChallenge_success _ _ _ _ _ _ _ Hend) as (c & Hc & _).
    destruct (stored_after_end _ _ _ _ _ _ _ _ Hend Hc)
      as (c' & Hc' & _ & Htotal & Hdist & Hvalid).
    exists c, c'. split; [done|]. split; [done|]. split; [done|].
    split; [by apply Qle_bool_iff in Hvalid|].
    rewrite Hdist. split; [apply exact_shares_sum|].
    split; [apply exact_platform_share|].
    intros cs os -> -> Hpos. by apply exact_creator_share.
  - eexists. split; [vm_compute; reflexivity|].
    split; [vm_compute; reflexivity|].
    split; [vm_compute; reflexivity|].
    split; [vm_compute; reflexivity|].
    split; [vm_compute; reflexivity|].
    split; [|split]; vm_compute; reflexivity.
  - split; vm_compute; reflexivity.
Qed.

(** The hypothesis of the amended C1 is met by the worked scenario, and there
    the stored shares add up to the stored total. *)
Lemma revenue_shares_sum_to_total_witness :
  ∃ c', Challenges (endChallenge 1 7 99 drawn (db100 (T:=Q))).2 !! 7 = Some c'
    ∧ (rd_creator (revenueDistribution c') + rd_opponent (revenueDistribution c')
       + platform (revenueDistribution c') == totalRevenue c')%Q.
Proof.
  assert (endChallenge 1 7 99 drawn (db100 (T:=Q))
          = (Success 200, (endChallenge 1 7 99 drawn (db100 (T:=Q))).2)) as Hend
    by (vm_compute; reflexivity).
  destruct (proj1 revenue_shares_sum_to_total _ _ _ _ _ _ _ Hend)
    as (c & c' & _ & Hc' & _ & _ & Hsum & _).
  exists c'. split; [exact Hc'|exact Hsum].
Defined.

(** C1 as stated fails in the arithmetic the handler runs: in binary64 a
    revenue of 3 with no rating is split into 0.6000000000000001 for the
    platform and 1.2000000000000002 for each competitor, which add up to
    3.0000000000000004. *)
Lemma binary64_shares_miss_total :
  (endChallenge 1 7 99 drawn (db3 (T:=float))).1 = Success 200
  ∧ stored_total (endChallenge 1 7 99 drawn (db3 (T:=float))).2 = Some 3%float
  ∧ stored_distribution (endChallenge 1 7 99 drawn (db3 (T:=float))).2
    = Some {| platform := 0x1.3333333333334p-1%float;
              rd_creator := 0x1.3333333333334p+0%float;
              rd_opponent := 0x1.3333333333334p+0%float |}
  ∧ (0x1.3333333333334p+0 + 0x1.3333333333334p+0 + 0x1.3333333333334p-1
     = 0x1.8000000000001p+1)%float
  ∧ PrimFloat.eqb
      (0x1.3333333333334p+0 + 0x1.3333333333334p+0 + 0x1.3333333333334p-1)
      3 = false.
Proof. repeat split; vm_compute; reflexivity. Qed.

(** C7. When the combined score of the two competitors is zero at
    [endChallenge], the creator and the opponent each get exactly
    [competitorsShare / 2], in exact arithmetic and in binary64 alike.
    Worked scenario: a revenue of 50 and no rating give 10 to the platform
    and 20 to each competitor. *)
Theorem zero_score_splits_evenly :
  (∀ uid id now invoices (db db' : DB Q) http c,
     endChallenge uid id now invoices db = (Success http, db') →
     Challenges db !! id = Some c →
     Qeq (sum_scores (ratings_of id (Some (creator c)) (Ratings db))
          + sum_scores (ratings_of id (opponent c) (Ratings db))) 0 →
     ∃ c', Challenges db' !! id = Some c'
       ∧ rd_creator (revenueDistribution c')
         = (competitorsShare (totalRevenue c') / 2)%Q
       ∧ rd_opponent (revenueDistribution c')
         = (competitorsShare (totalRevenue c') / 2)%Q)
  ∧ (∀ uid id now invoices (db db' : DB float) http c,
       endChallenge uid id now invoices db = (Success http, db') →
       Challenges db !! id = Some c →
       (sum_scores (ratings_of id (Some (creator c)) (Ratings db))
        + sum_scores (ratings_of id (opponent c) (Ratings db)))%float = 0%float →
       ∃ c', Challenges db' !! id = Some c'
         ∧ rd_creator (revenueDistribution c')
           = (competitorsShare (totalRevenue c') / 2)%float
         ∧ rd_opponent (revenueDistribution c')
           = (competitorsShare (totalRevenue c') / 2)%float)
  ∧ (∃ d,
       (endChallenge 1 7 99 drawn (db50 (T:=Q))).1 = Success 200
       ∧ stored_distribution (endChallenge 1 7 99 drawn (db50 (T:=Q))).2 = Some d
       ∧ Qeq (platform d) 10 ∧ Qeq (rd_creator d) 20 ∧ Qeq (rd_opponent d) 20)
  ∧ ((endChallenge 1 7 99 drawn (db50 (T:=float))).1 = Success 200
     ∧ stored_distribution (endChallenge 1 7 99 drawn (db50 (T:=float))).2
       = Some {| platform := 10%float; rd_creator := 20%float;
                 rd_opponent := 20%float |}).
Proof.
  split; [|split; [|split]].
  - intros uid id now invoices db db' http c Hend Hc Hzero.
    destruct (stored_after_end _ _ _ _ _ _ _ _ Hend Hc)
      as (c' & Hc' & _ & _ & Hdist & _).
    exists c'. split; [done|]. rewrite Hdist.
    refine (equal_split (T:=Q) _ _ _ _).
    destruct (js_lt _ _) eqn:Htest; [|done].
    apply exact_positive in Htest. simpl in Htest.
    rewrite Hzero in Htest. inversion Htest.
  - intros uid id now invoices db db' http c Hend Hc Hzero.
    destruct (stored_after_end _ _ _ _ _ _ _ _ Hend Hc)
      as (c' & Hc' & _ & _ & Hdist & _).
    exists c'. split; [done|]. rewrite Hdist.
    refine (equal_split (T:=float) _ _ _ _).
    simpl. rewrite Hzero. vm_compute. reflexivity.
  - eexists. split; [vm_compute; reflexivity|].
    split; [vm_compute; reflexivity|].
    split; [|split]; vm_compute; reflexivity.
  - split; vm_compute; reflexivity.
Qed.

(** The hypotheses of C7 are met by the worked scenario, in binary64. *)
Lemma zero_score_splits_evenly_witness :
  ∃ c', Challenges (endChallenge 1 7 99 drawn (db50 (T:=float))).2 !! 7 = Some c'
    ∧ rd_creator (revenueDistribution c')
      = (competitorsShare (totalRevenue c') / 2)%float
    ∧ rd_opponent (revenueDistribution c')
      = (competitorsShare (totalRevenue c') / 2)%float.
Proof.
  apply (proj1 (proj2 zero_score_splits_evenly) 1 7 99 drawn db50 _ 200
           (duel (Some 2) live [binding 1 ad_displayed; binding 2 ad_displayed])).
  - vm_compute. reflexivity.
  - vm_compute. reflexivity.
  - vm_compute. reflexivity.
Defined.

(** ** What no handler undoes *)

Section Persistence.
Context {T : Type} `{JsNumber T}.
Variable decrypt : string -> option string.

Lemma binding_kept_refl : Reflexive binding_kept.
Proof. intros b. by left. Qed.

Lemma binding_kept_trans : Transitive binding_kept.
Proof.
  intros b1 b2 b3 [->|[Hid Hrej]] [->|[Hid' Hrej']]; unfold binding_kept; eauto.
  right. split; congruence.
Qed.

Lemma bindings_kept_refl (ads : list AdBinding) : Forall2 binding_kept ads ads.
Proof. induction ads; constructor; auto using binding_kept_refl. Qed.

Lemma bindings_kept_trans (l1 l2 l3 : list AdBinding) :
  Forall2 binding_kept l1 l2 → Forall2 binding_kept l2 l3 →
  Forall2 binding_kept l1 l3.
Proof.
  intros H12. revert l3. induction H12; intros l3 H23; inversion H23; subst;
    constructor; eauto using binding_kept_trans.
Qed.

Lemma persists_refl (c : Challenge T) : persists c c.
Proof. unfold persists. auto using bindings_kept_refl. Qed.

Lemma persists_trans (c1 c2 c3 : Challenge T) :
  persists c1 c2 → persists c2 c3 → persists c1 c3.
Proof.
  intros (?&?&?&?&?) (?&?&?&?&?). unfold persists.
  repeat split; try congruence; eauto using bindings_kept_trans.
Qed.

Lemma lookup_challenge_insert id0 c0 (db : DB T) id :
  Challenges (with_challenge id0 c0 db) !! id
  = if decide (id0 = id) then Some c0 else Challenges db !! id.
Proof. unfold with_challenge. simpl. apply lookup_insert. Qed.

(** A document found before a write is found after it, as written or as it
    was. *)
Lemma after_write id0 c0 c0' (db : DB T) id c (R : relation (Challenge T)) :
  Challenges db !! id0 = Some c0 →
  Challenges db !! id = Some c →
  R c0 c0' → R c c →
  ∃ c', Challenges (with_challenge id0 c0' db) !! id = Some c' ∧ R c c'.
Proof.
  intros H0 Hc HR Hrefl. rewrite lookup_challenge_insert.
  destruct (decide (id0 = id)) as [->|]; simplify_eq; eauto.
Qed.

Lemma step_refl (c : Challenge T) : step c c.
Proof. split; [apply persists_refl|constructor]. Qed.

Lemma cancelChallenge_step uid urole id0 (db db' : DB T) r id c :
  cancelChallenge uid urole id0 db = (r, db') →
  Challenges db !! id = Some c →
  ∃ c', Challenges db' !! id = Some c' ∧ step c c'.
Proof.
  unfold cancelChallenge. intros Hrun Hc.
  destruct (Challenges db !! id0) as [c0|] eqn:H0;
    [|simplify_eq; eauto using step_refl].
  repeat case_match; simplify_eq; eauto using step_refl.
  eapply after_write; eauto using step_refl.
  rewrite bool_decide_eq_false in *. split.
  - repeat split; simpl; auto using bindings_kept_refl. done.
  - simpl. by apply moves_cancel.
Qed.

Lemma bindings_kept_insert (ads : list AdBinding) i b b' :
  ads !! i = Some b → binding_kept b b' →
  Forall2 binding_kept ads (<[i := b']> ads).
Proof.
  intros Hi Hkept. rewrite <- (list_insert_id ads i b Hi) at 1.
  apply Forall2_insert; auto using bindings_kept_refl.
Qed.

Lemma startChallenge_step uid id0 now cc oc (db db' : DB T) r id c :
  startChallenge decrypt uid id0 now cc oc db = (r, db') →
  Challenges db !! id = Some c →
  ∃ c', Challenges db' !! id = Some c' ∧ step c c'.
Proof.
  unfold startChallenge, start_guards, start_broadcast. intros Hrun Hc.
  destruct (Challenges db !! id0) as [c0|] eqn:H0;
    [|simplify_eq; eauto using step_refl].
  repeat case_match; simplify_eq; eauto using step_refl.
  eapply after_write; eauto using step_refl.
  rewrite bool_decide_eq_false in *. split.
  - repeat split; simpl; auto using bindings_kept_refl. done.
  - simpl. by apply moves_start.
Qed.

Lemma endChallenge_step uid id0 now invoices (db db' : DB T) r id c :
  endChallenge uid id0 now invoices db = (r, db') →
  Challenges db !! id = Some c →
  ∃ c', Challenges db' !! id = Some c' ∧ step c c'.
Proof.
  unfold endChallenge. intros Hrun Hc.
  destruct (Challenges db !! id0) as [c0|] eqn:H0;
    [|simplify_eq; eauto using step_refl].
  assert (status c0 = live → step c0
            (complete now
               (computeTotalRevenue (Advertisements db) (advertisements c0))
               (distribution
                  (computeTotalRevenue (Advertisements db) (advertisements c0))
                  (sum_scores (ratings_of id0 (Some (creator c0)) (Ratings db)))
                  (sum_scores (ratings_of id0 (opponent c0) (Ratings db))))
               c0)) as Hstep.
  { intros Hlive. split.
    - repeat split; simpl; auto using bindings_kept_refl.
    - simpl. rewrite Hlive. constructor. }
  repeat case_match; simplify_eq;
    repeat match goal with
           | Hpay : pay _ _ = Some _ |- _ =>
             apply pay_writes in Hpay as [_ ->]
           end;
    cbn [Challenges]; eauto using step_refl;
    (eapply after_write; eauto using step_refl; apply Hstep;
     match goal with
     | Hl : negb (bool_decide (status _ = live)) = false |- _ =>
       apply negb_false_iff, bool_decide_eq_true in Hl; exact Hl
     end).
Qed.

Lemma rejectAdvertisement_step uid id0 ad reason now (db db' : DB T) r id c :
  rejectAdvertisement uid id0 ad reason now db = (r, db') →
  Challenges db !! id = Some c →
  ∃ c', Challenges db' !! id = Some c' ∧ step c c'.
Proof.
  unfold rejectAdvertisement. intros Hrun Hc.
  destruct (Challenges db !! id0) as [c0|] eqn:H0;
    [|simplify_eq; eauto using step_refl].
  repeat case_match; simplify_eq; eauto using step_refl.
  cbn [Challenges].
  eapply after_write; eauto using step_refl.
  match goal with
  | Hfind : list_find _ _ = Some _ |- _ =>
    apply list_find_Some in Hfind as (Hat & Hid & _)
  end.
  split.
  - repeat split; simpl; auto.
    eapply bindings_kept_insert; [done|]. right. done.
  - simpl. constructor.
Qed.

Lemma submitRating_step uid id0 competitor s now (db db' : DB T) r id c :
  submitRating uid id0 competitor s now db = (r, db') →
  Challenges db !! id = Some c →
  ∃ c', Challenges db' !! id = Some c' ∧ step c c'.
Proof.
  unfold submitRating. intros Hrun Hc.
  destruct (Challenges db !! id0) as [c0|] eqn:H0;
    [|simplify_eq; eauto using step_refl].
  repeat case_match; simplify_eq; eauto using step_refl.
  cbn [Challenges]. rewrite lookup_insert.
  destruct (decide (id0 = id)) as [->|]; simplify_eq; eauto using step_refl.
  eexists. split; [done|]. split.
  - repeat split; simpl; auto using bindings_kept_refl.
  - simpl. constructor.
Qed.

(** Every handler, seen from any challenge document. *)
Lemma handle_step req (db db' : DB T) r id c :
  handle decrypt req db = (r, db') →
  Challenges db !! id = Some c →
  ∃ c', Challenges db' !! id = Some c' ∧ step c c'.
Proof.
  destruct req; simpl;
    eauto using cancelChallenge_step, startChallenge_step, endChallenge_step,
      rejectAdvertisement_step, submitRating_step.
Qed.

(** Along any run of requests. *)
Lemma serve_persists reqs (db db' : DB T) rs id c :
  serve decrypt reqs db = (rs, db') →
  Challenges db !! id = Some c →
  ∃ c', Challenges db' !! id = Some c' ∧ persists c c'.
Proof.
  revert db rs c. induction reqs as [|req reqs IH]; intros db rs c Hrun Hc.
  - simpl in Hrun. simplify_eq. eauto using persists_refl.
  - simpl in Hrun.
    destruct (handle decrypt req db) as [r db1] eqn:Hreq.
    destruct (serve decrypt reqs db1) as [rs1 db2] eqn:Hrest.
    simplify_eq.
    destruct (handle_step _ _ _ _ _ _ Hreq Hc) as (c1 & Hc1 & Hstep1 & _).
    destruct (IH _ _ _ Hrest Hc1) as (c2 & Hc2 & Hstep2).
    eauto using persists_trans.
Qed.

End Persistence.

(** ** Which advertisements count *)

Section DisplayedAds.
Context {T : Type} `{JsNumber T}.
Variable decrypt : string -> option string.
Implicit Types (advs : gmap ObjectId (Advertisement T)) (b : AdBinding).

Lemma not_displayed_skipped advs l1 b l2 :
  ad_status b ≠ ad_displayed →
  computeTotalRevenue advs (l1 ++ b :: l2) = computeTotalRevenue advs (l1 ++ l2).
Proof.
  intros Hb. unfold computeTotalRevenue, displayedAds.
  by rewrite !filter_app, filter_cons_False.
Qed.

Lemma displayed_added advs l b :
  ad_status b = ad_displayed →
  computeTotalRevenue advs (l ++ [b])
  = js_add (computeTotalRevenue advs l) (paidAmount_of advs b).
Proof.
  intros Hb. unfold computeTotalRevenue, displayedAds.
  rewrite filter_app, filter_cons_True by done.
  by rewrite filter_nil, foldl_app.
Qed.

(** [delete i] on a list removes the element at index [i]. *)
Lemma split_at (l : list AdBinding) i b :
  l !! i = Some b → l = take i l ++ b :: drop (S i) l ∧ delete i l = take i l ++ drop (S i) l.
Proof.
  intros Hi. split.
  - by rewrite <- (take_drop_middle l i b Hi) at 1.
  - apply delete_take_drop.
Qed.

Lemma not_displayed_deleted advs (l : list AdBinding) i b :
  l !! i = Some b → ad_status b ≠ ad_displayed →
  computeTotalRevenue advs l = computeTotalRevenue advs (delete i l).
Proof.
  intros Hi Hb. destruct (split_at l i b Hi) as [Hl ->].
  rewrite Hl at 1. by apply not_displayed_skipped.
Qed.


(** Once rejected, a binding stays rejected whatever is served next. *)
Lemma rejected_stays reqs (db db' : DB T) rs id c i b :
  serve decrypt reqs db = (rs, db') →
  Challenges db !! id = Some c →
  advertisements c !! i = Some b → ad_status b = ad_rejected →
  ∃ c' b', Challenges db' !! id = Some c'
    ∧ advertisements c' !! i = Some b'
    ∧ adId b' = adId b ∧ ad_status b' = ad_rejected.
Proof.
  intros Hrun Hc Hi Hb.
  destruct (serve_persists decrypt _ _ _ _ _ _ Hrun Hc)
    as (c' & Hc' & _ & _ & _ & _ & Hads).
  destruct (Forall2_lookup_l _ _ _ _ _ Hads Hi) as (b' & Hi' & [->|[? ?]]);
    eauto 10.
Qed.

End DisplayedAds.

Section RevenueSpecFacts.
Context {T : Type} `{JsNumber T}.
Implicit Types (advs : gmap ObjectId (Advertisement T)) (b : AdBinding).





End RevenueSpecFacts.

Section CountedAds.
Context {T : Type} `{JsNumber T}.
Variable decrypt : string -> option string.


End CountedAds.



(** Of the three bindings only the displayed one is paid for; and the worked
    scenario ends with a revenue of 50 once advertisement 1 is rejected. *)
Example mixed_bindings_revenue :
  computeTotalRevenue (T:=float) mixed_advertisements mixed_bindings = 50%float
  ∧ stored_total
      (endChallenge 1 7 99 drawn (rejectAdvertisement 1 7 1 None 50 db100).2).2
    = Some 50%float.
Proof. split; vm_compute; reflexivity. Qed.

(** ** Guards of the lifecycle handlers *)

Section Guards.
Context {T : Type} `{JsNumber T}.
Variable decrypt : string -> option string.

Lemma start_without_opponent uid id now cc oc (db : DB T) c creatorDoc :
  Challenges db !! id = Some c →
  opponent c = None →
  Users db !! creator c = Some creatorDoc →
  uid = creator c →
  startChallenge decrypt uid id now cc oc db = (Failure 400 NO_OPPONENT, db).
Proof.
  intros Hc Hno Hu ->. unfold startChallenge, start_guards.
  rewrite Hc, Hu, Hno. simpl.
  rewrite bool_decide_eq_true_2 by done. done.
Qed.

Lemma start_when_live uid id now cc oc (db : DB T) c o creatorDoc opponentDoc :
  Challenges db !! id = Some c →
  status c = live →
  opponent c = Some o →
  Users db !! creator c = Some creatorDoc →
  Users db !! o = Some opponentDoc →
  uid = creator c ∨ uid = o →
  startChallenge decrypt uid id now cc oc db = (Failure 400 ALREADY_LIVE, db).
Proof.
  intros Hc Hlive Ho Hu Hou Hp. unfold startChallenge, start_guards.
  rewrite Hc, Hu, Ho. simpl. rewrite Hou. simpl.
  assert (bool_decide (creator c = uid) || bool_decide (o = uid) = true) as ->.
  { destruct Hp as [->| ->].
    - by rewrite (bool_decide_eq_true_2 (creator c = creator c)).
    - rewrite (bool_decide_eq_true_2 (o = o)) by done. apply orb_true_r. }
  simpl. by rewrite Hlive.
Qed.

(** A guard that fails answers with an error. *)
Lemma start_guards_failed uid id (db : DB T) r :
  start_guards uid id db = inl r → succeeded r = false.
Proof.
  unfold start_guards. intros Hg. repeat case_match; by simplify_eq.
Qed.

(** What the guards have checked when they let a request through. *)
Lemma start_guards_passed uid id (db : DB T) c creatorDoc opponentDoc :
  start_guards uid id db = inr (c, creatorDoc, opponentDoc) ↔
  ∃ o, Challenges db !! id = Some c
    ∧ opponent c = Some o
    ∧ Users db !! creator c = Some creatorDoc
    ∧ Users db !! o = Some opponentDoc
    ∧ (uid = creator c ∨ uid = o)
    ∧ status c ≠ live ∧ status c ≠ completed
    ∧ youtubeLinked creatorDoc = true ∧ youtubeLinked opponentDoc = true.
Proof.
  unfold start_guards. split.
  - intros Hg.
    destruct (Challenges db !! id) as [c0|] eqn:Hc; [|done].
    destruct (Users db !! creator c0) as [cu|] eqn:Hu; [|done].
    destruct (opponent c0) as [o|] eqn:Ho; simpl in Hg;
      [|by destruct (negb _)].
    destruct (Users db !! o) as [ou|] eqn:Hou; simpl in Hg;
      [|by destruct (negb _)].
    destruct (bool_decide (creator c0 = uid) || bool_decide (o = uid)) eqn:Hp;
      simpl in Hg; [|done].
    destruct (bool_decide (status c0 = live)) eqn:Hl; [done|].
    destruct (bool_decide (status c0 = completed)) eqn:Hd; [done|].
    apply bool_decide_eq_false in Hl, Hd.
    destruct (youtubeLinked cu) eqn:Hyc; [|done].
    destruct (youtubeLinked ou) eqn:Hyo; [|done].
    simpl in Hg. simplify_eq. exists o. repeat split; auto.
    apply orb_true_iff in Hp as [Hp|Hp]; apply bool_decide_eq_true in Hp; auto.
  - intros (o & Hc & Ho & Hu & Hou & Hp & Hl & Hd & Hyc & Hyo).
    rewrite Hc, Hu, Ho. simpl. rewrite Hou. simpl.
    assert (bool_decide (creator c = uid) || bool_decide (o = uid) = true) as ->.
    { destruct Hp as [->| ->].
      - by rewrite (bool_decide_eq_true_2 (creator c = creator c)).
      - rewrite (bool_decide_eq_true_2 (o = o)) by done. apply orb_true_r. }
    simpl. rewrite !bool_decide_eq_false_2 by done. by rewrite Hyc, Hyo.
Qed.

(** What a successful [startChallenge] has checked and written. *)
Lemma startChallenge_success uid id now cc oc (db db' : DB T) http :
  startChallenge decrypt uid id now cc oc db = (Success http, db') →
  ∃ c o creatorDoc opponentDoc creatorBroadcast opponentBroadcast,
    Challenges db !! id = Some c
    ∧ opponent c = Some o
    ∧ Users db !! creator c = Some creatorDoc
    ∧ Users db !! o = Some opponentDoc
    ∧ (uid = creator c ∨ uid = o)
    ∧ status c ≠ live ∧ status c ≠ completed
    ∧ cc = Some creatorBroadcast ∧ oc = Some opponentBroadcast
    ∧ db' = with_challenge id
              (go_live now creatorBroadcast opponentBroadcast c) db.
Proof.
  unfold startChallenge. intros Hrun.
  destruct (start_guards uid id db) as [r|[[c creatorDoc] opponentDoc]] eqn:Hg.
  { apply start_guards_failed in Hg. by simplify_eq. }
  apply start_guards_passed in Hg
    as (o & Hc & Ho & Hu & Hou & Hp & Hl & Hd & _ & _).
  unfold start_broadcast, open_broadcasts in Hrun. simpl in Hrun.
  destruct (decrypt (youtubeAccessToken creatorDoc)); simpl in Hrun; [|done].
  destruct (decrypt (youtubeRefreshToken creatorDoc)); simpl in Hrun; [|done].
  destruct (decrypt (youtubeAccessToken opponentDoc)); simpl in Hrun; [|done].
  destruct (decrypt (youtubeRefreshToken opponentDoc)); simpl in Hrun; [|done].
  destruct cc as [cb|]; simpl in Hrun; [|done].
  destruct oc as [ob|]; simpl in Hrun; [|done].
  simplify_eq. by exists c, o, creatorDoc, opponentDoc, cb, ob.
Qed.

Lemma end_when_not_live uid id now invoices (db : DB T) c :
  Challenges db !! id = Some c →
  status c ≠ live →
  uid = creator c ∨ opponent c = Some uid →
  endChallenge uid id now invoices db = (Failure 400 NOT_LIVE, db).
Proof.
  intros Hc Hlive Hp. unfold endChallenge. rewrite Hc.
  assert (bool_decide (creator c = uid) || bool_decide (opponent c = Some uid)
          = true) as ->.
  { destruct Hp as [->|Ho].
    - by rewrite (bool_decide_eq_true_2 (creator c = creator c)).
    - rewrite (bool_decide_eq_true_2 _ Ho). apply orb_true_r. }
  simpl. rewrite bool_decide_eq_false_2 by done. done.
Qed.

(** No [endChallenge] succeeds on a completed challenge, whatever came in
    between. *)
Lemma completed_never_ended reqs (db db' : DB T) rs id c :
  serve decrypt reqs db = (rs, db') →
  Challenges db !! id = Some c → status c = completed →
  count_ended id reqs rs = 0.
Proof.
  revert db rs c. induction reqs as [|req reqs IH]; intros db rs c Hrun Hc Hdone.
  - simpl in Hrun. by simplify_eq.
  - simpl in Hrun.
    destruct (handle decrypt req db) as [r db1] eqn:Hreq.
    destruct (serve decrypt reqs db1) as [rs1 db2] eqn:Hrest.
    simplify_eq. simpl.
    destruct (handle_step decrypt _ _ _ _ _ _ Hreq Hc)
      as (c1 & Hc1 & (_ & _ & _ & Hkeep & _) & _).
    rewrite (IH _ _ _ Hrest Hc1 (Hkeep Hdone)).
    destruct (ended id req r) eqn:Hended; [|done].
    destruct req; try done. simpl in Hended, Hreq.
    apply andb_true_iff in Hended as [Hid Hok].
    apply bool_decide_eq_true in Hid. subst.
    destruct r as [http|]; [|done].
    apply endChallenge_success in Hreq as (c0 & Hc0 & Hlive & _).
    simplify_eq. congruence.
Qed.

Lemma ended_at_most_once reqs (db db' : DB T) rs id :
  serve decrypt reqs db = (rs, db') → count_ended id reqs rs ≤ 1.
Proof.
  revert db rs. induction reqs as [|req reqs IH]; intros db rs Hrun.
  - simpl in Hrun. simplify_eq. simpl. lia.
  - simpl in Hrun.
    destruct (handle decrypt req db) as [r db1] eqn:Hreq.
    destruct (serve decrypt reqs db1) as [rs1 db2] eqn:Hrest.
    simplify_eq. simpl.
    destruct (ended id req r) eqn:Hended; [|by apply (IH _ _ Hrest)].
    destruct req; try done. simpl in Hended, Hreq.
    apply andb_true_iff in Hended as [Hid Hok].
    apply bool_decide_eq_true in Hid. subst.
    destruct r as [http|]; [|done].
    destruct (endChallenge_success _ _ _ _ _ _ _ Hreq) as (c & Hc & _).
    destruct (stored_after_end _ _ _ _ _ _ _ _ Hreq Hc) as (c' & Hc' & Hdone & _).
    by rewrite (completed_never_ended _ _ _ _ _ _ Hrest Hc' Hdone).
Qed.

End Guards.

Section LifecycleGuards.
Context {T : Type} `{JsNumber T}.
Variable decrypt : string -> option string.

(** C4, as amended.  [startChallenge] never succeeds on a challenge without
    opponent: it answers NO_OPPONENT to the creator and NOT_PARTICIPANT to
    anybody else, and writes nothing.  On a live challenge it answers
    ALREADY_LIVE to either participant, so a start served after a successful
    start fails.  [endChallenge] answers NOT_LIVE to a participant whenever
    the status is not [live], so that in any run of start, end, cancel,
    reject and rating requests served one after the other at most one
    [endChallenge] per challenge succeeds, and the revenue is computed at
    most once. *)
Theorem lifecycle_guards :
  (∀ uid id now cc oc (db : DB T) c,
     Challenges db !! id = Some c → opponent c = None →
     (∃ http code,
        startChallenge decrypt uid id now cc oc db = (Failure http code, db))
     ∧ ∀ creatorDoc,
         Users db !! creator c = Some creatorDoc →
         (uid = creator c →
          startChallenge decrypt uid id now cc oc db
          = (Failure 400 NO_OPPONENT, db))
         ∧ (uid ≠ creator c →
            startChallenge decrypt uid id now cc oc db
            = (Failure 403 NOT_PARTICIPANT, db)))
  ∧ (∀ uid id now cc oc (db : DB T) c o creatorDoc opponentDoc,
       Challenges db !! id = Some c → status c = live →
       opponent c = Some o →
       Users db !! creator c = Some creatorDoc →
       Users db !! o = Some opponentDoc →
       uid = creator c ∨ uid = o →
       startChallenge decrypt uid id now cc oc db
       = (Failure 400 ALREADY_LIVE, db))
  ∧ (∀ uid id now cc oc (db db1 : DB T) http,
       startChallenge decrypt uid id now cc oc db = (Success http, db1) →
       ∀ uid' now' cc' oc' c1,
         Challenges db1 !! id = Some c1 →
         uid' = creator c1 ∨ opponent c1 = Some uid' →
         startChallenge decrypt uid' id now' cc' oc' db1
         = (Failure 400 ALREADY_LIVE, db1))
  ∧ (∀ uid id now invoices (db : DB T) c,
       Challenges db !! id = Some c → status c ≠ live →
       uid = creator c ∨ opponent c = Some uid →
       endChallenge uid id now invoices db = (Failure 400 NOT_LIVE, db))
  ∧ (∀ reqs (db db' : DB T) rs id,
       serve decrypt reqs db = (rs, db') → count_ended id reqs rs ≤ 1).
Proof.
  repeat apply conj.
  - intros uid id now cc oc db c Hc Hno. split.
    + unfold startChallenge.
      destruct (start_guards uid id db) as [r|[[c' cu] ou]] eqn:Hg.
      * destruct r; [by apply start_guards_failed in Hg|eauto].
      * apply start_guards_passed in Hg as (o & Hc' & Ho & _).
        by simplify_eq.
    + intros creatorDoc Hu. split; intros Huid.
      * by eapply start_without_opponent.
      * unfold startChallenge, start_guards. rewrite Hc, Hu, Hno. simpl.
        by rewrite bool_decide_eq_false_2.
  - intros. by eapply start_when_live.
  - intros uid id now cc oc db db1 http Hstart uid' now' cc' oc' c1 Hc1 Hp.
    destruct (startChallenge_success _ _ _ _ _ _ _ _ _ Hstart)
      as (c & o & cu & ou & cb & ob & Hc & Ho & Hu & Hou & _ & _ & _ & _ & _ & ->).
    rewrite lookup_with_challenge in Hc1. injection Hc1 as <-.
    simpl in Hp.
    assert (uid' = creator c ∨ uid' = o) as Hp'
      by (destruct Hp as [?|Hp]; [by left|right; congruence]).
    apply (start_when_live decrypt _ _ _ _ _ _ (go_live now cb ob c) o cu ou);
      simpl; try done. apply lookup_insert_eq.
  - intros. by eapply end_when_not_live.
  - intros. by eapply ended_at_most_once.
Qed.

End LifecycleGuards.

(** C4 as stated fails twice.  A viewer who starts a challenge that has no
    opponent is told NOT_PARTICIPANT, not NO_OPPONENT.  And of two starts of
    the ready challenge 7, one by each competitor, that both pass their
    guards before either saves, both are answered 200. *)
Lemma racing_starts_both_succeed :
  startChallenge (T:=float) Some 10 7 10 (Some (studio "a")) (Some (studio "b"))
    db_open = (Failure 403 NOT_PARTICIPANT, db_open)
  ∧ (racing_starts (T:=float) Some 1 2 7 10 11
       (Some (studio "a")) (Some (studio "b"))
       (Some (studio "c")) (Some (studio "d")) db_ready).1
    = (Success 200, Success 200).
Proof. split; vm_compute; reflexivity. Qed.

(** The hypotheses of the amended C4 are met: the creator of a challenge without
    opponent gets NO_OPPONENT, a participant of a live one ALREADY_LIVE, also
    right after a successful start, and a participant of a completed one
    NOT_LIVE. *)
Lemma lifecycle_guards_witness :
  startChallenge (T:=float) Some 1 7 10 (Some (studio "a")) (Some (studio "b"))
    db_open = (Failure 400 NO_OPPONENT, db_open)
  ∧ startChallenge (T:=float) Some 2 7 10 (Some (studio "a")) (Some (studio "b"))
      db_live = (Failure 400 ALREADY_LIVE, db_live)
  ∧ (let db1 :=
       (startChallenge (T:=float) Some 1 7 10 (Some (studio "a"))
          (Some (studio "b")) db_ready).2 in
     startChallenge Some 2 7 11 (Some (studio "c")) (Some (studio "d")) db1
     = (Failure 400 ALREADY_LIVE, db1))
  ∧ endChallenge (T:=float) 1 7 10 drawn db_completed
    = (Failure 400 NOT_LIVE, db_completed).
Proof.
  pose proof (lifecycle_guards (T:=float) Some) as (Hopen & Hlive & Hagain & Hend & _).
  repeat apply conj.
  - apply (proj1 (proj2 (Hopen 1 7 10 (Some (studio "a")) (Some (studio "b"))
                           db_open (duel None pending []) eq_refl eq_refl)
                    (member user_role true) eq_refl)).
    reflexivity.
  - apply (Hlive 2 7 10 _ _ db_live (duel (Some 2) live []) 2
             (member user_role true) (member user_role true));
      try reflexivity. by right.
  - cbv zeta.
    apply (Hagain 1 7 10 (Some (studio "a")) (Some (studio "b")) db_ready _ 200
             ltac:(vm_compute; reflexivity) 2 11 _ _
             (go_live 10 (studio "a") (studio "b") (duel (Some 2) pending []))).
    + vm_compute. reflexivity.
    + right. reflexivity.
  - apply (Hend 1 7 10 drawn db_completed (duel (Some 2) completed []));
      [reflexivity|discriminate|by left].
Defined.

(** ** The lifecycle *)

Section Lifecycle.
Context {T : Type} `{JsNumber T}.
Variable decrypt : string -> option string.

Lemma cancelChallenge_success uid urole id (db db' : DB T) http :
  cancelChallenge uid urole id db = (Success http, db') →
  ∃ c, Challenges db !! id = Some c
    ∧ (uid = creator c ∨ urole = admin_role)
    ∧ status c ≠ completed
    ∧ db' = with_challenge id (set_status cancelled c) db.
Proof.
  unfold cancelChallenge. intros Hrun.
  destruct (Challenges db !! id) as [c|] eqn:Hc; [|done].
  destruct (negb (bool_decide (creator c = uid))
            && negb (bool_decide (urole = admin_role))) eqn:Hauth; [done|].
  destruct (bool_decide (status c = completed)) eqn:Hdone; [done|].
  apply bool_decide_eq_false in Hdone. simplify_eq.
  exists c. repeat split; auto.
  apply andb_false_iff in Hauth as [Hauth|Hauth];
    apply negb_false_iff, bool_decide_eq_true in Hauth; auto.
Qed.

Lemma cancel_when_completed uid urole id (db : DB T) c :
  Challenges db !! id = Some c → status c = completed →
  uid = creator c ∨ urole = admin_role →
  cancelChallenge uid urole id db = (Failure 400 CANNOT_CANCEL, db).
Proof.
  intros Hc Hdone Hauth. unfold cancelChallenge. rewrite Hc.
  assert (negb (bool_decide (creator c = uid))
          && negb (bool_decide (urole = admin_role)) = false) as ->.
  { apply andb_false_iff.
    destruct Hauth as [->| ->]; [left|right];
      by rewrite bool_decide_eq_true_2. }
  by rewrite bool_decide_eq_true_2.
Qed.

Lemma cancel_otherwise uid urole id (db : DB T) c :
  Challenges db !! id = Some c → status c ≠ completed →
  uid = creator c ∨ urole = admin_role →
  cancelChallenge uid urole id db
  = (Success 200, with_challenge id (set_status cancelled c) db).
Proof.
  intros Hc Hdone Hauth. unfold cancelChallenge. rewrite Hc.
  assert (negb (bool_decide (creator c = uid))
          && negb (bool_decide (urole = admin_role)) = false) as ->.
  { apply andb_false_iff.
    destruct Hauth as [->| ->]; [left|right];
      by rewrite bool_decide_eq_true_2. }
  by rewrite bool_decide_eq_false_2.
Qed.

(** From any status but [cancelled], a move of the handlers is an edge of
    the lifecycle graph. *)
Lemma moves_lifecycle s s' :
  moves s s' → s ≠ cancelled → s' = s ∨ lifecycle s s'.
Proof.
  intros Hmove Hs. destruct Hmove as [s|s Hl Hd| |s Hd]; auto; right.
  - destruct s; try done; constructor; auto.
  - constructor.
  - destruct s; try done; constructor; auto.
Qed.

Lemma moves_started s s' : moves s s' → started s → started s'.
Proof. unfold started. intros [] ?; auto. Qed.

Lemma serve_started reqs (db db' : DB T) rs id c :
  serve decrypt reqs db = (rs, db') →
  Challenges db !! id = Some c → started (status c) →
  ∃ c', Challenges db' !! id = Some c' ∧ started (status c').
Proof.
  revert db rs c. induction reqs as [|req reqs IH]; intros db rs c Hrun Hc Hs.
  - simpl in Hrun. simplify_eq. eauto.
  - simpl in Hrun.
    destruct (handle decrypt req db) as [r db1] eqn:Hreq.
    destruct (serve decrypt reqs db1) as [rs1 db2] eqn:Hrest.
    simplify_eq.
    destruct (handle_step decrypt _ _ _ _ _ _ Hreq Hc) as (c1 & Hc1 & _ & Hmove).
    eauto using moves_started.
Qed.

End Lifecycle.

Section LifecycleMoves.
Context {T : Type} `{JsNumber T}.
Variable decrypt : string -> option string.

(** C5, as amended.  Under the handlers the status of a challenge that is
    not cancelled stays or moves along an edge of the lifecycle graph
    (pending/scheduled → live → completed/cancelled, pending/scheduled →
    cancelled), and a challenge that has left pending and scheduled never
    returns to them.  [startChallenge] succeeds only from a status other than
    live and completed and ends in live; [endChallenge] succeeds only from
    live and ends in completed; [cancelChallenge] answers CANNOT_CANCEL
    exactly when the status is completed, and otherwise (live included)
    moves the challenge to cancelled; a completed challenge keeps its status
    through every request. *)
Theorem lifecycle_moves :
  (∀ req (db db' : DB T) r id c,
     handle decrypt req db = (r, db') →
     Challenges db !! id = Some c → status c ≠ cancelled →
     ∃ c', Challenges db' !! id = Some c'
       ∧ (status c' = status c ∨ lifecycle (status c) (status c')))
  ∧ (∀ reqs (db db' : DB T) rs id c,
       serve decrypt reqs db = (rs, db') →
       Challenges db !! id = Some c → started (status c) →
       ∃ c', Challenges db' !! id = Some c' ∧ started (status c'))
  ∧ (∀ reqs (db db' : DB T) rs id c,
       serve decrypt reqs db = (rs, db') →
       Challenges db !! id = Some c → status c = completed →
       ∃ c', Challenges db' !! id = Some c' ∧ status c' = completed)
  ∧ (∀ uid id now cc oc (db db' : DB T) http,
       startChallenge decrypt uid id now cc oc db = (Success http, db') →
       ∃ c c', Challenges db !! id = Some c ∧ Challenges db' !! id = Some c'
         ∧ status c ≠ live ∧ status c ≠ completed ∧ status c' = live)
  ∧ (∀ uid id now invoices (db db' : DB T) http,
       endChallenge uid id now invoices db = (Success http, db') →
       ∃ c c', Challenges db !! id = Some c ∧ Challenges db' !! id = Some c'
         ∧ status c = live ∧ status c' = completed)
  ∧ (∀ uid urole id (db db' : DB T) http,
       cancelChallenge uid urole id db = (Success http, db') →
       ∃ c c', Challenges db !! id = Some c ∧ Challenges db' !! id = Some c'
         ∧ status c ≠ completed ∧ status c' = cancelled)
  ∧ (∀ uid urole id (db : DB T) c,
       Challenges db !! id = Some c →
       uid = creator c ∨ urole = admin_role →
       (status c = completed →
        cancelChallenge uid urole id db = (Failure 400 CANNOT_CANCEL, db))
       ∧ (status c ≠ completed →
          cancelChallenge uid urole id db
          = (Success 200, with_challenge id (set_status cancelled c) db))).
Proof.
  repeat apply conj.
  - intros req db db' r id c Hreq Hc Hs.
    destruct (handle_step decrypt _ _ _ _ _ _ Hreq Hc) as (c' & Hc' & _ & Hmove).
    eauto using moves_lifecycle.
  - intros. by eapply serve_started.
  - intros reqs db db' rs id c Hrun Hc Hdone.
    destruct (serve_persists decrypt _ _ _ _ _ _ Hrun Hc)
      as (c' & Hc' & _ & _ & _ & Hkeep & _).
    eauto.
  - intros uid id now cc oc db db' http Hstart.
    destruct (startChallenge_success _ _ _ _ _ _ _ _ _ Hstart)
      as (c & o & cu & ou & cb & ob & Hc & _ & _ & _ & _ & Hl & Hd & _ & _ & ->).
    exists c, (go_live now cb ob c).
    repeat split; auto using lookup_with_challenge.
  - intros uid id now invoices db db' http Hend.
    destruct (endChallenge_success _ _ _ _ _ _ _ Hend) as (c & Hc & Hlive & _).
    destruct (stored_after_end _ _ _ _ _ _ _ _ Hend Hc) as (c' & Hc' & Hdone & _).
    eauto 10.
  - intros uid urole id db db' http Hcancel.
    destruct (cancelChallenge_success _ _ _ _ _ _ Hcancel)
      as (c & Hc & _ & Hd & ->).
    exists c, (set_status cancelled c).
    repeat split; auto using lookup_with_challenge.
  - intros. split; intros;
      [by eapply cancel_when_completed|by eapply cancel_otherwise].
Qed.

End LifecycleMoves.

(** C5 as stated fails: the creator cancels a live challenge, and the answer
    is a success, not CANNOT_CANCEL. *)
Lemma live_challenge_cancelled :
  cancelChallenge (T:=float) 1 user_role 7 db_live = (Success 200, db_cancelled)
  ∧ cancelChallenge (T:=float) 1 user_role 7 db_live
    ≠ (Failure 400 CANNOT_CANCEL, db_live).
Proof. split; [vm_compute; reflexivity|vm_compute; discriminate]. Qed.

(** The hypotheses of the amended C5 are met: cancelling moves a live
    challenge along the edge live → cancelled, and a completed challenge
    cannot be cancelled. *)
Lemma lifecycle_moves_witness :
  (∃ c', Challenges (cancelChallenge (T:=float) 1 user_role 7 db_live).2 !! 7
         = Some c'
     ∧ (status c' = live ∨ lifecycle live (status c')))
  ∧ cancelChallenge (T:=float) 1 user_role 7 db_completed
    = (Failure 400 CANNOT_CANCEL, db_completed).
Proof.
  pose proof (lifecycle_moves (T:=float) Some)
    as (Hedge & _ & _ & _ & _ & _ & Hcancel).
  split.
  - apply (Hedge (CancelChallenge 1 user_role 7) db_live _
             (cancelChallenge (T:=float) 1 user_role 7 db_live).1 7
             (duel (Some 2) live [])); [|reflexivity|discriminate].
    simpl. by destruct (cancelChallenge _ _ _ _).
  - apply (proj1 (Hcancel 1 user_role 7 db_completed
                    (duel (Some 2) completed []) eq_refl (or_introl eq_refl))).
    reflexivity.
Defined.

(** What the amended C5 leaves open: a cancelled challenge whose two
    competitors have linked their accounts can still be started. *)
Example cancelled_challenge_restarts :
  (startChallenge (T:=float) Some 1 7 10 (Some (studio "a")) (Some (studio "b"))
     db_cancelled).1 = Success 200
  ∧ status <$> Challenges
      (startChallenge (T:=float) Some 1 7 10 (Some (studio "a"))
         (Some (studio "b")) db_cancelled).2 !! 7
    = Some live.
Proof. split; vm_compute; reflexivity. Qed.

(** ** The streaming provider *)

Section Provider.
Context {T : Type} `{JsNumber T}.
Variable decrypt : string -> option string.

(** [startChallenge] writes nothing unless it succeeds. *)
Lemma startChallenge_failure uid id now cc oc (db db' : DB T) http code :
  startChallenge decrypt uid id now cc oc db = (Failure http code, db') →
  db' = db.
Proof.
  unfold startChallenge, start_guards, start_broadcast. intros Hrun. repeat case_match; by simplify_eq.
Qed.

Lemma start_provider_down uid id now cc oc (db : DB T) c o creatorDoc opponentDoc :
  Challenges db !! id = Some c →
  opponent c = Some o →
  Users db !! creator c = Some creatorDoc →
  Users db !! o = Some opponentDoc →
  uid = creator c ∨ uid = o →
  status c ≠ live → status c ≠ completed →
  youtubeLinked creatorDoc = true → youtubeLinked opponentDoc = true →
  cc = None ∨ oc = None →
  startChallenge decrypt uid id now cc oc db = (Failure 500 YOUTUBE_API_ERROR, db).
Proof.
  intros Hc Ho Hu Hou Hp Hl Hd Hyc Hyo Hdown. unfold startChallenge, start_guards, start_broadcast.
  rewrite Hc, Hu, Ho. simpl. rewrite Hou. simpl.
  assert (bool_decide (creator c = uid) || bool_decide (o = uid) = true) as ->.
  { destruct Hp as [->| ->].
    - by rewrite (bool_decide_eq_true_2 (creator c = creator c)).
    - rewrite (bool_decide_eq_true_2 (o = o)) by done. apply orb_true_r. }
  simpl. rewrite !bool_decide_eq_false_2 by done. rewrite Hyc, Hyo. simpl.
  assert (open_broadcasts decrypt creatorDoc opponentDoc cc oc = None) as ->;
    [|done].
  unfold open_broadcasts.
  destruct (decrypt (youtubeAccessToken creatorDoc)); [|done].
  destruct (decrypt (youtubeRefreshToken creatorDoc)); [|done].
  destruct (decrypt (youtubeAccessToken opponentDoc)); [|done].
  destruct (decrypt (youtubeRefreshToken opponentDoc)); [|done].
  simpl. destruct Hdown as [->| ->]; [done|]. by destruct cc.
Qed.

(** C6. When the provider fails for the creator or for the opponent,
    [startChallenge] never succeeds and leaves the database as it was: the
    status, [startedAt], the stream URLs, the stream keys and the broadcast
    ids of the challenge are those from before the call.  A request that has
    passed the guards is answered 500 YOUTUBE_API_ERROR. *)
Theorem provider_failure_aborts_start :
  (∀ uid id now cc oc (db : DB T),
     cc = None ∨ oc = None →
     ∃ http code,
       startChallenge decrypt uid id now cc oc db = (Failure http code, db))
  ∧ (∀ uid id now cc oc (db : DB T) c o creatorDoc opponentDoc,
       Challenges db !! id = Some c →
       opponent c = Some o →
       Users db !! creator c = Some creatorDoc →
       Users db !! o = Some opponentDoc →
       uid = creator c ∨ uid = o →
       status c ≠ live → status c ≠ completed →
       youtubeLinked creatorDoc = true → youtubeLinked opponentDoc = true →
       cc = None ∨ oc = None →
       startChallenge decrypt uid id now cc oc db
       = (Failure 500 YOUTUBE_API_ERROR, db))
  ∧ (∀ uid id now cc oc (db db' : DB T) http code,
       startChallenge decrypt uid id now cc oc db = (Failure http code, db') →
       db' = db).
Proof.
  repeat apply conj.
  - intros uid id now cc oc db Hdown.
    destruct (startChallenge decrypt uid id now cc oc db) as [[http|http code] db']
      eqn:Hrun.
    + apply startChallenge_success in Hrun
        as (?&?&?&?&?&?&_&_&_&_&_&_&_&->&->&_).
      by destruct Hdown.
    + apply startChallenge_failure in Hrun as ->. eauto.
  - intros. by eapply start_provider_down.
  - intros. by eapply startChallenge_failure.
Qed.

End Provider.

(** The hypotheses of C6 are met: challenge 7 is ready, and the provider
    fails for the creator in one run and for the opponent in the other. *)
Lemma provider_failure_aborts_start_witness :
  startChallenge (T:=float) Some 1 7 10 None (Some (studio "b")) db_ready
  = (Failure 500 YOUTUBE_API_ERROR, db_ready)
  ∧ startChallenge (T:=float) Some 2 7 10 (Some (studio "a")) None db_ready
    = (Failure 500 YOUTUBE_API_ERROR, db_ready).
Proof.
  pose proof (proj1 (proj2 (provider_failure_aborts_start (T:=float) Some)))
    as Hdown.
  split.
  - apply (Hdown 1 7 10 None _ db_ready (duel (Some 2) pending []) 2
             (member user_role true) (member user_role true));
      try reflexivity; try discriminate; by left.
  - apply (Hdown 2 7 10 _ None db_ready (duel (Some 2) pending []) 2
             (member user_role true) (member user_role true));
      try reflexivity; try discriminate; by right.
Defined.

(** ** Who may rate *)

Section Raters.
Context {T : Type} `{JsNumber T}.

(** [submitRating] looks at the rater only to find an earlier vote: on a
    live challenge any user, the two competitors included, gets a valid
    score for a competitor accepted. *)
Lemma submitRating_accepts_anyone uid id competitor s now (db : DB T) c :
  Challenges db !! id = Some c → status c = live →
  rated_is_participant competitor c = Some true →
  valid_score s = true →
  (submitRating uid id competitor s now db).1 = Success 201.
Proof.
  intros Hc Hlive Hp Hs. unfold submitRating, upsert_rating.
  rewrite Hc, Hlive, Hp, Hs. done.
Qed.

(** The revised controller turns the two competitors away before it looks
    at anything else of the request. *)
Lemma addRating_rejects_participants userId challengeId p s now
    (db : ArenaDB T) challenge :
  ArenaChallenges db !! challengeId = Some challenge →
  a_status challenge = live →
  Exists (λ q, p_user q = userId) (participants challenge) →
  addRating userId challengeId p s now db = (Failure 403 SELF_RATING, db).
Proof.
  intros Hc Hlive Hin. unfold addRating. rewrite Hc, Hlive. simpl.
  by rewrite bool_decide_eq_true_2.
Qed.

End Raters.

(** C8 fails on [submitRating]: the creator of the live challenge 7 rates
    the opponent, then himself; both calls are answered 201, a record is
    created for each and the counters of the challenge move. *)
Theorem participant_rating_accepted :
  submitRating (T:=float) 1 7 2 5%float 60 db_live
  = (Success 201,
     arena (set_rating_stats []
              [ {| r_challenge := 7; rater := 1; competitorRated := 2;
                   score := 5%float; timestamp := 60 |} ]
              (duel (Some 2) live []))
       [ {| r_challenge := 7; rater := 1; competitorRated := 2;
            score := 5%float; timestamp := 60 |} ] ∅)
  ∧ (submitRating (T:=float) 1 7 1 5%float 61 db_live).1 = Success 201
  ∧ Ratings (submitRating (T:=float) 1 7 1 5%float 61 db_live).2
    = [ {| r_challenge := 7; rater := 1; competitorRated := 1;
           score := 5%float; timestamp := 61 |} ]
  ∧ (λ c, (creatorRatingSum c, creatorRatingCount c, totalRatings c))
      <$> Challenges (submitRating (T:=float) 1 7 1 5%float 61 db_live).2 !! 7
    = Some (5%float, 1, 1).
Proof. repeat split; vm_compute; reflexivity. Qed.

(** ** Ratings *)

Section ListFacts.
Context {A : Type} (P : A → Prop) `{!∀ x, Decision (P x)}.

(** Replacing an element outside a filter by another one outside it. *)
Lemma filter_insert_out (l : list A) i x y :
  l !! i = Some x → ¬ P x → ¬ P y → filter P (<[i := y]> l) = filter P l.
Proof.
  revert i. induction l as [|a l IH]; intros [|i] Hi Hx Hy; simplify_eq/=.
  - by rewrite !filter_cons_False.
  - rewrite !filter_cons. by rewrite (IH i).
Qed.

(** Replacing an element inside a filter by another one inside it. *)
Lemma filter_insert_in (l : list A) i x y :
  l !! i = Some x → P x → P y →
  ∃ j, filter P l !! j = Some x
    ∧ filter P (<[i := y]> l) = <[j := y]> (filter P l).
Proof.
  revert i. induction l as [|a l IH]; intros [|i] Hi Hx Hy; simplify_eq/=.
  - exists 0. by rewrite !filter_cons_True.
  - destruct (IH i Hi Hx Hy) as (j & Hj & Heq).
    rewrite !filter_cons. destruct (decide (P a)).
    + exists (S j). simpl. by rewrite Heq.
    + exists j. by rewrite Heq.
Qed.

Lemma omap_fmap_Some {B C} (f : B → option C) (g : A → B) (h : A → C)
    (l : list A) :
  (∀ x, x ∈ l → f (g x) = Some (h x)) → omap f (g <$> l) = h <$> l.
Proof.
  induction l as [|a l IH]; intros Hl; csimpl; [done|].
  rewrite (Hl a) by left. csimpl. f_equal. apply IH.
  intros x Hx. apply Hl. by right.
Qed.

End ListFacts.

Section DistinctFacts.

Lemma distinct_snoc (l : list ObjectId) x :
  distinct (l ++ [x])
  = if bool_decide (x ∈ distinct l) then distinct l else distinct l ++ [x].
Proof. unfold distinct. by rewrite foldl_app. Qed.

Lemma distinct_NoDup (l : list ObjectId) : NoDup (distinct l).
Proof.
  induction l as [|x l IH] using rev_ind; [constructor|].
  rewrite distinct_snoc. case_bool_decide as Hin; [done|].
  apply NoDup_app. split; [done|]. split; [|apply NoDup_singleton].
  intros y Hy ->%list_elem_of_singleton. done.
Qed.

End DistinctFacts.

Section RatingFacts.
Context {T : Type} `{JsNumber T}.
Implicit Types (rs : list (Rating T)) (r : Rating T) (db : DB T).

(** What a successful [submitRating] has checked and written. *)
Lemma submitRating_success uid id p s now db db' http :
  submitRating uid id p s now db = (Success http, db') →
  ∃ c rs,
    Challenges db !! id = Some c
    ∧ status c = live
    ∧ rated_is_participant p c = Some true
    ∧ upsert_rating id uid p s now (Ratings db) = Some rs
    ∧ Ratings db' = rs
    ∧ Challenges db'
      = <[id := set_rating_stats (ratings_of id (Some (creator c)) rs)
                  (ratings_of id (opponent c) rs) c]> (Challenges db).
Proof.
  unfold submitRating. intros Hrun.
  destruct (Challenges db !! id) as [c|] eqn:Hc; [|done].
  destruct (bool_decide (status c = live)) eqn:Hlive; [|done].
  apply bool_decide_eq_true in Hlive. simpl in Hrun.
  destruct (rated_is_participant p c) as [[|]|] eqn:Hp; try done.
  destruct (upsert_rating id uid p s now (Ratings db)) as [rs|] eqn:Hup;
    [|done].
  simplify_eq. by exists c, rs.
Qed.

(** The two ways of [upsert_rating]. *)
Lemma upsert_cases id uid p s now rs rs' :
  upsert_rating id uid p s now rs = Some rs' →
  (∃ i r, list_find (same_vote id uid p) rs = Some (i, r)
     ∧ rs !! i = Some r ∧ same_vote id uid p r
     ∧ rs' = <[i := rescore s now r]> rs)
  ∨ (list_find (same_vote id uid p) rs = None
     ∧ (∀ r, r ∈ rs → ¬ same_vote id uid p r)
     ∧ rs' = rs ++ [new_rating id uid p s now]).
Proof.
  unfold upsert_rating. intros Hup.
  destruct (valid_score s); [|done].
  destruct (list_find (same_vote id uid p) rs) as [[i r]|] eqn:Hfind;
    simplify_eq.
  - left. apply list_find_Some in Hfind as (Hi & Hr & _). by exists i, r.
  - right. split; [done|]. split; [|done].
    apply list_find_None in Hfind. by apply Forall_forall.
Qed.

(** A vote leaves alone whatever is filtered on another challenge or on
    another competitor. *)
Lemma upsert_frame (P : Rating T → Prop) `{!∀ r, Decision (P r)}
    id uid p s now rs rs' :
  (∀ r, r_challenge r = id → competitorRated r = p → ¬ P r) →
  upsert_rating id uid p s now rs = Some rs' →
  filter P rs' = filter P rs.
Proof.
  intros Hout Hup.
  destruct (upsert_cases _ _ _ _ _ _ _ Hup)
    as [(i & r & _ & Hi & (Hid & _ & Hp) & ->)|(_ & _ & ->)].
  - eapply filter_insert_out; eauto.
  - rewrite filter_app, filter_cons_False, filter_nil, app_nil_r; [done|].
    by apply Hout.
Qed.

(** The records of competitor [p] in challenge [id], after a vote for [p]. *)
Lemma upsert_records id uid p s now rs rs' :
  upsert_rating id uid p s now rs = Some rs' →
  (∃ j r, ratings_of id (Some p) rs !! j = Some r ∧ rater r = uid
     ∧ ratings_of id (Some p) rs'
       = <[j := rescore s now r]> (ratings_of id (Some p) rs))
  ∨ ((uid ∉ rater <$> ratings_of id (Some p) rs)
     ∧ ratings_of id (Some p) rs'
       = ratings_of id (Some p) rs ++ [new_rating id uid p s now]).
Proof.
  intros Hup.
  destruct (upsert_cases _ _ _ _ _ _ _ Hup)
    as [(i & r & _ & Hi & (Hid & Hu & Hp) & ->)|(_ & Hnone & ->)].
  - left. unfold ratings_of.
    destruct (filter_insert_in
                (λ r, r_challenge r = id ∧ Some (competitorRated r) = Some p)
                rs i r (rescore s now r) Hi) as (j & Hj & Heq).
    + split; [done|by rewrite Hp].
    + simpl. split; [done|by rewrite Hp].
    + by exists j, r.
  - right. split.
    + intros (r & Hu & Hr)%list_elem_of_fmap.
      apply list_elem_of_filter in Hr as [[Hid Hp] Hr].
      apply (Hnone r Hr). repeat split; [done..|congruence].
    + unfold ratings_of. by rewrite filter_app, filter_cons_True.
Qed.

End RatingFacts.

Section Counters.
Context {T : Type} `{JsNumber T}.

Lemma ratings_of_records id p (rs : list (Rating T)) :
  length (ratings_of id (Some p) rs) = rating_records id p rs.
Proof.
  unfold ratings_of. induction rs as [|r rs IH]; [done|].
  rewrite filter_cons. cbn [rating_records].
  destruct (decide (r_challenge r = id ∧ Some (competitorRated r) = Some p))
    as [[Hid Hp]|Hout].
  - rewrite !bool_decide_eq_true_2 by congruence. cbn. by rewrite IH.
  - destruct (bool_decide_reflect (r_challenge r = id)) as [Hid|?]; [|done].
    rewrite bool_decide_eq_false_2; [done|].
    intros Hp. apply Hout. by rewrite Hp.
Qed.

Lemma ratings_of_points id p (rs : list (Rating T)) :
  sum_scores (ratings_of id (Some p) rs)
  = rating_points id p (js_of_nat 0) rs.
Proof.
  unfold sum_scores, ratings_of. generalize (js_of_nat 0).
  induction rs as [|r rs IH]; intros sum; [done|].
  rewrite filter_cons. cbn [rating_points].
  destruct (decide (r_challenge r = id ∧ Some (competitorRated r) = Some p))
    as [[Hid Hp]|Hout].
  - rewrite !bool_decide_eq_true_2 by congruence. cbn. apply IH.
  - destruct (bool_decide_reflect (r_challenge r = id)) as [Hid|?];
      [|apply IH].
    rewrite bool_decide_eq_false_2; [apply IH|].
    intros Hp. apply Hout. by rewrite Hp.
Qed.

Lemma ratings_of_nobody id (rs : list (Rating T)) : ratings_of id None rs = [].
Proof.
  unfold ratings_of. induction rs as [|r rs IH]; [done|].
  rewrite filter_cons_False; [done|]. by intros [_ ?].
Qed.

(** C10.  After every successful [submitRating] the challenge's
    [totalRatings] is [creatorRatingCount + opponentRatingCount], and each of
    these two counts is the number of records of the collection that are of
    that challenge and rate that competitor, counted record by record (for a
    challenge without opponent the second count is 0).  The two stored sums
    are the scores of the same records, added in the order of the
    collection. *)
Theorem counters_follow_collection uid id p s now (db db' : DB T) http :
  submitRating uid id p s now db = (Success http, db') →
  ∃ c', Challenges db' !! id = Some c'
    ∧ totalRatings c' = creatorRatingCount c' + opponentRatingCount c'
    ∧ creatorRatingCount c' = rating_records id (creator c') (Ratings db')
    ∧ opponentRatingCount c'
      = match opponent c' with
        | Some o => rating_records id o (Ratings db')
        | None => 0
        end
    ∧ creatorRatingSum c'
      = rating_points id (creator c') (js_of_nat 0) (Ratings db')
    ∧ opponentRatingSum c'
      = match opponent c' with
        | Some o => rating_points id o (js_of_nat 0) (Ratings db')
        | None => js_of_nat 0
        end.
Proof.
  intros Hrun.
  destruct (submitRating_success _ _ _ _ _ _ _ _ Hrun)
    as (c & rs & Hc & _ & _ & _ & Hrs & Hcs).
  rewrite Hcs, Hrs. eexists. split; [apply lookup_insert_eq|].
  cbn [totalRatings creatorRatingCount opponentRatingCount creatorRatingSum
       opponentRatingSum creator opponent set_rating_stats].
  split; [done|].
  split; [apply ratings_of_records|].
  split; [destruct (opponent c);
          [apply ratings_of_records|by rewrite ratings_of_nobody]|].
  split; [apply ratings_of_points|].
  destruct (opponent c); [apply ratings_of_points|by rewrite ratings_of_nobody].
Qed.

End Counters.

(** The hypothesis of C10 is met: a viewer rates the creator of the worked
    scenario, which makes three records for the creator and one for the
    opponent. *)
Lemma counters_follow_collection_witness :
  ∃ c', Challenges (submitRating (T:=float) 12 7 1 3%float 70 db100).2 !! 7
        = Some c'
    ∧ totalRatings c' = creatorRatingCount c' + opponentRatingCount c'
    ∧ creatorRatingCount c'
      = rating_records 7 (creator c')
          (Ratings (submitRating (T:=float) 12 7 1 3%float 70 db100).2)
    ∧ opponentRatingCount c'
      = match opponent c' with
        | Some o =>
          rating_records 7 o
            (Ratings (submitRating (T:=float) 12 7 1 3%float 70 db100).2)
        | None => 0
        end
    ∧ creatorRatingSum c'
      = rating_points 7 (creator c') (js_of_nat 0)
          (Ratings (submitRating (T:=float) 12 7 1 3%float 70 db100).2)
    ∧ opponentRatingSum c'
      = match opponent c' with
        | Some o =>
          rating_points 7 o (js_of_nat 0)
            (Ratings (submitRating (T:=float) 12 7 1 3%float 70 db100).2)
        | None => js_of_nat 0
        end.
Proof.
  apply (counters_follow_collection 12 7 1 3%float 70 db100 _ 201).
  vm_compute. reflexivity.
Defined.

(** Records of another challenge and of another competitor are not counted:
    of five records two are of challenge 7 and rate user 1. *)
Example rating_records_by_challenge_and_competitor :
  rating_records (T:=float) 7 1
    [new_rating 7 10 1 5%float 1; new_rating 8 10 1 5%float 2;
     new_rating 7 10 2 4%float 3; new_rating 7 11 1 3%float 4;
     new_rating 8 11 2 2%float 5] = 2
  ∧ rating_points (T:=float) 7 1 0%float
      [new_rating 7 10 1 5%float 1; new_rating 8 10 1 5%float 2;
       new_rating 7 10 2 4%float 3; new_rating 7 11 1 3%float 4;
       new_rating 8 11 2 2%float 5] = 8%float.
Proof. split; vm_compute; reflexivity. Qed.

Example counters_after_vote :
  (λ c, (creatorRatingCount c, opponentRatingCount c, totalRatings c,
         creatorRatingSum c, opponentRatingSum c))
    <$> Challenges (submitRating (T:=float) 12 7 1 3%float 70 db100).2 !! 7
  = Some (3, 1, 4, 12%float, 3%float).
Proof. vm_compute. reflexivity. Qed.

Section SessionFacts.
Context {T : Type} `{JsNumber T}.
Implicit Types (votes : list (Vote T)) (v : Vote T) (db : DB T)
  (rs : list (Rating T)).

Lemma votes_for_snoc_in id p votes v :
  v_challenge v = id → v_competitor v = p →
  votes_for id p (votes ++ [v]) = votes_for id p votes ++ [v].
Proof.
  intros Hid Hp. unfold votes_for. by rewrite filter_app, filter_cons_True.
Qed.

Lemma votes_for_snoc_out id p votes v :
  ¬ (v_challenge v = id ∧ v_competitor v = p) →
  votes_for id p (votes ++ [v]) = votes_for id p votes.
Proof.
  intros Hout. unfold votes_for.
  by rewrite filter_app, filter_cons_False, filter_nil, app_nil_r.
Qed.

Lemma raters_of_snoc id p votes v :
  v_challenge v = id → v_competitor v = p →
  raters_of id p (votes ++ [v])
  = if bool_decide (v_rater v ∈ raters_of id p votes)
    then raters_of id p votes else raters_of id p votes ++ [v_rater v].
Proof.
  intros Hid Hp. unfold raters_of.
  rewrite votes_for_snoc_in, fmap_app by done. apply distinct_snoc.
Qed.

Lemma latest_score_snoc_same id p votes v :
  v_challenge v = id → v_competitor v = p →
  latest_score id p (v_rater v) (votes ++ [v]) = Some (v_score v).
Proof.
  intros Hid Hp. unfold latest_score.
  rewrite votes_for_snoc_in, filter_app, filter_cons_True by done.
  rewrite filter_nil, fmap_app. apply last_snoc.
Qed.

Lemma latest_score_snoc_other id p u votes v :
  u ≠ v_rater v →
  latest_score id p u (votes ++ [v]) = latest_score id p u votes.
Proof.
  intros Hu. unfold latest_score.
  destruct (decide (v_challenge v = id ∧ v_competitor v = p)) as [[Hid Hp]|Hout].
  - rewrite votes_for_snoc_in, filter_app, filter_cons_False by done.
    by rewrite filter_nil, app_nil_r.
  - by rewrite votes_for_snoc_out.
Qed.

Lemma ratings_of_none id p rs :
  (∀ r, r ∈ rs → r_challenge r ≠ id) → ratings_of id p rs = [].
Proof.
  intros Hnone. unfold ratings_of. induction rs as [|r rs IH]; [done|].
  rewrite filter_cons_False.
  - apply IH. intros r' Hr'. apply Hnone. by right.
  - intros [Hid _]. by apply (Hnone r); [left|].
Qed.

Lemma tallied_nil id p rs :
  (∀ r, r ∈ rs → r_challenge r ≠ id) → tallied id p [] rs.
Proof.
  intros Hnone. unfold tallied. rewrite (ratings_of_none id (Some p) rs Hnone).
  split; [done|]. intros r Hr. by apply elem_of_nil in Hr.
Qed.

(** One accepted vote keeps the records in step with the votes. *)
Lemma tallied_vote id p votes v rs rs' :
  tallied id p votes rs →
  upsert_rating (v_challenge v) (v_rater v) (v_competitor v) (v_score v)
    (v_time v) rs = Some rs' →
  tallied id p (votes ++ [v]) rs'.
Proof.
  intros [Hraters Hlatest] Hup. unfold tallied.
  destruct (decide (v_challenge v = id ∧ v_competitor v = p)) as [[Hid Hp]|Hout].
  - subst id p. destruct (upsert_records _ _ _ _ _ _ _ Hup)
      as [(j & r & Hj & Hu & ->)|(Hnew & ->)].
    + assert ((rater <$> ratings_of (v_challenge v) (Some (v_competitor v)) rs)
              !! j = Some (v_rater v)) as Hju
        by (by rewrite list_lookup_fmap, Hj, <- Hu).
      split.
      * rewrite list_fmap_insert. simpl. rewrite Hu.
        rewrite list_insert_id by done.
        rewrite raters_of_snoc by done.
        rewrite bool_decide_eq_true_2; [done|].
        rewrite <- Hraters. by eapply list_elem_of_lookup_2.
      * intros r' (k & Hk)%list_elem_of_lookup.
        apply list_lookup_insert_Some in Hk as [(-> & <- & _)|(Hkj & Hk)].
        -- simpl. rewrite Hu. by apply latest_score_snoc_same.
        -- rewrite latest_score_snoc_other.
           ++ apply Hlatest. by eapply list_elem_of_lookup_2.
           ++ intros Heq. apply Hkj.
              apply (NoDup_lookup
                       (rater <$> ratings_of (v_challenge v)
                                    (Some (v_competitor v)) rs)
                       j k (v_rater v)).
              ** rewrite Hraters. apply distinct_NoDup.
              ** exact Hju.
              ** rewrite list_lookup_fmap, Hk. simpl. by rewrite Heq.
    + split.
      * rewrite fmap_app, raters_of_snoc by done.
        rewrite bool_decide_eq_false_2 by (by rewrite <- Hraters).
        by rewrite Hraters.
      * intros r' [Hr'|Hr']%elem_of_app.
        -- rewrite latest_score_snoc_other; [by apply Hlatest|].
           intros Heq. apply Hnew. rewrite <- Heq.
           by apply list_elem_of_fmap_2.
        -- apply list_elem_of_singleton in Hr' as ->. simpl.
           by apply latest_score_snoc_same.
  - assert (ratings_of id (Some p) rs' = ratings_of id (Some p) rs) as ->.
    { unfold ratings_of. eapply upsert_frame; [|exact Hup].
      intros r Hid Hp [Hid' Hp']. apply Hout. split; congruence. }
    unfold raters_of, latest_score. by rewrite votes_for_snoc_out.
Qed.

End SessionFacts.

Section SessionRuns.
Context {T : Type} `{JsNumber T}.
Implicit Types (votes : list (Vote T)) (v : Vote T) (db : DB T)
  (rs : list (Rating T)).

Lemma cast_upsert v db db' http :
  cast v db = (Success http, db') →
  upsert_rating (v_challenge v) (v_rater v) (v_competitor v) (v_score v)
    (v_time v) (Ratings db) = Some (Ratings db').
Proof.
  intros Hcast. apply submitRating_success in Hcast
    as (c & rs & _ & _ & _ & Hup & -> & _). done.
Qed.

Lemma session_tallied db0 votes db id :
  session db0 votes db →
  (∀ r, r ∈ Ratings db0 → r_challenge r ≠ id) →
  ∀ p, tallied id p votes (Ratings db).
Proof.
  induction 1 as [db|db votes db1 v db2 _ IH Hcast]; intros Hnone p.
  - by apply tallied_nil.
  - eapply tallied_vote; [by apply IH|]. by eapply cast_upsert.
Qed.

Lemma filter_insert_length {A} (P : A → Prop) `{!∀ x, Decision (P x)}
    (l : list A) i x y :
  l !! i = Some x → (P x ↔ P y) →
  length (filter P (<[i := y]> l)) = length (filter P l).
Proof.
  intros Hi Hxy. destruct (decide (P x)) as [Hx|Hx].
  - destruct (filter_insert_in P l i x y Hi Hx (proj1 Hxy Hx)) as (j & _ & ->).
    apply length_insert.
  - rewrite (filter_insert_out P l i x y); tauto.
Qed.

Lemma ratings_of_other id' uid p s now rs rs' id q :
  upsert_rating id' uid p s now rs = Some rs' → id' ≠ id →
  ratings_of id q rs' = ratings_of id q rs.
Proof.
  intros Hup Hother. unfold ratings_of. eapply upsert_frame; [|exact Hup].
  intros r Hid _ [Hid' _]. congruence.
Qed.

(** The counters of a challenge agree with the collection after every
    accepted vote, whichever challenge the vote was for. *)
Lemma stats_after_cast v db db' http id c :
  cast v db = (Success http, db') →
  Challenges db !! id = Some c →
  stats_consistent id c (Ratings db) →
  ∃ c', Challenges db' !! id = Some c'
    ∧ creator c' = creator c ∧ opponent c' = opponent c
    ∧ stats_consistent id c' (Ratings db').
Proof.
  intros Hcast Hc Hstats.
  pose proof (cast_upsert _ _ _ _ Hcast) as Hup.
  apply submitRating_success in Hcast
    as (c0 & rs & Hc0 & _ & _ & _ & Hrs & Hcs).
  rewrite Hcs. rewrite lookup_insert.
  destruct (decide (v_challenge v = id)) as [<-|Hother].
  - simplify_eq. eexists. split; [done|]. unfold stats_consistent. by simpl.
  - exists c. split; [done|]. split; [done|]. split; [done|].
    unfold stats_consistent in *.
    by rewrite !(ratings_of_other _ _ _ _ _ _ _ _ _ Hup Hother).
Qed.

Lemma session_stats db0 votes db id c0 :
  session db0 votes db →
  Challenges db0 !! id = Some c0 →
  stats_consistent id c0 (Ratings db0) →
  ∃ c, Challenges db !! id = Some c
    ∧ creator c = creator c0 ∧ opponent c = opponent c0
    ∧ stats_consistent id c (Ratings db).
Proof.
  induction 1 as [db|db votes db1 v db2 _ IH Hcast]; intros Hc0 Hstats.
  - by exists c0.
  - destruct (IH Hc0 Hstats) as (c1 & Hc1 & Hcr & Hop & Hstats1).
    destruct (stats_after_cast _ _ _ _ _ _ Hcast Hc1 Hstats1)
      as (c2 & Hc2 & Hcr2 & Hop2 & Hstats2).
    exists c2. split; [done|]. split; [congruence|]. split; [congruence|done].
Qed.

Lemma unrated_consistent id db c :
  unrated id db → Challenges db !! id = Some c →
  stats_consistent id c (Ratings db).
Proof.
  intros [Hnone Hzero] Hc. destruct (Hzero c Hc) as (?&?&?&?&?).
  unfold stats_consistent.
  rewrite !(ratings_of_none id _ (Ratings db) Hnone). simpl.
  repeat split; try done. lia.
Qed.

(** The unique index survives every accepted vote. *)
Lemma unique_after_cast v db db' http :
  cast v db = (Success http, db') →
  unique_votes (Ratings db) → unique_votes (Ratings db').
Proof.
  intros Hcast Huniq. apply cast_upsert in Hcast.
  destruct (upsert_cases _ _ _ _ _ _ _ Hcast)
    as [(i & r & _ & Hi & (Hid & Hu & Hp) & ->)|(_ & Hnone & ->)];
    unfold unique_votes in *.
  - rewrite list_fmap_insert. rewrite list_insert_id; [done|].
    by rewrite list_lookup_fmap, Hi.
  - rewrite fmap_app. apply NoDup_app. split; [done|].
    split; [|apply NoDup_singleton].
    intros k (r & -> & Hr)%list_elem_of_fmap Hk%list_elem_of_singleton.
    apply (Hnone r Hr). unfold vote_key in Hk. simpl in Hk.
    by simplify_eq.
Qed.

Lemma session_unique db0 votes db :
  session db0 votes db →
  unique_votes (Ratings db0) → unique_votes (Ratings db).
Proof. induction 1; eauto using unique_after_cast. Qed.

(** The sum and the count of the records, read off the votes. *)
Lemma tallied_sum id p votes rs :
  tallied id p votes rs →
  sum_scores (ratings_of id (Some p) rs) = sum_latest id p votes
  ∧ length (ratings_of id (Some p) rs) = length (raters_of id p votes).
Proof.
  intros [Hraters Hlatest]. split.
  - unfold sum_latest, sum_scores. rewrite <- Hraters.
    rewrite (omap_fmap_Some _ rater score) by done.
    by rewrite foldl_fmap.
  - by rewrite <- Hraters, length_fmap.
Qed.

Lemma session_cons v db db1 votes db2 :
  cast v db = (Success 201, db1) → session db1 votes db2 →
  session db (v :: votes) db2.
Proof.
  intros Hcast Hrest. induction Hrest as [db1|db1 votes db2 v' db3 _ IH Hcast'].
  - apply (session_snoc db [] db v db1); [constructor|done].
  - apply (session_snoc db (v :: votes) db2 v' db3); auto.
Qed.

Lemma session_of_run votes db :
  all_accepted votes db = true → session db votes (after votes db).
Proof.
  revert db. induction votes as [|v votes IH]; intros db Hall; simpl.
  - constructor.
  - simpl in Hall. destruct (cast v db) as [[http|] db1] eqn:Hcast; [|done].
    apply andb_true_iff in Hall as [Hhttp Hall].
    apply Nat.eqb_eq in Hhttp as ->.
    apply (session_cons v db db1); [done|]. unfold after in IH. by apply IH.
Qed.

End SessionRuns.

Section LatestVotes.
Context {T : Type} `{JsNumber T}.

(** C2. After any run of accepted [submitRating] calls that starts on a
    challenge nobody has rated yet, the rating sum of each competitor is the
    sum, over the distinct raters, of the latest score each gave to that
    competitor, and the rating count is the number of these raters; the
    collection holds at most one record per (challenge, rater, competitor).
    A call by a rater who has already rated the competitor overwrites that
    record where it stands: the collection keeps its length and the counts of
    the challenge stay what they were. *)
Theorem latest_votes_are_counted :
  (∀ (db0 db : DB T) votes id c0,
     session db0 votes db →
     unrated id db0 → unique_votes (Ratings db0) →
     Challenges db0 !! id = Some c0 →
     ∃ c, Challenges db !! id = Some c
       ∧ creator c = creator c0 ∧ opponent c = opponent c0
       ∧ creatorRatingSum c = sum_latest id (creator c) votes
       ∧ creatorRatingCount c = length (raters_of id (creator c) votes)
       ∧ (∀ o, opponent c = Some o →
            opponentRatingSum c = sum_latest id o votes
            ∧ opponentRatingCount c = length (raters_of id o votes))
       ∧ unique_votes (Ratings db))
  ∧ (∀ v (db db' : DB T) http i r c,
       cast v db = (Success http, db') →
       list_find (same_vote (v_challenge v) (v_rater v) (v_competitor v))
         (Ratings db) = Some (i, r) →
       Challenges db !! v_challenge v = Some c →
       stats_consistent (v_challenge v) c (Ratings db) →
       Ratings db' = <[i := rescore (v_score v) (v_time v) r]> (Ratings db)
       ∧ length (Ratings db') = length (Ratings db)
       ∧ ∃ c', Challenges db' !! v_challenge v = Some c'
           ∧ creatorRatingCount c' = creatorRatingCount c
           ∧ opponentRatingCount c' = opponentRatingCount c
           ∧ totalRatings c' = totalRatings c).
Proof.
  split.
  - intros db0 db votes id c0 Hrun Hfresh Huniq Hc0.
    destruct (session_stats _ _ _ _ _ Hrun Hc0 (unrated_consistent _ _ _ Hfresh Hc0))
      as (c & Hc & Hcr & Hop & Hsc & Hcc & Hso & Hco & _).
    pose proof (session_tallied _ _ _ id Hrun (proj1 Hfresh)) as Htally.
    exists c. split; [done|]. split; [done|]. split; [done|].
    destruct (tallied_sum _ _ _ _ (Htally (creator c))) as [Hsum Hlen].
    split; [congruence|]. split; [congruence|]. split.
    + intros o Ho. rewrite Ho in Hso, Hco.
      destruct (tallied_sum _ _ _ _ (Htally o)) as [Hsum' Hlen'].
      split; congruence.
    + by eapply session_unique.
  - intros v db db' http i r c Hcast Hfind Hc (_ & Hcc & _ & Hco & Htotal).
    pose proof (cast_upsert _ _ _ _ Hcast) as Hup.
    unfold upsert_rating in Hup. rewrite Hfind in Hup.
    destruct (valid_score (v_score v)); [|done]. injection Hup as Hrs.
    apply list_find_Some in Hfind as (Hi & _ & _).
    split; [done|]. split; [by rewrite <- Hrs, length_insert|].
    apply submitRating_success in Hcast
      as (c1 & rs & Hc1 & _ & _ & _ & Hrs' & ->).
    simplify_eq. eexists. split; [apply lookup_insert_eq|]. simpl.
    unfold ratings_of. rewrite <- Hrs.
    rewrite !(filter_insert_length _ _ i r) by done.
    unfold ratings_of in Hcc, Hco. lia.
Qed.

End LatestVotes.

(** The hypotheses of C2 are met by [four_votes] on the live challenge 7:
    the creator ends with the latest scores of viewers 10 and 11 and the
    opponent with that of viewer 10. *)
Lemma latest_votes_are_counted_witness :
  ∃ c, Challenges (after (T:=float) four_votes db_live) !! 7 = Some c
    ∧ creatorRatingSum c = sum_latest 7 1 four_votes
    ∧ creatorRatingCount c = length (raters_of 7 1 (four_votes (T:=float)))
    ∧ opponentRatingSum c = sum_latest 7 2 four_votes
    ∧ opponentRatingCount c = length (raters_of 7 2 (four_votes (T:=float)))
    ∧ unique_votes (Ratings (after (T:=float) four_votes db_live)).
Proof.
  destruct (proj1 (latest_votes_are_counted (T:=float))
              db_live (after four_votes db_live) four_votes 7
              (duel (Some 2) live []))
    as (c & Hc & Hcr & Hop & Hsum & Hcount & Hopp & Huniq).
  - apply session_of_run. vm_compute. reflexivity.
  - split.
    + intros r Hr. simpl in Hr. by apply elem_of_nil in Hr.
    + intros c Hc. vm_compute in Hc. injection Hc as <-. by repeat split.
  - constructor.
  - reflexivity.
  - exists c. rewrite Hcr in Hsum, Hcount. simpl in Hsum, Hcount.
    destruct (Hopp 2) as [Hosum Hocount]; [by rewrite Hop|].
    by repeat split.
Defined.

(** The same run, computed: 2 + 4 for the creator from two raters, 3 for the
    opponent from one, three records in all. *)
Example four_votes_tally :
  all_accepted (T:=float) four_votes db_live = true
  ∧ (λ c, (creatorRatingSum c, creatorRatingCount c,
           opponentRatingSum c, opponentRatingCount c, totalRatings c))
      <$> Challenges (after (T:=float) four_votes db_live) !! 7
    = Some (6%float, 2, 3%float, 1, 3)
  ∧ sum_latest (T:=float) 7 1 four_votes = 6%float
  ∧ raters_of 7 1 (four_votes (T:=float)) = [10; 11]
  ∧ (λ r, (rater r, competitorRated r, score r))
      <$> Ratings (after (T:=float) four_votes db_live)
    = [(10, 1, 2%float); (11, 1, 4%float); (10, 2, 3%float)].
Proof. repeat split; vm_compute; reflexivity. Qed.

(** ** The viewer-count broadcast *)

Section Rooms.
Implicit Types (rooms : Rooms) (e : Emit).

Lemma viewer_count_update_spec now rooms e :
  e ∈ viewer_count_update now rooms ↔
  ∃ room sockets,
    rooms !! room = Some sockets
    ∧ String.prefix "challenge:" room = true
    ∧ e = {| target := ToRoom room; event := "viewer_count_update";
             payload := viewer_count_payload now room sockets |}.
Proof.
  unfold viewer_count_update. rewrite list_elem_of_fmap. split.
  - intros ([room sockets] & -> & Hin).
    apply list_elem_of_filter in Hin as [Hprefix Hin].
    apply elem_of_map_to_list in Hin. by exists room, sockets.
  - intros (room & sockets & Hroom & Hprefix & ->).
    exists (room, sockets). split; [done|].
    apply list_elem_of_filter. split; [done|]. by apply elem_of_map_to_list.
Qed.

Lemma socket_join_inhabited sid room rooms :
  inhabited rooms → inhabited (socket_join sid room rooms).
Proof.
  unfold inhabited, socket_join. intros Hrooms room' sockets.
  rewrite lookup_insert. case_decide; [|by apply Hrooms].
  intros [= <-]. set_solver.
Qed.

Lemma socket_leave_inhabited sid room rooms :
  inhabited rooms → inhabited (socket_leave sid room rooms).
Proof.
  unfold inhabited, socket_leave. intros Hrooms room' sockets.
  destruct (rooms !! room) as [members|] eqn:Hroom; [|by apply Hrooms].
  case_bool_decide as Hempty.
  - rewrite lookup_delete. case_decide; [done|by apply Hrooms].
  - rewrite lookup_insert. case_decide; [|by apply Hrooms].
    by intros [= <-].
Qed.

Lemma after_events_inhabited es rooms :
  inhabited rooms → inhabited (after_events es rooms).
Proof.
  revert rooms. unfold after_events.
  induction es as [|[sid u challengeId|sid u challengeId] es IH];
    intros rooms Hrooms; simpl; [done| |]; apply IH;
    auto using socket_join_inhabited, socket_leave_inhabited.
Qed.

End Rooms.

Section Interval.
Implicit Types (rooms : Rooms) (e : Emit) (armed from t : Date).

Lemma bind_silent {A B} (f : A → list B) (l : list A) :
  (∀ x, x ∈ l → f x = []) → l ≫= f = [].
Proof.
  induction l as [|x l IH]; intros Hf; [done|].
  rewrite bind_cons, (Hf x) by left. apply IH.
  intros y Hy. apply Hf. by right.
Qed.

(** In the 5000 ms after any time the interval runs once. *)
Lemma setInterval_once armed from :
  armed ≤ from →
  ∃ t, from < t ≤ from + viewer_count_period
    ∧ setInterval_runs viewer_count_period armed t = true
    ∧ ∀ t', from < t' ≤ from + viewer_count_period →
        setInterval_runs viewer_count_period armed t' = true → t' = t.
Proof.
  unfold viewer_count_period, setInterval_runs. intros Harmed.
  pose proof (Nat.div_mod_eq (from - armed) 5000) as Hdiv.
  pose proof (Nat.mod_upper_bound (from - armed) 5000) as Hmod.
  set (q := (from - armed) / 5000) in *.
  set (r := (from - armed) mod 5000) in *.
  exists (armed + 5000 * (q + 1)). split; [lia|]. split.
  - apply andb_true_iff. split; apply bool_decide_eq_true; [lia|].
    replace (armed + 5000 * (q + 1) - armed) with ((q + 1) * 5000) by lia.
    by apply Nat.Div0.mod_mul.
  - intros t' Ht' [Hafter Hruns]%andb_true_iff.
    apply bool_decide_eq_true in Hafter, Hruns.
    pose proof (Nat.div_mod_eq (t' - armed) 5000) as Hdiv'.
    rewrite Hruns in Hdiv'.
    set (k := (t' - armed) / 5000) in *. lia.
Qed.

Lemma emitted_between_once armed from len (rooms_at : Date → Rooms) t :
  from < t ≤ from + len →
  setInterval_runs viewer_count_period armed t = true →
  (∀ t', from < t' ≤ from + len →
     setInterval_runs viewer_count_period armed t' = true → t' = t) →
  emitted_between armed from len rooms_at
  = viewer_count_update t (rooms_at t).
Proof.
  intros Ht Hruns Honce. unfold emitted_between.
  replace len with ((t - S from) + S (from + len - t)) by lia.
  rewrite seq_app. replace (S from + (t - S from)) with t by lia.
  cbn [seq]. rewrite bind_app, bind_cons.
  rewrite !bind_silent, app_nil_r.
  - unfold periodic_broadcast. by rewrite Hruns.
  - intros t' Ht'%elem_of_seq. unfold periodic_broadcast.
    destruct (setInterval_runs _ _ t') eqn:Hruns'; [|done].
    apply Honce in Hruns'; lia.
  - intros t' Ht'%elem_of_seq. unfold periodic_broadcast.
    destruct (setInterval_runs _ _ t') eqn:Hruns'; [|done].
    apply Honce in Hruns'; lia.
Qed.

(** Among the events of one tick, one goes to each challenge room. *)
Lemma sent_to_entries now room sockets (l : list (string * gset SocketId)) :
  NoDup l.*1 →
  (room, sockets) ∈ l →
  String.prefix "challenge:" room = true →
  sent_to room
    ((λ entry : string * gset SocketId,
        {| target := ToRoom entry.1;
           event := "viewer_count_update";
           payload := [("challengeId", room_challengeId entry.1);
                       ("viewerCount", VNumber (size entry.2));
                       ("timestamp", VDate now)] |})
     <$> filter (λ entry : string * gset SocketId,
                   String.prefix "challenge:" entry.1 = true) l)
  = [ {| target := ToRoom room; event := "viewer_count_update";
         payload := viewer_count_payload now room sockets |} ].
Proof.
  intros Hl Hin Hprefix. unfold sent_to.
  set (callback := λ entry : string * gset SocketId, _).
  assert (∀ l' : list (string * gset SocketId), room ∉ l'.*1 →
            filter (λ e, target e = ToRoom room)
              (callback <$> filter (λ entry : string * gset SocketId,
                              String.prefix "challenge:" entry.1 = true) l')
            = []) as Hnone.
  { induction l' as [|[room' sockets'] l' IH]; [done|].
    cbn [fmap list_fmap fst]. rewrite not_elem_of_cons. intros [Hne Hout].
    rewrite filter_cons. destruct (decide _); [|by apply IH].
    cbn [fmap list_fmap]. rewrite filter_cons_False; [by apply IH|].
    cbn. congruence. }
  induction l as [|[room' sockets'] l IH]; [by apply elem_of_nil in Hin|].
  cbn [fmap list_fmap fst] in Hl. apply NoDup_cons in Hl as [Hfresh Hl].
  apply elem_of_cons in Hin as [[= <- <-]|Hin].
  - rewrite filter_cons_True by done. cbn [fmap list_fmap].
    rewrite filter_cons_True by done. by rewrite Hnone.
  - assert (room' ≠ room) as Hne.
    { intros ->. apply Hfresh. apply list_elem_of_fmap.
      by exists (room, sockets). }
    rewrite filter_cons. destruct (decide _); [|by apply IH].
    cbn [fmap list_fmap]. rewrite filter_cons_False; [by apply IH|].
    cbn. congruence.
Qed.

Lemma viewer_count_update_room now rooms room sockets :
  rooms !! room = Some sockets →
  String.prefix "challenge:" room = true →
  sent_to room (viewer_count_update now rooms)
  = [ {| target := ToRoom room; event := "viewer_count_update";
         payload := viewer_count_payload now room sockets |} ].
Proof.
  intros Hroom Hprefix. unfold viewer_count_update.
  apply sent_to_entries; [|by apply elem_of_map_to_list|done].
  apply NoDup_fst_map_to_list.
Qed.

End Interval.

Section ViewerCount.
Context {T : Type} `{JsNumber T}.
Variable decrypt : string -> option string.

(** C9, as amended.  The interval armed by [initializeSocketIO] runs once in
    every 5000 ms: what the server emits on its own in the 5000 ms after any
    time is what one run of the callback emits.  Of the events of a run
    exactly one goes to each challenge room, and none goes anywhere else; its
    payload is made of [challengeId], [viewerCount] (the number of sockets in
    the room, at least one in any room reached by joins and leaves) and
    [timestamp]; it has no [peakViewers] field.  The [peakViewers] stored
    with a challenge is written by no handler: it keeps its value through
    every run of requests, and so never decreases. *)
Theorem viewer_count_broadcast :
  (∀ armed from (rooms_at : Date → Rooms),
     armed ≤ from →
     ∃ t, from < t ≤ from + 5000
       ∧ emitted_between armed from 5000 rooms_at
         = viewer_count_update t (rooms_at t))
  ∧ (∀ now rooms room sockets,
       rooms !! room = Some sockets →
       String.prefix "challenge:" room = true →
       sent_to room (viewer_count_update now rooms)
       = [ {| target := ToRoom room; event := "viewer_count_update";
              payload := [("challengeId", room_challengeId room);
                          ("viewerCount", VNumber (size sockets));
                          ("timestamp", VDate now)] |} ])
  ∧ (∀ now rooms e,
       e ∈ viewer_count_update now rooms ↔
       ∃ room sockets,
         rooms !! room = Some sockets
         ∧ String.prefix "challenge:" room = true
         ∧ e = {| target := ToRoom room; event := "viewer_count_update";
                  payload := [("challengeId", room_challengeId room);
                              ("viewerCount", VNumber (size sockets));
                              ("timestamp", VDate now)] |})
  ∧ (∀ now rooms e,
       e ∈ viewer_count_update now rooms →
       has_field "viewerCount" (payload e) = true
       ∧ has_field "peakViewers" (payload e) = false)
  ∧ (∀ es room sockets,
       after_events es ∅ !! room = Some sockets → 1 ≤ size sockets)
  ∧ (∀ reqs (db db' : DB T) rs id c,
       serve decrypt reqs db = (rs, db') →
       Challenges db !! id = Some c →
       ∃ c', Challenges db' !! id = Some c'
         ∧ peakViewers c' = peakViewers c).
Proof.
  split; [|split; [|split; [|split; [|split]]]].
  - intros armed from rooms_at Harmed.
    destruct (setInterval_once armed from Harmed) as (t & Ht & Hruns & Honce).
    exists t. split; [exact Ht|]. by apply emitted_between_once.
  - apply viewer_count_update_room.
  - apply viewer_count_update_spec.
  - intros now rooms e (room & sockets & _ & _ & ->)%viewer_count_update_spec.
    split; reflexivity.
  - intros es room sockets Hroom.
    assert (sockets ≠ ∅) as Hne.
    { eapply (after_events_inhabited es ∅); [|done].
      intros ? ?. by rewrite lookup_empty. }
    assert (size sockets ≠ 0); [|lia].
    apply size_non_empty_iff. intros Hempty. apply Hne.
    by apply leibniz_equiv.
  - intros reqs db db' rs id c Hrun Hc.
    destruct (serve_persists decrypt _ _ _ _ _ _ Hrun Hc)
      as (c' & Hc' & _ & _ & Hpeak & _).
    eauto.
Qed.

End ViewerCount.

(** The tick in the rooms of [two_viewers]: one event, for challenge 42. *)
Lemma tick_of_two_viewers :
  viewer_count_update 99 two_viewers
  = [ {| target := ToRoom "challenge:42"; event := "viewer_count_update";
         payload := [("challengeId", VString "42"); ("viewerCount", VNumber 2);
                     ("timestamp", VDate 99)] |} ].
Proof. vm_compute. reflexivity. Qed.

(** C9 as stated fails: the one event sent at a tick to the room of
    challenge 42 carries the viewer count and no [peakViewers]. *)
Lemma viewer_count_update_without_peak :
  viewer_count_update 99 two_viewers
  = [ {| target := ToRoom "challenge:42"; event := "viewer_count_update";
         payload := [("challengeId", VString "42"); ("viewerCount", VNumber 2);
                     ("timestamp", VDate 99)] |} ]
  ∧ ¬ (∀ e, e ∈ viewer_count_update 99 two_viewers →
         has_field "viewerCount" (payload e) = true
         ∧ has_field "peakViewers" (payload e) = true).
Proof.
  split; [exact tick_of_two_viewers|].
  intros Hall. rewrite tick_of_two_viewers in Hall.
  destruct (Hall _ (list_elem_of_here _ _)) as [_ Hpeak].
  vm_compute in Hpeak. discriminate.
Qed.

(** The hypotheses of the amended C9 are met: with the interval armed at 3
    and the rooms of [two_viewers], the 5000 ms after 12 hold one run of the
    callback; the event sent to the room of challenge 42 has a viewer count
    and no peak; and the peak stored with challenge 7 is the same after a
    start, a rating and an end. *)
Lemma viewer_count_broadcast_witness :
  (∃ t, 12 < t ≤ 12 + 5000
     ∧ emitted_between 3 12 5000 (λ _, two_viewers)
       = viewer_count_update t two_viewers)
  ∧ (has_field "viewerCount"
       [("challengeId", VString "42"); ("viewerCount", VNumber 2);
        ("timestamp", VDate 99)] = true
     ∧ has_field "peakViewers"
         [("challengeId", VString "42"); ("viewerCount", VNumber 2);
          ("timestamp", VDate 99)] = false)
  ∧ ∃ c', Challenges (serve (T:=float) Some full_run db_ready).2 !! 7 = Some c'
      ∧ peakViewers c' = peakViewers (duel (T:=float) (Some 2) pending []).
Proof.
  pose proof (viewer_count_broadcast (T:=float) Some)
    as (Hwindow & _ & _ & Hfields & _ & Hpeak).
  split; [|split].
  - apply (Hwindow 3 12 (λ _, two_viewers)). lia.
  - apply (Hfields 99 two_viewers
             {| target := ToRoom "challenge:42"; event := "viewer_count_update";
                payload := [("challengeId", VString "42");
                            ("viewerCount", VNumber 2);
                            ("timestamp", VDate 99)] |}).
    rewrite tick_of_two_viewers. left.
  - apply (Hpeak full_run db_ready _
             (serve (T:=float) Some full_run db_ready).1 7
             (duel (Some 2) pending [])); [|reflexivity].
    by destruct (serve _ _ _).
Defined.

(** An interval armed at 0 with a period of 5000 ms runs at 5000 and at
    10000, and at no time of the examples in between. *)
Example setInterval_runs_every_period :
  setInterval_runs viewer_count_period 0 5000 = true
  ∧ setInterval_runs viewer_count_period 0 (5000 + 5000) = true
  ∧ setInterval_runs viewer_count_period 0 0 = false
  ∧ setInterval_runs viewer_count_period 0 4999 = false
  ∧ setInterval_runs viewer_count_period 0 (5000 + 1) = false
  ∧ setInterval_runs viewer_count_period 0 (5000 + 2500) = false.
Proof. repeat split; vm_compute; reflexivity. Qed.

(** The run of the witness: the three requests succeed, and the counters of
    viewers stored with the challenge are the schema defaults throughout. *)
Example full_run_answers :
  (serve (T:=float) Some full_run db_ready).1
  = [Success 200; Success 201; Success 200]
  ∧ (λ c, (status c, viewerCount c, peakViewers c))
      <$> Challenges (serve (T:=float) Some full_run db_ready).2 !! 7
    = Some (completed, 0, 0).
Proof. split; vm_compute; reflexivity. Qed.

(** ** The ledger of an ended challenge *)

Section LedgerFacts.
Context {T : Type} `{JsNumber T}.

(** The transactions a successful [endChallenge] has appended, and the user
    documents it has updated. *)
Lemma endChallenge_ledger uid id now invoices (db db' : DB T) http :
  endChallenge uid id now invoices db = (Success http, db') →
  ∃ c c' paid,
    Challenges db !! id = Some c
    ∧ Challenges db' !! id = Some c'
    ∧ revenueDistribution c'
      = distribution (totalRevenue c')
          (sum_scores (ratings_of id (Some (creator c)) (Ratings db)))
          (sum_scores (ratings_of id (opponent c) (Ratings db)))
    ∧ js_le (js_of_nat 0) (totalRevenue c') = true
    ∧ Transactions db' = Transactions db ++ paid
    ∧ Users db' = foldl credit (Users db) paid
    ∧ amount <$> paid
      = (if js_lt (js_of_nat 0) (rd_creator (revenueDistribution c'))
         then [rd_creator (revenueDistribution c')] else [])
        ++ (if js_lt (js_of_nat 0) (rd_opponent (revenueDistribution c'))
            then [rd_opponent (revenueDistribution c')] else [])
    ∧ Forall (λ t, t_challenge t = id
                   ∧ totalChallengeRevenue t = totalRevenue c'
                   ∧ (t_user t = creator c ∨ Some (t_user t) = opponent c)) paid.
Proof.
  intros Hend.
  destruct (endChallenge_success _ _ _ _ _ _ _ Hend)
    as (c & Hc & _ & _ & _ & Hvalid & Hc' & _).
  unfold endChallenge in Hend. rewrite Hc in Hend.
  repeat case_match; simplify_eq.
  all: repeat match goal with
       | Hpay : pay _ _ = Some _ |- _ => apply pay_writes in Hpay as [_ ->]
       end.
  all: eexists c, _, _; split; [done|]; split; [exact Hc'|].
  all: repeat match goal with
       | Ho : opponent _ = _ |- _ => rewrite Ho in *; clear Ho
       end.
  all: cbn [revenueDistribution totalRevenue complete
            Transactions Users with_challenge].
  all: split; [reflexivity|]; split; [exact Hvalid|].
  all: split;
    [rewrite <- ?app_assoc; first [reflexivity|symmetry; apply app_nil_r]|].
  all: split; [reflexivity|].
  all: cbn [distribution rd_creator rd_opponent].
  all: repeat match goal with
       | Hb : js_lt _ _ = _ |- _ => rewrite Hb; clear Hb
       end.
  all: split; [reflexivity|].
  all: repeat (apply List.Forall_cons; [cbn; split_and!; auto|]).
  all: apply List.Forall_nil.
Qed.

End LedgerFacts.

Section ExactSums.
Local Open Scope Q_scope.

Lemma exact_valid_score (s : Q) : valid_score s = true → 1 <= s ∧ s <= 5.
Proof.
  unfold valid_score. cbn. intros [H1 H5]%andb_true_iff.
  split; by apply Qle_bool_iff.
Qed.

Lemma exact_sum_from (rs : list (Rating Q)) (a : Q) :
  foldl (λ sum r, js_add sum (score r)) a rs == a + sum_scores rs.
Proof.
  unfold sum_scores. induction rs as [|r rs IH] using rev_ind.
  - simpl. ring.
  - rewrite !foldl_app. simpl in *. rewrite IH. ring.
Qed.

Lemma exact_sum_scores_cons (r : Rating Q) rs :
  sum_scores (r :: rs) == score r + sum_scores rs.
Proof.
  unfold sum_scores at 1. cbn [foldl]. rewrite exact_sum_from. cbn. ring.
Qed.

(** [n] scores between 1 and 5 add up to a sum between [n] and [5 n]. *)
Lemma exact_sum_bounds (rs : list (Rating Q)) :
  Forall (λ r, valid_score (score r) = true) rs →
  inject_Z (Z.of_nat (length rs)) <= sum_scores rs
  ∧ sum_scores rs <= 5 * inject_Z (Z.of_nat (length rs)).
Proof.
  induction 1 as [|r rs Hr _ [IHlo IHhi]].
  - cbn. split; [apply Qle_refl|]. discriminate.
  - apply exact_valid_score in Hr as [Hlo Hhi].
    rewrite exact_sum_scores_cons. cbn [length].
    rewrite Nat2Z.inj_succ. unfold Z.succ. rewrite inject_Z_plus.
    change (inject_Z 1) with 1. split; lra.
Qed.

Lemma exact_sum_nonneg (rs : list (Rating Q)) :
  Forall (λ r, valid_score (score r) = true) rs → 0 <= sum_scores rs.
Proof.
  intros [Hlo _]%exact_sum_bounds. eapply Qle_trans; [|exact Hlo].
  change 0 with (inject_Z 0). rewrite <- Zle_Qle. lia.
Qed.

Lemma exact_not_positive (x : Q) : js_lt (js_of_nat 0) x = false → x <= 0.
Proof.
  intros Hx. apply Qnot_lt_le. intros Hpos.
  apply exact_positive in Hpos. congruence.
Qed.

Lemma exact_revenue_nonneg (total s ts : Q) :
  0 <= total → 0 <= s → 0 <= competitorRevenue total s ts.
Proof.
  intros Ht Hs. unfold competitorRevenue, competitorsShare, percentage.
  assert (0 <= total * (80 # 100)) as H80.
  { apply Qmult_le_0_compat; [done|discriminate]. }
  destruct (js_lt (js_of_nat 0) ts) eqn:Hpos; cbn.
  - apply exact_positive in Hpos.
    apply Qmult_le_0_compat; [done|].
    apply Qle_shift_div_l; [reflexivity|]. rewrite Qmult_0_l.
    apply Qmult_le_0_compat; [|discriminate].
    apply Qle_shift_div_l; [done|]. by rewrite Qmult_0_l.
  - apply Qle_shift_div_l; [reflexivity|]. by rewrite Qmult_0_l.
Qed.

Lemma exact_competitors_share (total cs os : Q) :
  rd_creator (distribution total cs os) + rd_opponent (distribution total cs os)
  == (80 # 100) * total.
Proof.
  pose proof (exact_shares_sum total cs os) as Hsum.
  pose proof (exact_platform_share total cs os) as Hp.
  rewrite Hp in Hsum. lra.
Qed.

End ExactSums.

Section Payouts.
Context {T : Type} `{JsNumber T}.

(** X1.  In any arithmetic a successful [endChallenge] appends at most two
    transactions: one for the creator when the stored creator share is
    positive, then one for the opponent when the stored opponent share is
    positive.  Each names the ended challenge and its stored total revenue,
    has the stored share of its competitor as amount, and carries an invoice
    number that no earlier transaction has. *)
Theorem payouts_follow_stored_shares uid id now invoices (db db' : DB T) http :
  endChallenge uid id now invoices db = (Success http, db') →
  ∃ c c' paid,
    Challenges db !! id = Some c
    ∧ Challenges db' !! id = Some c'
    ∧ Transactions db' = Transactions db ++ paid
    ∧ length paid ≤ 2
    ∧ amount <$> paid
      = (if js_lt (js_of_nat 0) (rd_creator (revenueDistribution c'))
         then [rd_creator (revenueDistribution c')] else [])
        ++ (if js_lt (js_of_nat 0) (rd_opponent (revenueDistribution c'))
            then [rd_opponent (revenueDistribution c')] else [])
    ∧ Forall (λ t, t_challenge t = id
                   ∧ js_lt (js_of_nat 0) (amount t) = true
                   ∧ totalChallengeRevenue t = totalRevenue c'
                   ∧ (invoiceNumber t ∉ invoiceNumber <$> Transactions db)
                   ∧ ((competitorRole t = role_creator
                       ∧ t_user t = creator c
                       ∧ amount t = rd_creator (revenueDistribution c'))
                      ∨ (competitorRole t = role_opponent
                         ∧ Some (t_user t) = opponent c
                         ∧ amount t = rd_opponent (revenueDistribution c'))))
        paid
    ∧ NoDup (invoiceNumber <$> paid).
Proof.
  intros Hend.
  destruct (endChallenge_success _ _ _ _ _ _ _ Hend)
    as (c & Hc & _ & _ & _ & _ & Hc' & _).
  unfold endChallenge in Hend. rewrite Hc in Hend.
  repeat case_match; simplify_eq.
  all: repeat match goal with
       | Hpay : pay _ _ = Some _ |- _ => apply pay_writes in Hpay as [? ->]
       end.
  all: eexists c, _, _; split; [done|]; split; [exact Hc'|].
  all: repeat match goal with
       | Ho : opponent _ = _ |- _ => rewrite Ho in *; clear Ho
       end.
  all: cbn [revenueDistribution totalRevenue complete invoiceNumber
            Transactions Users with_challenge] in *.
  all: split;
    [rewrite <- ?app_assoc; first [reflexivity|symmetry; apply app_nil_r]|].
  all: split; [cbn; lia|].
  all: cbn [distribution rd_creator rd_opponent].
  all: repeat match goal with
       | Hb : js_lt _ _ = _ |- _ => rewrite Hb in *
       end.
  all: split; [reflexivity|].
  all: rewrite ?fmap_app, ?not_elem_of_app in *.
  all: split;
    [repeat (apply List.Forall_cons; [cbn; split_and!; tauto|]);
     apply List.Forall_nil|].
  all: cbn [fmap list_fmap invoiceNumber].
  all: repeat (apply NoDup_cons; split); try apply NoDup_nil_2.
  all: rewrite ?elem_of_nil, ?list_elem_of_singleton; try tauto.
  all: cbn in *; rewrite ?list_elem_of_singleton in *; intuition congruence.
Qed.

End Payouts.

Lemma payouts_follow_stored_shares_witness :
  ∃ c c' paid,
    Challenges (db100 (T:=float)) !! 7 = Some c
    ∧ Challenges (endChallenge 1 7 99 drawn (db100 (T:=float))).2 !! 7 = Some c'
    ∧ Transactions (endChallenge 1 7 99 drawn (db100 (T:=float))).2
      = Transactions (db100 (T:=float)) ++ paid
    ∧ length paid ≤ 2
    ∧ amount <$> paid
      = (if js_lt (js_of_nat 0) (rd_creator (revenueDistribution c'))
         then [rd_creator (revenueDistribution c')] else [])
        ++ (if js_lt (js_of_nat 0) (rd_opponent (revenueDistribution c'))
            then [rd_opponent (revenueDistribution c')] else [])
    ∧ Forall (λ t, t_challenge t = 7
                   ∧ js_lt (js_of_nat 0) (amount t) = true
                   ∧ totalChallengeRevenue t = totalRevenue c'
                   ∧ (invoiceNumber t
                      ∉ invoiceNumber <$> Transactions (db100 (T:=float)))
                   ∧ ((competitorRole t = role_creator
                       ∧ t_user t = creator c
                       ∧ amount t = rd_creator (revenueDistribution c'))
                      ∨ (competitorRole t = role_opponent
                         ∧ Some (t_user t) = opponent c
                         ∧ amount t = rd_opponent (revenueDistribution c'))))
        paid
    ∧ NoDup (invoiceNumber <$> paid).
Proof.
  apply (payouts_follow_stored_shares 1 7 99 drawn db100 _ 200).
  vm_compute. reflexivity.
Defined.

(** The ledger of the worked scenario in binary64: two transactions, of 60
    for the creator and 20 for the opponent. *)
Example db100_ledger :
  (λ t, (t_user t, amount t, competitorRole t, invoiceNumber t))
    <$> Transactions (endChallenge 1 7 99 drawn (db100 (T:=float))).2
  = [(1, 60%float, role_creator, (100, 417));
     (2, 20%float, role_opponent, (101, 52))].
Proof. vm_compute. reflexivity. Qed.

Section Earnings.
Local Open Scope Q_scope.

Lemma paid_to_cons u (t : Transaction Q) ts :
  paid_to u (t :: ts)
  = if decide (t_user t = u) then amount t + paid_to u ts else paid_to u ts.
Proof.
  unfold paid_to, paid_out. rewrite filter_cons. by destruct (decide _).
Qed.

(** The user documents after the increments of a list of transactions. *)
Lemma credited (paid : list (Transaction Q)) us u :
  match us !! u, foldl credit us paid !! u with
  | Some doc, Some doc' =>
    totalEarnings doc' == totalEarnings doc + paid_to u paid
    ∧ totalChallenges doc'
      == totalChallenges doc
         + inject_Z (Z.of_nat (length (filter (λ t, t_user t = u) paid)))
    ∧ role doc' = role doc
    ∧ youtubeLinked doc' = youtubeLinked doc
    ∧ youtubeAccessToken doc' = youtubeAccessToken doc
    ∧ youtubeRefreshToken doc' = youtubeRefreshToken doc
  | None, None => True
  | _, _ => False
  end.
Proof.
  revert us. induction paid as [|t paid IH]; intros us.
  - cbn. destruct (us !! u) as [doc|]; [|done].
    repeat split; cbn; ring.
  - cbn [foldl]. specialize (IH (credit us t)).
    rewrite paid_to_cons, filter_cons.
    destruct (decide (t_user t = u)) as [<-|Hne].
    + unfold credit at 1 in IH. rewrite lookup_alter_eq in IH.
      destruct (us !! t_user t) as [doc|]; cbn in IH; [|done].
      destruct (foldl credit _ paid !! t_user t) as [doc'|]; [|done].
      destruct IH as (He & Hc & ? & ? & ? & ?).
      cbn [length]. rewrite Nat2Z.inj_succ. unfold Z.succ.
      rewrite inject_Z_plus. change (inject_Z 1) with 1.
      change (js_of_nat 1) with 1 in Hc.
      repeat split; try done; [rewrite He|rewrite Hc]; ring.
    + unfold credit at 1 in IH. by rewrite lookup_alter_ne in IH.
Qed.

(** X2.  With exact arithmetic, a successful [endChallenge] adds to the
    [totalEarnings] of every user the amounts of the appended transactions
    that name the user and to [totalChallenges] their number; it adds and
    removes no user and leaves the other paths as they were. *)
Theorem earnings_follow_transactions uid id now invoices (db db' : DB Q) http :
  endChallenge uid id now invoices db = (Success http, db') →
  ∃ paid,
    Transactions db' = Transactions db ++ paid
    ∧ ∀ u,
        match Users db !! u, Users db' !! u with
        | Some doc, Some doc' =>
          totalEarnings doc' == totalEarnings doc + paid_to u paid
          ∧ totalChallenges doc'
            == totalChallenges doc
               + inject_Z (Z.of_nat (length (filter (λ t, t_user t = u) paid)))
          ∧ role doc' = role doc
          ∧ youtubeLinked doc' = youtubeLinked doc
          ∧ youtubeAccessToken doc' = youtubeAccessToken doc
          ∧ youtubeRefreshToken doc' = youtubeRefreshToken doc
        | None, None => True
        | _, _ => False
        end.
Proof.
  intros Hend.
  destruct (endChallenge_ledger _ _ _ _ _ _ _ Hend)
    as (c & c' & paid & _ & _ & _ & _ & Hpaid & Husers & _).
  exists paid. split; [done|]. intros u. rewrite Husers. apply credited.
Qed.

End Earnings.

Lemma earnings_follow_transactions_witness :
  ∃ paid,
    Transactions (endChallenge 1 7 99 drawn (db100 (T:=Q))).2
    = Transactions (db100 (T:=Q)) ++ paid
    ∧ ∀ u,
        match Users (db100 (T:=Q)) !! u,
              Users (endChallenge 1 7 99 drawn (db100 (T:=Q))).2 !! u with
        | Some doc, Some doc' =>
          (totalEarnings doc' == totalEarnings doc + paid_to u paid)%Q
          ∧ (totalChallenges doc'
             == totalChallenges doc
                + inject_Z (Z.of_nat (length (filter (λ t, t_user t = u) paid))))%Q
          ∧ role doc' = role doc
          ∧ youtubeLinked doc' = youtubeLinked doc
          ∧ youtubeAccessToken doc' = youtubeAccessToken doc
          ∧ youtubeRefreshToken doc' = youtubeRefreshToken doc
        | None, None => True
        | _, _ => False
        end.
Proof.
  apply (earnings_follow_transactions 1 7 99 drawn db100 _ 200).
  vm_compute. reflexivity.
Defined.

(** ** Refused and repeated requests *)

Section Atomic.
Context {T : Type} `{JsNumber T}.
Variable decrypt : string -> option string.

Lemma staffed_write id c (db db' : DB T) :
  staffed db →
  Challenges db' = <[id := c]> (Challenges db) →
  (status c = live → is_Some (opponent c)) →
  staffed db'.
Proof.
  intros Hdb Hdb' Hc id' c'. rewrite Hdb', lookup_insert.
  case_decide; [intros [= <-]; done|]. apply Hdb.
Qed.

Lemma cancelChallenge_atomic uid urole id (db db' : DB T) r :
  staffed db → cancelChallenge uid urole id db = (r, db') →
  staffed db' ∧ (succeeded r = false → db' = db).
Proof.
  unfold cancelChallenge. intros Hdb Hrun.
  repeat case_match; simplify_eq; try done.
  split; [|done]. eapply staffed_write; [done|reflexivity|done].
Qed.

Lemma startChallenge_atomic uid id now cc oc (db db' : DB T) r :
  staffed db → startChallenge decrypt uid id now cc oc db = (r, db') →
  staffed db' ∧ (succeeded r = false → db' = db).
Proof.
  intros Hdb Hrun. destruct r as [http|http code].
  - split; [|done].
    apply startChallenge_success in Hrun
      as (c & o & ? & ? & ? & ? & _ & Ho & _ & _ & _ & _ & _ & _ & _ & ->).
    eapply staffed_write; [done|reflexivity|]. simpl. by rewrite Ho.
  - apply startChallenge_failure in Hrun as ->. done.
Qed.

Lemma endChallenge_atomic uid id now invoices (db db' : DB T) r :
  staffed db → endChallenge uid id now invoices db = (r, db') →
  staffed db'
  ∧ (succeeded r = false → r ≠ Failure 409 DUPLICATE_FIELD → db' = db).
Proof.
  intros Hdb. unfold endChallenge.
  destruct (Challenges db !! id) as [c|] eqn:Hc; [|by intros; simplify_eq].
  intros Hrun. repeat case_match; simplify_eq; try done.
  all: repeat match goal with
       | Hpay : pay _ _ = Some _ |- _ => apply pay_writes in Hpay as [_ ->]
       end.
  all: try match goal with
       | Hl : negb (bool_decide (status ?c0 = live)) = false,
         Ho : opponent ?c0 = None,
         Hc0 : Challenges ?d !! ?i = Some ?c0, Hd : staffed ?d |- _ =>
         apply negb_false_iff, bool_decide_eq_true in Hl;
         destruct (Hd i c0 Hc0 Hl) as [o' Ho']; congruence
       end.
  all: split; [|done].
  all: eapply staffed_write; [done|reflexivity|done].
Qed.

(** The one answer after which a refused [endChallenge] has written: the
    unique index has refused a transaction, the challenge is completed. *)
Lemma endChallenge_conflict uid id now invoices (db db' : DB T) :
  endChallenge uid id now invoices db = (Failure 409 DUPLICATE_FIELD, db') →
  ∃ c c',
    Challenges db !! id = Some c
    ∧ status c = live
    ∧ Challenges db' !! id = Some c'
    ∧ status c' = completed
    ∧ (invoices.1 ∈ invoiceNumber <$> Transactions db
       ∨ invoices.2 ∈ invoiceNumber <$> Transactions db
       ∨ (invoices.2 = invoices.1
          ∧ ∃ t, Transactions db' = Transactions db ++ [t]
                 ∧ t_user t = creator c ∧ invoiceNumber t = invoices.1)).
Proof.
  unfold endChallenge.
  destruct (Challenges db !! id) as [c|] eqn:Hc; [|by intros; simplify_eq].
  intros Hrun. exists c. repeat case_match; simplify_eq.
  all: repeat match goal with
       | Hpay : pay _ _ = Some _ |- _ => apply pay_writes in Hpay as [? ->]
       | Hl : negb (bool_decide (status _ = live)) = false |- _ =>
         apply negb_false_iff, bool_decide_eq_true in Hl
       | Hpay : pay _ _ = None |- _ =>
         unfold pay in Hpay; case_bool_decide; [|done]; clear Hpay
       end.
  all: eexists; split; [done|]; split; [done|].
  all: split; [apply lookup_insert_eq|]; split; [reflexivity|].
  all: cbn [Transactions with_challenge invoiceNumber] in *.
  all: rewrite ?fmap_app, ?elem_of_app in *; cbn in *.
  all: rewrite ?list_elem_of_singleton in *.
  all: eauto 10.
  all: match goal with
       | Hin : _ ∨ _ |- _ => destruct Hin as [?|?]; eauto 10
       end.
Qed.

Lemma rejectAdvertisement_atomic uid id ad reason now (db db' : DB T) r :
  staffed db → rejectAdvertisement uid id ad reason now db = (r, db') →
  staffed db' ∧ (succeeded r = false → db' = db).
Proof.
  unfold rejectAdvertisement. intros Hdb Hrun.
  destruct (Challenges db !! id) as [c|] eqn:Hc; [|by simplify_eq].
  repeat case_match; simplify_eq; try done.
  split; [|done]. eapply staffed_write; [done|reflexivity|].
  simpl. apply (Hdb id c Hc).
Qed.

Lemma submitRating_atomic uid id p s now (db db' : DB T) r :
  staffed db → submitRating uid id p s now db = (r, db') →
  staffed db' ∧ (succeeded r = false → db' = db).
Proof.
  unfold submitRating. intros Hdb Hrun.
  destruct (Challenges db !! id) as [c|] eqn:Hc; [|by simplify_eq].
  repeat case_match; simplify_eq; try done.
  split; [|done]. eapply staffed_write; [done|reflexivity|].
  simpl. apply (Hdb id c Hc).
Qed.

Lemma handle_atomic req (db db' : DB T) r :
  staffed db → handle decrypt req db = (r, db') →
  staffed db'
  ∧ (succeeded r = false → r ≠ Failure 409 DUPLICATE_FIELD → db' = db).
Proof.
  intros Hdb. destruct req; simpl; intros Hrun.
  3: by eapply endChallenge_atomic.
  all: match goal with
       | Hrun : cancelChallenge _ _ _ _ = _ |- _ =>
         destruct (cancelChallenge_atomic _ _ _ _ _ _ Hdb Hrun)
       | Hrun : startChallenge _ _ _ _ _ _ _ = _ |- _ =>
         destruct (startChallenge_atomic _ _ _ _ _ _ _ _ Hdb Hrun)
       | Hrun : rejectAdvertisement _ _ _ _ _ _ = _ |- _ =>
         destruct (rejectAdvertisement_atomic _ _ _ _ _ _ _ _ Hdb Hrun)
       | Hrun : submitRating _ _ _ _ _ _ = _ |- _ =>
         destruct (submitRating_atomic _ _ _ _ _ _ _ _ Hdb Hrun)
       end; auto.
Qed.

(** Of the five handlers only [endChallenge] answers 409. *)
Lemma handle_conflict req (db db' : DB T) :
  handle decrypt req db = (Failure 409 DUPLICATE_FIELD, db') →
  ∃ uid id now invoices,
    req = EndChallenge uid id now invoices
    ∧ endChallenge uid id now invoices db = (Failure 409 DUPLICATE_FIELD, db').
Proof.
  destruct req; simpl; intros Hrun;
    [exfalso|exfalso|by repeat eexists|exfalso|exfalso].
  - revert Hrun. unfold cancelChallenge. intros Hrun.
    repeat case_match; simplify_eq.
  - revert Hrun. unfold startChallenge, start_guards, start_broadcast.
    intros Hrun.
    repeat case_match; simplify_eq.
  - revert Hrun. unfold rejectAdvertisement. intros Hrun.
    repeat case_match; simplify_eq.
  - revert Hrun. unfold submitRating. intros Hrun.
    repeat case_match; simplify_eq.
Qed.

Lemma serve_staffed reqs (db db' : DB T) rs :
  staffed db → serve decrypt reqs db = (rs, db') → staffed db'.
Proof.
  revert db rs. induction reqs as [|req reqs IH]; intros db rs Hdb Hrun.
  - simpl in Hrun. by simplify_eq.
  - simpl in Hrun.
    destruct (handle decrypt req db) as [r db1] eqn:Hreq.
    destruct (serve decrypt reqs db1) as [rs1 db2] eqn:Hrest.
    simplify_eq. eapply IH; [|done]. by eapply handle_atomic.
Qed.

(** X3.  From a database in which every live challenge has an opponent,
    after any sequence of requests, a request that is refused with anything
    but 409 [DUPLICATE_FIELD] leaves every collection as it was.  A request
    refused with 409 is an [endChallenge] one of whose invoice numbers the
    unique index has refused (it is taken, or the two drawn are the same and
    the creator has been paid): the challenge, live before, is then stored as
    completed although the request was refused. *)
Theorem refused_requests_write_nothing reqs req (db db1 db2 : DB T) rs r :
  staffed db →
  serve decrypt reqs db = (rs, db1) →
  handle decrypt req db1 = (r, db2) →
  succeeded r = false →
  (r ≠ Failure 409 DUPLICATE_FIELD → db2 = db1)
  ∧ (r = Failure 409 DUPLICATE_FIELD →
     ∃ uid id now invoices c c',
       req = EndChallenge uid id now invoices
       ∧ Challenges db1 !! id = Some c
       ∧ status c = live
       ∧ Challenges db2 !! id = Some c'
       ∧ status c' = completed
       ∧ (invoices.1 ∈ invoiceNumber <$> Transactions db1
          ∨ invoices.2 ∈ invoiceNumber <$> Transactions db1
          ∨ (invoices.2 = invoices.1
             ∧ ∃ t, Transactions db2 = Transactions db1 ++ [t]
                    ∧ t_user t = creator c ∧ invoiceNumber t = invoices.1))).
Proof.
  intros Hdb Hrun Hreq Hr. split.
  - intros Hcode. apply (handle_atomic req db1 db2 r); [|done..].
    by eapply serve_staffed.
  - intros ->.
    apply handle_conflict in Hreq as (uid & id & now & invoices & -> & Hend).
    apply endChallenge_conflict in Hend as (c & c' & ? & ? & ? & ? & ?).
    by exists uid, id, now, invoices, c, c'.
Qed.

End Atomic.

Lemma refused_requests_write_nothing_witness :
  (handle (T:=float) Some (EndChallenge 1 7 40 drawn)
     (serve Some full_run db_ready).2).2
  = (serve (T:=float) Some full_run db_ready).2.
Proof.
  apply (refused_requests_write_nothing (T:=float) Some full_run
           (EndChallenge 1 7 40 drawn) db_ready _ _
           (serve (T:=float) Some full_run db_ready).1
           (Failure 400 NOT_LIVE)).
  - intros id c Hc Hlive. cbn in Hc.
    apply lookup_singleton_Some in Hc as [_ <-]. discriminate Hlive.
  - by destruct (serve _ _ _).
  - vm_compute. reflexivity.
  - reflexivity.
  - discriminate.
Defined.

(** A refused request that has written: the invoice number drawn for the
    creator is taken, [endChallenge] answers 409, and the challenge is stored
    as completed with its revenue distributed and nobody paid. *)
Example taken_invoice_number_completes_unpaid :
  let db := with_transactions [taken_invoice] (db100 (T:=float)) in
  let run := endChallenge 1 7 99 drawn db in
  run.1 = Failure 409 DUPLICATE_FIELD
  ∧ (λ c, (status c, totalRevenue c, rd_creator (revenueDistribution c)))
      <$> Challenges run.2 !! 7
    = Some (completed, 100%float, 60%float)
  ∧ Transactions run.2 = [taken_invoice]
  ∧ Users run.2 = Users db.
Proof. vm_compute. repeat split; reflexivity. Qed.

Section Cancel.
Context {T : Type} `{JsNumber T}.

(** X4.  A successful [cancelChallenge] answers 200 and leaves the challenge
    cancelled; the same request once more is answered 200 again and changes
    nothing. *)
Theorem cancelling_twice_is_cancelling_once uid urole id (db db1 : DB T) http :
  cancelChallenge uid urole id db = (Success http, db1) →
  http = 200
  ∧ (∃ c1, Challenges db1 !! id = Some c1 ∧ status c1 = cancelled)
  ∧ cancelChallenge uid urole id db1 = (Success 200, db1).
Proof.
  unfold cancelChallenge. intros Hrun.
  destruct (Challenges db !! id) as [c|] eqn:Hc; [|done].
  destruct (negb (bool_decide (creator c = uid)) && negb (bool_decide (urole = admin_role)))
    eqn:Hperm; [done|].
  destruct (bool_decide (status c = completed)) eqn:Hdone; [done|].
  simplify_eq. split; [done|]. split.
  { eexists. split; [apply lookup_insert_eq|done]. }
  cbn [Challenges with_challenge]. rewrite lookup_insert_eq.
  cbn [creator set_status status]. rewrite Hperm.
  rewrite bool_decide_eq_false_2 by done.
  unfold with_challenge. cbn. by rewrite insert_insert_eq.
Qed.

End Cancel.

Lemma cancelling_twice_is_cancelling_once_witness :
  cancelChallenge (T:=float) 1 user_role 7 db_ready
  = (Success 200, (cancelChallenge (T:=float) 1 user_role 7 db_ready).2)
  ∧ cancelChallenge (T:=float) 1 user_role 7
      (cancelChallenge (T:=float) 1 user_role 7 db_ready).2
    = (Success 200, (cancelChallenge (T:=float) 1 user_role 7 db_ready).2).
Proof.
  split; [vm_compute; reflexivity|].
  apply (cancelling_twice_is_cancelling_once (T:=float) 1 user_role 7 db_ready
           _ 200).
  vm_compute. reflexivity.
Defined.

(** ** Rooms and their names *)

Section SocketRooms.
Implicit Types (rooms : Rooms) (sid : SocketId) (u : SocketUser).
Implicit Types (members : gset SocketId).

Lemma add_member sid members : sid ∈ members → {[sid]} ∪ members = members.
Proof.
  intros Hin. apply set_eq. intros x.
  rewrite elem_of_union, elem_of_singleton. split; [|tauto].
  by intros [->|Hx].
Qed.

Lemma remove_stranger sid members : sid ∉ members → members ∖ {[sid]} = members.
Proof.
  intros Hout. apply set_eq. intros x.
  rewrite elem_of_difference, elem_of_singleton. split; [tauto|].
  intros Hx. split; [done|]. by intros ->.
Qed.

Lemma add_then_remove sid members :
  sid ∉ members → ({[sid]} ∪ members) ∖ {[sid]} = members.
Proof.
  intros Hout. apply set_eq. intros x.
  rewrite elem_of_difference, elem_of_union, elem_of_singleton. split.
  - by intros [[->|Hx] Hne].
  - intros Hx. split; [tauto|]. by intros ->.
Qed.

Lemma room_size_join sid room rooms :
  room_size (socket_join sid room rooms) room
  = if decide (sid ∈ default ∅ (rooms !! room))
    then room_size rooms room else S (room_size rooms room).
Proof.
  unfold room_size, socket_join. rewrite lookup_insert_eq.
  destruct (rooms !! room) as [members|]; cbn [from_option]; unfold id.
  - destruct (decide (sid ∈ members)) as [Hin|Hout].
    + by rewrite add_member.
    + rewrite size_union by (by apply disjoint_singleton_l).
      by rewrite size_singleton.
  - rewrite decide_False by apply not_elem_of_empty.
    rewrite size_union by (apply disjoint_singleton_l, not_elem_of_empty).
    by rewrite size_singleton, size_empty.
Qed.

Lemma room_size_leave sid room rooms :
  room_size (socket_leave sid room rooms) room
  = if decide (sid ∈ default ∅ (rooms !! room))
    then room_size rooms room - 1 else room_size rooms room.
Proof.
  unfold room_size, socket_leave.
  destruct (rooms !! room) as [members|] eqn:Hroom; cbn [from_option]; unfold id.
  - assert (size (members ∖ {[sid]})
            = if decide (sid ∈ members) then size members - 1 else size members)
      as Hsize.
    { destruct (decide (sid ∈ members)) as [Hin|Hout].
      - rewrite size_difference by (by apply singleton_subseteq_l).
        by rewrite size_singleton.
      - by rewrite remove_stranger. }
    case_bool_decide as Hempty.
    + rewrite lookup_delete_eq. rewrite Hempty, size_empty in Hsize. done.
    + by rewrite lookup_insert_eq.
  - rewrite Hroom. by rewrite decide_False by apply not_elem_of_empty.
Qed.

Lemma socket_join_other sid room rooms other :
  other ≠ room → socket_join sid room rooms !! other = rooms !! other.
Proof. intros Hne. unfold socket_join. by rewrite lookup_insert_ne. Qed.

Lemma socket_leave_other sid room rooms other :
  other ≠ room → socket_leave sid room rooms !! other = rooms !! other.
Proof.
  intros Hne. unfold socket_leave.
  destruct (rooms !! room); [|done].
  case_bool_decide; by rewrite ?lookup_delete_ne, ?lookup_insert_ne.
Qed.

(** X5.  [join_challenge] makes the room of the challenge one larger unless
    the socket is in it already, and [leave_challenge] one smaller unless the
    socket is not in it; every event they emit carries the size the room then
    has as [viewerCount], and no other room changes. *)
Theorem viewer_counts_follow_the_room sid u challengeId rooms :
  let room := challenge_room challengeId in
  let member := bool_decide (sid ∈ default ∅ (rooms !! room)) in
  let joined := join_challenge sid u challengeId rooms in
  let left := leave_challenge sid u challengeId rooms in
  room_size joined.1 room
    = (if member then room_size rooms room else S (room_size rooms room))
  ∧ Forall (λ e, ("viewerCount", VNumber (room_size joined.1 room)) ∈ payload e)
      joined.2
  ∧ room_size left.1 room
    = (if member then room_size rooms room - 1 else room_size rooms room)
  ∧ Forall (λ e, ("viewerCount", VNumber (room_size left.1 room)) ∈ payload e)
      left.2
  ∧ ∀ other, other ≠ room →
      joined.1 !! other = rooms !! other ∧ left.1 !! other = rooms !! other.
Proof.
  intros room member joined left. subst joined left member.
  cbn [fst snd join_challenge leave_challenge].
  split; [|split; [|split; [|split]]].
  - rewrite room_size_join. subst room.
    by destruct (decide _);
      [rewrite bool_decide_eq_true_2|rewrite bool_decide_eq_false_2].
  - repeat constructor.
  - rewrite room_size_leave. subst room.
    by destruct (decide _);
      [rewrite bool_decide_eq_true_2|rewrite bool_decide_eq_false_2].
  - repeat constructor.
  - intros other Hne.
    split; [by apply socket_join_other|by apply socket_leave_other].
Qed.

(** X6.  When no room is empty and the socket is not in the room of the
    challenge, joining and then leaving gives back the rooms as they were. *)
Theorem leaving_undoes_joining sid u challengeId rooms :
  inhabited rooms →
  sid ∉ default ∅ (rooms !! challenge_room challengeId) →
  (leave_challenge sid u challengeId
     (join_challenge sid u challengeId rooms).1).1 = rooms.
Proof.
  intros Hrooms Hout. cbn [fst join_challenge leave_challenge].
  unfold socket_leave, socket_join. rewrite lookup_insert_eq.
  set (room := challenge_room challengeId) in *.
  destruct (rooms !! room) as [members|] eqn:Hroom;
    cbn [from_option] in *; unfold id in *.
  - rewrite add_then_remove by done.
    rewrite bool_decide_eq_false_2 by (by apply (Hrooms room)).
    rewrite insert_insert_eq. by apply insert_id.
  - rewrite add_then_remove by done.
    rewrite bool_decide_eq_true_2 by done.
    rewrite delete_insert_eq. by apply delete_id.
Qed.

End SocketRooms.

Section RoomNames.

Lemma append_cons c (s t : string) : String c s +:+ t = String c (s +:+ t).
Proof. reflexivity. Qed.

Lemma append_empty (s : string) : s +:+ "" = s.
Proof.
  induction s as [|a s IH]; [done|]. by rewrite append_cons, IH.
Qed.

Lemma append_last (cur : string) c rest :
  (cur +:+ String c "") +:+ rest = cur +:+ String c rest.
Proof.
  induction cur as [|a cur IH]; [done|]. by rewrite !append_cons, IH.
Qed.

(** The first segment of [a +:+ rest] when [a] has no colon and [rest] is
    empty or starts with one. *)
Lemma split_colon_aux_free a cur :
  colon_free a = true →
  split_colon_aux a cur = [cur +:+ a]
  ∧ ∀ b, ∃ segments,
      split_colon_aux (a +:+ String ":" b) cur = (cur +:+ a) :: segments.
Proof.
  revert cur. induction a as [|c a IH]; intros cur Ha.
  - rewrite append_empty. split; [done|]. intros b.
    change ("" +:+ String ":" b) with (String ":" b). cbn. eauto.
  - cbn in Ha. apply andb_true_iff in Ha as [Hc Ha].
    apply negb_true_iff in Hc.
    destruct (IH (cur +:+ String c "") Ha) as [IH1 IH2].
    rewrite append_last in IH1. split.
    + cbn. by rewrite Hc.
    + intros b. destruct (IH2 b) as [segments Hb].
      rewrite append_last in Hb. rewrite append_cons. cbn. rewrite Hc. eauto.
Qed.

(** X7.  For a challenge id without a colon the room name starts with
    [challenge:] and [room_challengeId] gives the id back; when a colon and
    more text follow the id, it still gives the part before the colon only. *)
Theorem room_names_round_trip challengeId :
  colon_free challengeId = true →
  String.prefix "challenge:" (challenge_room challengeId) = true
  ∧ room_challengeId (challenge_room challengeId) = VString challengeId
  ∧ ∀ rest,
      room_challengeId (challenge_room (challengeId +:+ String ":" rest))
      = VString challengeId.
Proof.
  intros Hfree. destruct (split_colon_aux_free challengeId "" Hfree)
    as [Hwhole Hfirst].
  unfold room_challengeId, split_colon, challenge_room.
  rewrite !append_cons. change ("" +:+ ?s) with s in *.
  split; [cbn; by destruct challengeId|]. cbn.
  split.
  - by rewrite Hwhole.
  - intros rest. rewrite !append_cons. change ("" +:+ ?s) with s. cbn.
    destruct (Hfirst rest) as [segments ->]. done.
Qed.

End RoomNames.

Lemma room_names_round_trip_witness :
  String.prefix "challenge:" (challenge_room "42") = true
  ∧ room_challengeId (challenge_room "42") = VString "42"
  ∧ ∀ rest,
      room_challengeId (challenge_room ("42" +:+ String ":" rest))
      = VString "42".
Proof. apply (room_names_round_trip "42"). reflexivity. Defined.

Lemma leaving_undoes_joining_witness :
  (leave_challenge 4 (viewer 13) "42"
     (join_challenge 4 (viewer 13) "42" two_viewers).1).1 = two_viewers.
Proof.
  apply (leaving_undoes_joining 4 (viewer 13) "42" two_viewers).
  - unfold two_viewers. intros room sockets.
    rewrite lookup_insert. case_decide; [by intros [= <-]|].
    apply (after_events_inhabited _ ∅). intros ? ?. by rewrite lookup_empty.
  - vm_compute. discriminate.
Defined.

(** ** Averages and percentages *)

Section ScoredFacts.
Context {T : Type} `{JsNumber T}.

Lemma upsert_scored id uid p s now (rs rs' : list (Rating T)) :
  scored rs → upsert_rating id uid p s now rs = Some rs' →
  scored rs'
  ∧ ∃ r, r ∈ ratings_of id (Some p) rs'.
Proof.
  intros Hrs Hup.
  assert (valid_score s = true) as Hs.
  { unfold upsert_rating in Hup. by destruct (valid_score s). }
  destruct (upsert_cases _ _ _ _ _ _ _ Hup)
    as [(i & r & _ & Hi & (Hid & Hu & Hp) & ->)|(_ & _ & ->)].
  - split.
    + apply Forall_insert; done.
    + exists (rescore s now r). apply list_elem_of_filter. split.
      * simpl. split; [done|by rewrite Hp].
      * apply list_elem_of_lookup. exists i.
        apply list_lookup_insert_eq. by eapply lookup_lt_Some.
  - split.
    + apply Forall_app. split; [done|]. by repeat constructor.
    + exists (new_rating id uid p s now). apply list_elem_of_filter.
      split; [done|]. apply elem_of_app. right. apply list_elem_of_here.
Qed.

Lemma scored_ratings_of id p (rs : list (Rating T)) :
  scored rs → scored (ratings_of id p rs).
Proof.
  intros Hrs. apply Forall_forall. intros r [_ Hr]%list_elem_of_filter.
  by apply (proj1 (Forall_forall _ _) Hrs).
Qed.

End ScoredFacts.

Section Averages.
Local Open Scope Q_scope.

Lemma exact_average_bounds (rs : list (Rating Q)) :
  scored rs → (0 < length rs)%nat →
  1 <= sum_scores rs / js_of_nat (length rs)
  ∧ sum_scores rs / js_of_nat (length rs) <= 5.
Proof.
  intros Hrs Hlen. destruct (exact_sum_bounds rs Hrs) as [Hlo Hhi].
  cbn [js_of_nat Exact].
  assert (0 < inject_Z (Z.of_nat (length rs))) as Hpos.
  { change 0 with (inject_Z 0). rewrite <- Zlt_Qlt. lia. }
  split.
  - apply Qle_shift_div_l; [done|]. by rewrite Qmult_1_l.
  - apply Qle_shift_div_r; [done|]. done.
Qed.

Lemma average_on_scale (l : list (Rating Q)) :
  scored l →
  if Nat.eqb (length l) 0
  then (if Nat.ltb 0 (length l)
        then js_div (sum_scores l) (js_of_nat (length l)) else js_of_nat 0) == 0
  else 1 <= (if Nat.ltb 0 (length l)
             then js_div (sum_scores l) (js_of_nat (length l)) else js_of_nat 0)
       ∧ (if Nat.ltb 0 (length l)
          then js_div (sum_scores l) (js_of_nat (length l)) else js_of_nat 0)
         <= 5.
Proof.
  intros Hl. destruct l as [|r l]; [reflexivity|].
  change (Nat.eqb (length (r :: l)) 0) with false.
  change (Nat.ltb 0 (length (r :: l))) with true.
  apply (exact_average_bounds (r :: l) Hl). cbn. lia.
Qed.

(** X8.  With exact arithmetic, when every stored score is between 1 and 5,
    this still holds after a successful [submitRating], and the virtuals
    [creatorAvgRating] and [opponentAvgRating] of the rated challenge are 0
    for a competitor without ratings and between 1 and 5 otherwise. *)
Theorem averages_stay_on_the_scale uid id p s now (db db' : DB Q) http :
  scored (Ratings db) →
  submitRating uid id p s now db = (Success http, db') →
  scored (Ratings db')
  ∧ ∃ c', Challenges db' !! id = Some c'
      ∧ (if Nat.eqb (creatorRatingCount c') 0
         then creatorAvgRating c' == 0
         else 1 <= creatorAvgRating c' ∧ creatorAvgRating c' <= 5)
      ∧ (if Nat.eqb (opponentRatingCount c') 0
         then opponentAvgRating c' == 0
         else 1 <= opponentAvgRating c' ∧ opponentAvgRating c' <= 5).
Proof.
  intros Hdb Hrun.
  destruct (submitRating_success _ _ _ _ _ _ _ _ Hrun)
    as (c & rs & Hc & _ & _ & Hup & Hrs & Hcs).
  destruct (upsert_scored _ _ _ _ _ _ _ Hdb Hup) as [Hscored _].
  rewrite Hrs, Hcs. split; [done|].
  eexists. split; [apply lookup_insert_eq|].
  unfold creatorAvgRating, opponentAvgRating.
  cbn [creatorRatingCount creatorRatingSum opponentRatingCount
       opponentRatingSum set_rating_stats].
  split; apply average_on_scale; by apply scored_ratings_of.
Qed.

End Averages.

Lemma averages_stay_on_the_scale_witness :
  scored (Ratings (submitRating (T:=Q) 12 7 1 3%Q 70 db100).2)
  ∧ ∃ c', Challenges (submitRating (T:=Q) 12 7 1 3%Q 70 db100).2 !! 7 = Some c'
      ∧ (if Nat.eqb (creatorRatingCount c') 0
         then creatorAvgRating c' == 0
         else 1 <= creatorAvgRating c' ∧ creatorAvgRating c' <= 5)%Q
      ∧ (if Nat.eqb (opponentRatingCount c') 0
         then opponentAvgRating c' == 0
         else 1 <= opponentAvgRating c' ∧ opponentAvgRating c' <= 5)%Q.
Proof.
  apply (averages_stay_on_the_scale 12 7 1 3%Q 70 db100 _ 201).
  - repeat (apply List.Forall_cons; [vm_compute; reflexivity|]).
    apply List.Forall_nil.
  - vm_compute. reflexivity.
Defined.

Section Summaries.
Context {T : Type} `{JsNumber T}.

(** X9.  In any arithmetic, after a successful [submitRating] the two
    revisions of [getChallengeRatings] answer 200 for the rated challenge
    with the same scores, counts, averages and number of ratings, which is
    not zero.  The revision of the challenge controller answers with the
    percentages [score / (creatorRatingSum + opponentRatingSum) * 100]; the
    revision of the rating controller gives the same answer when that sum
    of the two sums is positive, and the percentages 0 when it is not. *)
Theorem rating_summaries_agree uid id p s now (db db' : DB T) http :
  submitRating uid id p s now db = (Success http, db') →
  ∃ c' s1 s2,
    Challenges db' !! id = Some c'
    ∧ challenge_controller.getChallengeRatings id db' = (Success 200, Some s1)
    ∧ rating_controller.getChallengeRatings id db' = (Success 200, Some s2)
    ∧ 0 < ratings_total s1
    ∧ ratings_total s2 = ratings_total s1
    ∧ totalScore (of_creator s2) = totalScore (of_creator s1)
    ∧ totalScore (of_opponent s2) = totalScore (of_opponent s1)
    ∧ count (of_creator s2) = count (of_creator s1)
    ∧ count (of_opponent s2) = count (of_opponent s1)
    ∧ average (of_creator s2) = average (of_creator s1)
    ∧ average (of_opponent s2) = average (of_opponent s1)
    ∧ share (of_creator s1)
      = js_mul (js_div (creatorRatingSum c')
                  (js_add (creatorRatingSum c') (opponentRatingSum c')))
          (js_of_nat 100)
    ∧ share (of_opponent s1)
      = js_mul (js_div (opponentRatingSum c')
                  (js_add (creatorRatingSum c') (opponentRatingSum c')))
          (js_of_nat 100)
    ∧ (if js_lt (js_of_nat 0)
            (js_add (creatorRatingSum c') (opponentRatingSum c'))
       then s2 = s1
       else share (of_creator s2) = js_of_nat 0
            ∧ share (of_opponent s2) = js_of_nat 0).
Proof.
  intros Hrun.
  destruct (submitRating_success _ _ _ _ _ _ _ _ Hrun)
    as (c & rs & Hc & _ & Hp & Hup & Hrs & Hcs).
  assert (∃ r, r ∈ ratings_of id (Some p) rs) as [r Hr].
  { destruct (upsert_cases _ _ _ _ _ _ _ Hup)
      as [(i & r & _ & Hi & (Hid & Hu & Hrp) & ->)|(_ & _ & ->)].
    - exists (rescore s now r). apply list_elem_of_filter. split.
      + simpl. split; [done|by rewrite Hrp].
      + apply list_elem_of_lookup. exists i.
        apply list_lookup_insert_eq. by eapply lookup_lt_Some.
    - exists (new_rating id uid p s now). apply list_elem_of_filter.
      split; [done|]. apply elem_of_app. right. apply list_elem_of_here. }
  unfold challenge_controller.getChallengeRatings,
    rating_controller.getChallengeRatings.
  rewrite Hcs, lookup_insert_eq.
  cbn [creatorRatingCount creatorRatingSum opponentRatingCount
       opponentRatingSum totalRatings set_rating_stats].
  set (cs := ratings_of id (Some (creator c)) rs).
  set (os := ratings_of id (opponent c) rs).
  assert (r ∈ cs ∨ r ∈ os) as Hin.
  { unfold rated_is_participant in Hp.
    case_bool_decide as Hpc; [left; subst cs; by rewrite <- Hpc|].
    destruct (opponent c) as [o|]; [|done].
    right. subst os. simplify_eq.
    match goal with Hb : bool_decide _ = true |- _ =>
      apply bool_decide_eq_true in Hb; by rewrite <- Hb end. }
  assert (0 < length cs + length os) as Hlen.
  { destruct Hin as [Hin|Hin];
      [destruct cs|destruct os]; try (by apply elem_of_nil in Hin); cbn; lia. }
  assert (Nat.ltb 0 (length cs + length os) = true) as Hguard
    by (by apply Nat.ltb_lt).
  eexists _, _, _. split; [reflexivity|].
  split; [reflexivity|]. split; [reflexivity|].
  cbn [share of_creator of_opponent totalScore count average ratings_total].
  rewrite Hguard. split_and!; try done.
  by destruct (js_lt _ _).
Qed.

End Summaries.

Lemma rating_summaries_agree_witness :
  ∃ c' s1 s2,
    Challenges (submitRating (T:=float) 12 7 1 3%float 70 db100).2 !! 7 = Some c'
    ∧ challenge_controller.getChallengeRatings 7
        (submitRating (T:=float) 12 7 1 3%float 70 db100).2
      = (Success 200, Some s1)
    ∧ rating_controller.getChallengeRatings 7
        (submitRating (T:=float) 12 7 1 3%float 70 db100).2
      = (Success 200, Some s2)
    ∧ 0 < ratings_total s1
    ∧ ratings_total s2 = ratings_total s1
    ∧ totalScore (of_creator s2) = totalScore (of_creator s1)
    ∧ totalScore (of_opponent s2) = totalScore (of_opponent s1)
    ∧ count (of_creator s2) = count (of_creator s1)
    ∧ count (of_opponent s2) = count (of_opponent s1)
    ∧ average (of_creator s2) = average (of_creator s1)
    ∧ average (of_opponent s2) = average (of_opponent s1)
    ∧ share (of_creator s1)
      = js_mul (js_div (creatorRatingSum c')
                  (js_add (creatorRatingSum c') (opponentRatingSum c')))
          (js_of_nat 100)
    ∧ share (of_opponent s1)
      = js_mul (js_div (opponentRatingSum c')
                  (js_add (creatorRatingSum c') (opponentRatingSum c')))
          (js_of_nat 100)
    ∧ (if js_lt (js_of_nat 0)
            (js_add (creatorRatingSum c') (opponentRatingSum c'))
       then s2 = s1
       else share (of_creator s2) = js_of_nat 0
            ∧ share (of_opponent s2) = js_of_nat 0).
Proof.
  apply (rating_summaries_agree 12 7 1 3%float 70 db100 _ 201).
  vm_compute. reflexivity.
Defined.

(** The percentages of the worked scenario after one more rating, in
    binary64: 12 of 15 points and 3 of 15. *)
Example db100_percentages :
  (λ a, (fmap (M:=option) (λ s, (share (of_creator s), share (of_opponent s))) a.2))
    (rating_controller.getChallengeRatings 7
       (submitRating (T:=float) 12 7 1 3%float 70 db100).2)
  = Some (80%float, 20%float).
Proof. vm_compute. reflexivity. Qed.

(** ** Join requests *)

Section JoinFacts.
Context {T : Type} `{JsNumber T}.
Variable decrypt : string -> option string.
Implicit Types (s : Site T) (i : ChallengeInvitation).

(** What a successful [requestToJoin] has checked and written. *)
Lemma requestToJoin_success uid id message now s s' http :
  requestToJoin uid id message now s = (Sent http, s') →
  ∃ c, Challenges (base s) !! id = Some c
    ∧ creator c ≠ uid ∧ status c = pending ∧ opponent c = None
    ∧ fits (default "" message) = true
    ∧ (∀ i, i ∈ Invitations s → ¬ (i_challenge i = id ∧ invitee i = creator c))
    ∧ http = 201
    ∧ base s' = base s
    ∧ Invitations s'
      = Invitations s ++
          [ {| i_challenge := id; inviter := uid; invitee := creator c;
               i_status := inv_pending; i_message := default "" message;
               responseMessage := None; respondedAt := None;
               expiresAt := now + invitation_lifetime |} ].
Proof.
  unfold requestToJoin. intros Hrun.
  destruct (Challenges (base s) !! id) as [c|] eqn:Hc; [|done].
  exists c. split; [done|].
  destruct (bool_decide (creator c = uid)) eqn:Hcr; [done|].
  apply bool_decide_eq_false in Hcr.
  destruct (bool_decide (status c = pending)) eqn:Hst; simpl in Hrun; [|done].
  apply bool_decide_eq_true in Hst.
  destruct (bool_decide (is_Some (opponent c))) eqn:Hop; [done|].
  apply bool_decide_eq_false in Hop.
  destruct (bool_decide (Exists _ _)) eqn:Hreq in Hrun; [done|].
  destruct (fits (default "" message)) eqn:Hfits; simpl in Hrun; [|done].
  destruct (bool_decide (Exists _ _)) eqn:Hdup in Hrun; [done|].
  apply bool_decide_eq_false in Hdup.
  simplify_eq. repeat split; try done.
  - destruct (opponent c); [|done]. exfalso. eauto.
  - intros i Hi Hi'. apply Hdup. apply Exists_exists. eauto.
Qed.

(** A refused [requestToJoin] writes nothing. *)
Lemma requestToJoin_refused uid id message now s s' http code :
  requestToJoin uid id message now s = (Denied http code, s') → s' = s.
Proof.
  unfold requestToJoin. intros Hrun. repeat case_match; by simplify_eq.
Qed.

(** What [acceptRejectJoinRequest] leaves of the invitations and of the
    challenges. *)
Lemma acceptRejectJoinRequest_writes uid id userId action message now s s' r :
  acceptRejectJoinRequest uid id userId action message now s = (r, s') →
  (base s' = base s
   ∨ ∃ c, Challenges (base s) !! id = Some c ∧ creator c = uid
       ∧ base s' = with_challenge id (accept_opponent userId c) (base s))
  ∧ (Invitations s' = Invitations s
     ∨ ∃ k i st, Invitations s !! k = Some i
         ∧ Invitations s' = <[k := respond st message now i]> (Invitations s)).
Proof.
  unfold acceptRejectJoinRequest. intros Hrun.
  destruct (Challenges (base s) !! id) as [c|] eqn:Hc;
    [|repeat case_match; simplify_eq; auto].
  repeat case_match; simplify_eq; cbn [base Invitations with_base]; auto.
  all: try match goal with
       | Hfind : list_find _ _ = Some _ |- _ =>
         apply list_find_Some in Hfind as (Hat & _ & _)
       end.
  all: try match goal with
       | Hcr : negb (bool_decide (creator _ = _)) = false |- _ =>
         apply negb_false_iff, bool_decide_eq_true in Hcr
       end.
  all: split; [eauto 10|eauto 10].
Qed.

Lemma lookup_respond (l : list ChallengeInvitation) k i0 st message now i :
  l !! k = Some i0 →
  i ∈ <[k := respond st message now i0]> l →
  ∃ i1, i1 ∈ l ∧ i_challenge i = i_challenge i1 ∧ invitee i = invitee i1
        ∧ inviter i = inviter i1.
Proof.
  intros Hk (j & Hj)%list_elem_of_lookup.
  destruct (decide (k = j)) as [->|Hne].
  - rewrite list_lookup_insert_eq in Hj by (by eapply lookup_lt_Some).
    simplify_eq. exists i0. split; [by eapply list_elem_of_lookup_2|done].
  - rewrite list_lookup_insert_ne in Hj by done.
    exists i. split; [by eapply list_elem_of_lookup_2|done].
Qed.

Lemma respond_kept (l : list ChallengeInvitation) k i0 st message now i :
  l !! k = Some i0 → i ∈ l →
  ∃ i1, i1 ∈ <[k := respond st message now i0]> l
        ∧ i_challenge i1 = i_challenge i ∧ invitee i1 = invitee i.
Proof.
  intros Hk (j & Hj)%list_elem_of_lookup.
  destruct (decide (k = j)) as [->|Hne].
  - assert (i0 = i) as -> by congruence.
    exists (respond st message now i). split; [|done].
    apply list_elem_of_lookup. exists j.
    apply list_lookup_insert_eq. by eapply lookup_lt_Some.
  - exists i. split; [|done]. apply list_elem_of_lookup. exists j.
    by rewrite list_lookup_insert_ne.
Qed.

(** The creator of a challenge stays, and so does a join request sent to
    them, whatever is served. *)
Lemma step_requested id owner s s' :
  site_step decrypt s s' → requested id owner s → requested id owner s'.
Proof.
  intros Hstep [(c & Hc & Howner) Hinv]. unfold requested.
  destruct Hstep as [req s r db' Hrun|uid id0 message now s r s' Hrun
                    |uid id0 userId action message now s r s' Hrun].
  - split; [|done]. cbn.
    destruct (handle_step decrypt _ _ _ _ _ _ Hrun Hc)
      as (c' & Hc' & (Hcr & _) & _).
    exists c'. split; [done|congruence].
  - destruct r as [http|http code].
    + destruct (requestToJoin_success _ _ _ _ _ _ _ Hrun)
        as (c0 & _ & _ & _ & _ & _ & _ & _ & Hbase & Hinvs).
      rewrite Hbase, Hinvs. split; [eauto|].
      apply Exists_app. by left.
    + apply requestToJoin_refused in Hrun as ->. split; eauto.
  - destruct (acceptRejectJoinRequest_writes _ _ _ _ _ _ _ _ _ Hrun)
      as [Hbase Hinvs].
    split.
    + destruct Hbase as [->|(c0 & Hc0 & Hcr0 & ->)]; [eauto|].
      cbn. rewrite lookup_insert. case_decide; [|eauto].
      simplify_eq. eexists. split; [done|]. done.
    + destruct Hinvs as [->|(k & i0 & st & Hk & ->)]; [done|].
      apply Exists_exists in Hinv as (i & Hi & Hid & Hto).
      destruct (respond_kept _ _ _ st message now _ Hk Hi)
        as (i1 & Hi1 & Hid1 & Hto1).
      apply Exists_exists. exists i1. split; [done|]. split; congruence.
Qed.

Lemma run_requested id owner s s' :
  rtc (site_step decrypt) s s' → requested id owner s → requested id owner s'.
Proof. induction 1; eauto using step_requested. Qed.

(** Once its creator has been sent a join request, a challenge takes no
    other. *)
Lemma requested_refuses id owner s uid message now :
  requested id owner s →
  ∃ http code,
    requestToJoin uid id message now s = (Denied http code, s).
Proof.
  intros [(c & Hc & Howner) Hinv]. unfold requestToJoin. rewrite Hc.
  repeat case_match; eauto.
  match goal with
  | Hno : bool_decide (Exists _ (Invitations s)) = false |- _ =>
    apply bool_decide_eq_false in Hno; destruct Hno
  end.
  by rewrite Howner.
Qed.

(** X10.  Once a [requestToJoin] for a challenge has been answered 201, every
    later [requestToJoin] for that challenge, by any user and after any
    requests in between, is refused and writes nothing. *)
Theorem one_join_request_per_challenge
    uid id message now s s1 s2 http uid' message' now' :
  requestToJoin uid id message now s = (Sent http, s1) →
  rtc (site_step decrypt) s1 s2 →
  ∃ http' code,
    requestToJoin uid' id message' now' s2 = (Denied http' code, s2).
Proof.
  intros Hjoin Hrun.
  destruct (requestToJoin_success _ _ _ _ _ _ _ Hjoin)
    as (c & Hc & _ & _ & _ & _ & _ & _ & Hbase & Hinvs).
  apply (requested_refuses id (creator c)).
  apply (run_requested _ _ s1); [done|]. split.
  - rewrite Hbase. eauto.
  - rewrite Hinvs. apply Exists_app. right. by repeat constructor.
Qed.

End JoinFacts.

Lemma one_join_request_per_challenge_witness :
  ∃ http' code,
    requestToJoin 11 7 None 30
      (acceptRejectJoinRequest 1 7 10 "reject" None 20
         (requestToJoin 10 7 None 10 (lobby (T:=float))).2).2
    = (Denied http' code,
       (acceptRejectJoinRequest 1 7 10 "reject" None 20
          (requestToJoin 10 7 None 10 (lobby (T:=float))).2).2).
Proof.
  apply (one_join_request_per_challenge (T:=float) Some 10 7 None 10 lobby
           (requestToJoin 10 7 None 10 (lobby (T:=float))).2 _ 201).
  - reflexivity.
  - apply rtc_once.
    apply (step_respond Some 1 7 10 "reject" None 20 _ (Sent 200)).
    reflexivity.
Defined.

Section JoinFlow.
Context {T : Type} `{JsNumber T}.
Variable decrypt : string -> option string.
Implicit Types (s : Site T) (i : ChallengeInvitation).

Lemma step_addressed s s' :
  site_step decrypt s s' → addressed s → addressed s'.
Proof.
  intros Hstep Hs. unfold addressed.
  destruct Hstep as [req s r db' Hrun|uid id0 message now s r s' Hrun
                    |uid id0 userId action message now s r s' Hrun].
  - cbn. intros i Hi. destruct (Hs i Hi) as (c & Hc & Hto).
    destruct (handle_step decrypt _ _ _ _ _ _ Hrun Hc)
      as (c' & Hc' & (Hcr & _) & _).
    exists c'. split; [done|congruence].
  - destruct r as [http|http code].
    + destruct (requestToJoin_success _ _ _ _ _ _ _ Hrun)
        as (c0 & Hc0 & _ & _ & _ & _ & _ & _ & Hbase & Hinvs).
      rewrite Hbase, Hinvs. intros i [Hi|Hi]%elem_of_app; [by apply Hs|].
      apply list_elem_of_singleton in Hi as ->. cbn. eauto.
    + by apply requestToJoin_refused in Hrun as ->.
  - destruct (acceptRejectJoinRequest_writes _ _ _ _ _ _ _ _ _ Hrun)
      as [Hbase Hinvs].
    intros i Hi.
    assert (∃ i1, i1 ∈ Invitations s ∧ i_challenge i = i_challenge i1
                  ∧ invitee i = invitee i1) as (i1 & Hi1 & -> & ->).
    { destruct Hinvs as [Heq|(k & i0 & st & Hk & Heq)]; rewrite Heq in Hi.
      - by exists i.
      - destruct (lookup_respond _ _ _ _ _ _ _ Hk Hi) as (i1 & ? & ? & ? & _).
        by exists i1. }
    destruct (Hs i1 Hi1) as (c & Hc & Hto).
    destruct Hbase as [->|(c0 & Hc0 & Hcr0 & ->)]; [eauto|].
    cbn. rewrite lookup_insert. case_decide; [|eauto].
    simplify_eq. eexists. split; [done|]. done.
Qed.

Lemma run_addressed s s' :
  rtc (site_step decrypt) s s' → addressed s → addressed s'.
Proof. induction 1; eauto using step_addressed. Qed.

(** X11.  Starting without invitations, no [requestToJoin] is ever answered
    409 [ALREADY_REQUESTED]: the pending request is looked up by [invitee],
    and the invitee stored with a request is the creator of the challenge. *)
Theorem pending_requests_are_never_recognised s0 s uid id message now :
  Invitations s0 = [] →
  rtc (site_step decrypt) s0 s →
  (requestToJoin uid id message now s).1 ≠ Denied 409 "ALREADY_REQUESTED".
Proof.
  intros Hempty Hrun.
  assert (addressed s) as Hs.
  { apply (run_addressed s0); [done|]. intros i. rewrite Hempty.
    by intros ?%elem_of_nil. }
  unfold requestToJoin.
  destruct (Challenges (base s) !! id) as [c|] eqn:Hc; [|done].
  destruct (bool_decide (creator c = uid)) eqn:Hcr; [done|].
  apply bool_decide_eq_false in Hcr.
  destruct (negb _); [done|]. destruct (bool_decide (is_Some _)); [done|].
  destruct (bool_decide (Exists _ _)) eqn:Hreq.
  - apply bool_decide_eq_true, Exists_exists in Hreq
      as (i & Hi & Hid & Hto & _).
    destruct (Hs i Hi) as (c' & Hc' & Hto'). congruence.
  - repeat case_match; cbn; done.
Qed.

(** X12.  After a [requestToJoin] answered 201, the creator's [accept] for
    the requester, with a message of at most 500 characters, is answered
    200: the requester becomes the opponent, the status is [scheduled] or
    [pending], and the invitation is marked accepted. *)
Theorem accepted_request_seats_the_requester
    uid id message now s s1 http reply now' :
  requestToJoin uid id message now s = (Sent http, s1) →
  fits (default "" reply) = true →
  ∃ c s2 c2,
    Challenges (base s) !! id = Some c
    ∧ acceptRejectJoinRequest (creator c) id uid "accept" reply now' s1
      = (Sent 200, s2)
    ∧ Challenges (base s2) !! id = Some c2
    ∧ c2 = accept_opponent uid c
    ∧ opponent c2 = Some uid
    ∧ (status c2 = pending ∨ status c2 = scheduled)
    ∧ ∃ k i, Invitations s2 !! k = Some i
        ∧ i_challenge i = id ∧ inviter i = uid ∧ i_status i = inv_accepted.
Proof.
  intros Hjoin Hfits.
  destruct (requestToJoin_success _ _ _ _ _ _ _ Hjoin)
    as (c & Hc & _ & _ & _ & _ & _ & _ & Hbase & Hinvs).
  exists c. unfold acceptRejectJoinRequest.
  rewrite bool_decide_eq_true_2 by (apply list_elem_of_here).
  rewrite Hbase, Hc. cbn [negb].
  rewrite bool_decide_eq_true_2 by done. cbn [negb].
  destruct (list_find _ (Invitations s1)) as [[k i]|] eqn:Hfind.
  - apply list_find_Some in Hfind as (Hk & (Hid & Hfrom & Hst) & _).
    rewrite bool_decide_eq_true_2 by done. rewrite Hfits. cbn [negb].
    eexists _, _. split; [done|]. split; [done|].
    cbn [base with_base]. split; [apply lookup_with_challenge|].
    split; [done|]. split; [done|].
    split; [cbn; destruct (scheduledTime c); auto|].
    exists k, (respond inv_accepted reply now' i).
    split; [|done]. cbn [Invitations with_base].
    apply list_lookup_insert_eq. by eapply lookup_lt_Some.
  - exfalso. apply list_find_None in Hfind. rewrite Hinvs in Hfind.
    apply Forall_app in Hfind as [_ Hlast].
    apply Forall_cons in Hlast as [Hlast _]. by apply Hlast.
Qed.

(** X13.  A join request accepted after the challenge was cancelled is
    answered 200 and takes the challenge out of [cancelled]: the requester
    becomes the opponent and the status [scheduled] or [pending]. *)
Theorem accepting_revives_a_cancelled_challenge
    uid id message now s s1 http owner urole db2 http2 reply now' :
  requestToJoin uid id message now s = (Sent http, s1) →
  cancelChallenge owner urole id (base s1) = (Success http2, db2) →
  fits (default "" reply) = true →
  ∃ c c2 s3 c3,
    Challenges (base s) !! id = Some c
    ∧ Challenges db2 !! id = Some c2 ∧ status c2 = cancelled
    ∧ acceptRejectJoinRequest (creator c) id uid "accept" reply now'
        (with_base db2 s1) = (Sent 200, s3)
    ∧ Challenges (base s3) !! id = Some c3
    ∧ opponent c3 = Some uid
    ∧ status c3 = match scheduledTime c with
                  | Some _ => scheduled
                  | None => pending
                  end.
Proof.
  intros Hjoin Hcancel Hfits.
  destruct (requestToJoin_success _ _ _ _ _ _ _ Hjoin)
    as (c & Hc & _ & Hpending & _ & _ & _ & _ & Hbase & Hinvs).
  rewrite Hbase in Hcancel.
  assert (db2 = with_challenge id (set_status cancelled c) (base s)) as ->.
  { revert Hcancel. unfold cancelChallenge. rewrite Hc.
    intros Hcancel. repeat case_match; by simplify_eq. }
  exists c, (set_status cancelled c). unfold acceptRejectJoinRequest.
  rewrite bool_decide_eq_true_2 by (apply list_elem_of_here).
  cbn [base with_base negb]. rewrite lookup_with_challenge.
  cbn [creator set_status].
  rewrite bool_decide_eq_true_2 by done.
  cbn [negb base with_base Invitations Notifications].
  destruct (list_find _ (Invitations s1)) as [[k i]|] eqn:Hfind.
  - rewrite bool_decide_eq_true_2 by done. rewrite Hfits. cbn [negb].
    eexists _, _. split; [done|]. split; [done|]. split; [done|].
    split; [reflexivity|].
    cbn [base]. split; [apply lookup_with_challenge|].
    split; done.
  - exfalso. apply list_find_None in Hfind. rewrite Hinvs in Hfind.
    apply Forall_app in Hfind as [_ Hlast].
    apply Forall_cons in Hlast as [Hlast _]. by apply Hlast.
Qed.

End JoinFlow.

Lemma pending_requests_are_never_recognised_witness :
  ∃ r,
    (requestToJoin (T:=float) 10 7 None 20
       (requestToJoin 10 7 None 10 lobby).2).1 = r
    ∧ r ≠ Denied 409 "ALREADY_REQUESTED".
Proof.
  eexists. split; [reflexivity|].
  apply (pending_requests_are_never_recognised (T:=float) Some lobby
           (requestToJoin 10 7 None 10 lobby).2 10 7 None 20).
  - reflexivity.
  - apply rtc_once. apply (step_join Some 10 7 None 10 _ (Sent 201)).
    reflexivity.
Defined.

Lemma accepted_request_seats_the_requester_witness :
  ∃ c s2 c2,
    Challenges (base (lobby (T:=float))) !! 7 = Some c
    ∧ acceptRejectJoinRequest (creator c) 7 10 "accept" None 20
        (requestToJoin 10 7 None 10 lobby).2
      = (Sent 200, s2)
    ∧ Challenges (base s2) !! 7 = Some c2
    ∧ c2 = accept_opponent 10 c
    ∧ opponent c2 = Some 10
    ∧ (status c2 = pending ∨ status c2 = scheduled)
    ∧ ∃ k i, Invitations s2 !! k = Some i
        ∧ i_challenge i = 7 ∧ inviter i = 10 ∧ i_status i = inv_accepted.
Proof.
  apply (accepted_request_seats_the_requester (T:=float) 10 7 None 10 lobby
           _ 201 None 20).
  - reflexivity.
  - reflexivity.
Defined.

Lemma accepting_revives_a_cancelled_challenge_witness :
  ∃ c c2 s3 c3,
    Challenges (base (lobby (T:=float))) !! 7 = Some c
    ∧ Challenges
        (cancelChallenge 1 user_role 7
           (base (requestToJoin 10 7 None 10 (lobby (T:=float))).2)).2 !! 7 = Some c2
    ∧ status c2 = cancelled
    ∧ acceptRejectJoinRequest (creator c) 7 10 "accept" None 30
        (with_base
           (cancelChallenge 1 user_role 7
              (base (requestToJoin 10 7 None 10 (lobby (T:=float))).2)).2
           (requestToJoin 10 7 None 10 (lobby (T:=float))).2)
      = (Sent 200, s3)
    ∧ Challenges (base s3) !! 7 = Some c3
    ∧ opponent c3 = Some 10
    ∧ status c3 = match scheduledTime c with
                  | Some _ => scheduled
                  | None => pending
                  end.
Proof.
  apply (accepting_revives_a_cancelled_challenge (T:=float) 10 7 None 10 lobby
           _ 201 1 user_role _ 200 None 30).
  - reflexivity.
  - reflexivity.
  - reflexivity.
Defined.

(** ** Comments and their pages *)

Section Windows.
Context {A : Type}.
Implicit Types (l : list A) (page limit : positive).

Lemma ceil_div_covers n m : 0 < m → n ≤ ceil_div n m * m.
Proof.
  intros Hm. unfold ceil_div.
  pose proof (Nat.div_mod_eq (n + m - 1) m) as Hdiv.
  pose proof (Nat.mod_upper_bound (n + m - 1) m) as Hmod. lia.
Qed.

(** The first [n] pages of size [m], one after the other. *)
Lemma chunks_take l m n :
  concat ((λ k, take m (drop (k * m) l)) <$> seq 0 n) = take (n * m) l.
Proof.
  induction n as [|n IH].
  - by rewrite take_0.
  - rewrite seq_S, fmap_app, concat_app, IH. cbn.
    rewrite app_nil_r, take_take_drop. f_equal. lia.
Qed.

Lemma window_chunk cap limit k l :
  Pos.to_nat limit ≤ cap →
  window cap (Pos.of_nat (S k)) limit l
  = take (Pos.to_nat limit) (drop (k * Pos.to_nat limit) l).
Proof.
  intros Hcap. unfold window, maxLimit_of, skip_of.
  rewrite Nat2Pos.id by done. rewrite Nat.min_l by done.
  do 2 f_equal. lia.
Qed.

Lemma pages_cover cap limit l :
  Pos.to_nat limit ≤ cap →
  concat ((λ page, window cap page limit l)
            <$> pages_upto (ceil_div (length l) (maxLimit_of cap limit)))
  = l.
Proof.
  intros Hcap. unfold pages_upto.
  set (n := ceil_div _ _). rewrite <- list_fmap_compose.
  rewrite <- (fmap_S_seq 0), <- list_fmap_compose.
  erewrite list_fmap_ext; [rewrite chunks_take|].
  - apply take_ge. subst n. unfold maxLimit_of. rewrite Nat.min_l by done.
    apply ceil_div_covers. lia.
  - intros i k _. cbn. by apply window_chunk.
Qed.

(** What a page shows: the items at positions [skip .. skip + maxLimit). *)
Lemma elem_of_window cap page limit l x :
  x ∈ window cap page limit l ↔
  ∃ j, j < maxLimit_of cap limit ∧ l !! (skip_of page limit + j) = Some x.
Proof.
  unfold window. rewrite elem_of_take. split.
  - intros (j & Hj & Hlt). rewrite lookup_drop in Hj. eauto.
  - intros (j & Hlt & Hj). exists j. by rewrite lookup_drop.
Qed.

Lemma beyond_the_cap cap page limit l i x :
  NoDup l → cap < Pos.to_nat limit →
  l !! i = Some x → cap ≤ i mod Pos.to_nat limit →
  x ∉ window cap page limit l.
Proof.
  intros Hl Hcap Hi Hmod (j & Hj & Hx)%elem_of_window.
  assert (skip_of page limit + j = i) as <- by (by eapply NoDup_lookup).
  unfold maxLimit_of, skip_of in *.
  rewrite Nat.add_comm, Nat.Div0.mod_add in Hmod.
  rewrite Nat.mod_small in Hmod by lia. lia.
Qed.

End Windows.

Section CommentFacts.
Context {T : Type}.
Variable trim : string -> string.
Implicit Types (b : Board T) (c : Comment).

Lemma NoDup_indexed {A} (l : list A) : NoDup (indexed l).
Proof.
  apply NoDup_alt. intros i j [k x] Hi Hj. unfold indexed in *.
  apply list_lookup_imap_Some in Hi as (y & _ & [= -> _]).
  apply list_lookup_imap_Some in Hj as (z & _ & [= -> _]). done.
Qed.

Lemma elem_of_indexed {A} (l : list A) i x :
  (i, x) ∈ indexed l ↔ l !! i = Some x.
Proof.
  unfold indexed. rewrite elem_of_lookup_imap. split.
  - by intros (j & y & [= -> ->] & Hy).
  - intros Hi. by exists i, x.
Qed.

Lemma filter_imap_length {A} (P : A → Prop) (Q : ObjectId * A → Prop)
    `{!∀ x, Decision (P x)} `{!∀ e, Decision (Q e)}
    (f : nat → A → ObjectId * A) (l : list A) :
  (∀ i x, Q (f i x) ↔ P x) →
  length (filter Q (imap f l)) = length (filter P l).
Proof.
  revert f. induction l as [|x l IH]; intros f Hf; [done|].
  rewrite imap_cons, !filter_cons.
  destruct (decide (P x)) as [Hx|Hx].
  - rewrite decide_True by (by apply Hf). cbn. rewrite IH; [done|].
    intros. apply Hf.
  - rewrite decide_False by (by rewrite Hf). apply IH. intros. apply Hf.
Qed.

Lemma length_visible_comments id b :
  length (visible_comments id b)
  = length (filter (λ c, c_challenge c = id ∧ isDeleted c = false) (Comments b)).
Proof.
  unfold visible_comments. rewrite merge_sort_Permutation.
  unfold indexed. by apply filter_imap_length.
Qed.

Lemma NoDup_visible_comments id b : NoDup (visible_comments id b).
Proof.
  unfold visible_comments. rewrite merge_sort_Permutation.
  apply NoDup_filter, NoDup_indexed.
Qed.

Lemma elem_of_visible_comments id b cid c :
  (cid, c) ∈ visible_comments id b ↔
  Comments b !! cid = Some c ∧ c_challenge c = id ∧ isDeleted c = false.
Proof.
  unfold visible_comments. rewrite merge_sort_Permutation.
  rewrite list_elem_of_filter, elem_of_indexed. cbn. tauto.
Qed.

(** The comments of a challenge are the deleted ones and the others. *)
Lemma comments_split id (l : list Comment) :
  length (filter (λ c, c_challenge c = id) l)
  = length (filter (λ c, c_challenge c = id ∧ isDeleted c = false) l)
    + length (filter (λ c, c_challenge c = id ∧ isDeleted c = true) l).
Proof.
  induction l as [|c l IH]; [done|]. rewrite !filter_cons.
  destruct (decide (c_challenge c = id)) as [Hid|Hid].
  - destruct (isDeleted c) eqn:Hdel.
    + rewrite decide_False by (intros [_ ?]; done).
      rewrite decide_True by done. cbn. lia.
    + rewrite decide_True by done.
      rewrite decide_False by (intros [_ ?]; done). cbn. lia.
  - rewrite !decide_False by tauto. done.
Qed.

Lemma postComment_counted uid id content now b b' r :
  counted b → postComment trim uid id content now b = (r, b') → counted b'.
Proof.
  unfold postComment. intros Hb Hrun.
  repeat case_match; simplify_eq; try done.
  intros id'. cbn [Comments TotalComments]. rewrite filter_app, length_app.
  rewrite lookup_insert, filter_cons, filter_nil. cbn [c_challenge].
  destruct (decide (id = id')) as [->|Hne]; cbn.
  - rewrite Hb. done.
  - rewrite Hb. lia.
Qed.

Lemma deleteComment_counted uid urole cid b b' r :
  counted b → deleteComment uid urole cid b = (r, b') → counted b'.
Proof.
  unfold deleteComment. intros Hb Hrun.
  destruct (Comments b !! cid) as [c|] eqn:Hc; [|by simplify_eq].
  repeat case_match; simplify_eq; try done.
  intros id. cbn [Comments TotalComments]. rewrite Hb.
  symmetry. by apply filter_insert_length with c.
Qed.

(** X14.  When the [totalComments] of every challenge is the number of its
    comment documents, [postComment] and [deleteComment] keep it so;
    [deleteComment] leaves the counter alone, so the counter is the [total]
    of the listing plus the number of deleted comments. *)
Theorem total_comments_counts_deleted_comments b :
  counted b →
  (∀ uid id content now r b',
     postComment trim uid id content now b = (r, b') → counted b')
  ∧ (∀ uid urole cid r b',
       deleteComment uid urole cid b = (r, b') →
       counted b' ∧ TotalComments b' = TotalComments b)
  ∧ ∀ id page limit,
      default 0 (TotalComments b !! id)
      = p_total (pagination (getChallengeComments id page limit b))
        + length (filter (λ c, c_challenge c = id ∧ isDeleted c = true)
                    (Comments b)).
Proof.
  intros Hb. split; [|split].
  - intros. by eapply postComment_counted.
  - intros uid urole cid r b' Hrun. split; [by eapply deleteComment_counted|].
    revert Hrun. unfold deleteComment. intros Hrun.
    repeat case_match; by simplify_eq.
  - intros id page limit. cbn. rewrite Hb. apply comments_split.
Qed.

(** X15.  After a successful [deleteComment] the comment is on no page of any
    listing; its document is kept with [isDeleted] set and the other comments
    are untouched.  Only the author or an admin gets this far, and the same
    request once more is answered 200 and changes nothing. *)
Theorem deleted_comments_are_not_listed uid urole cid b b' http :
  deleteComment uid urole cid b = (Sent http, b') →
  (∀ id page limit c,
     (cid, c) ∉ comments (getChallengeComments id page limit b'))
  ∧ (∃ c, Comments b !! cid = Some c
        ∧ (author c = uid ∨ urole = admin_role)
        ∧ Comments b' !! cid = Some (mark_deleted c))
  ∧ length (Comments b') = length (Comments b)
  ∧ (∀ other, other ≠ cid → Comments b' !! other = Comments b !! other)
  ∧ deleteComment uid urole cid b' = (Sent 200, b').
Proof.
  unfold deleteComment. intros Hrun.
  destruct (Comments b !! cid) as [c0|] eqn:Hc; [|done].
  destruct (negb (bool_decide (author c0 = uid))
            && negb (bool_decide (urole = admin_role))) eqn:Hperm; [done|].
  simplify_eq. cbn [Comments].
  assert (<[cid := mark_deleted c0]> (Comments b) !! cid
          = Some (mark_deleted c0)) as Hat.
  { apply list_lookup_insert_eq. by eapply lookup_lt_Some. }
  split; [|split; [|split; [|split]]].
  - intros id page limit c Hin. cbn [comments getChallengeComments] in Hin.
    apply elem_of_window in Hin as (j & _ & Hj).
    apply list_elem_of_lookup_2, elem_of_visible_comments in Hj
      as (Hc' & _ & Hdel).
    cbn [Comments] in Hc'. rewrite Hat in Hc'. by simplify_eq.
  - exists c0. split; [done|]. split; [|done].
    apply andb_false_iff in Hperm as [Hp|Hp];
      apply negb_false_iff, bool_decide_eq_true in Hp; auto.
  - apply length_insert.
  - intros other Hne. by apply list_lookup_insert_ne.
  - rewrite Hat. cbn [author mark_deleted]. rewrite Hperm.
    cbn [board_db Comments TotalComments]. by rewrite list_insert_insert_eq.
Qed.

#[local] Instance newer_total : Total newer.
Proof. intros x y. unfold newer. lia. Qed.

#[local] Instance newer_transitive : Transitive newer.
Proof. intros x y z. unfold newer. lia. Qed.

(** X16.  For a [limit] from 1 to 100, the pages 1 to [pagination.pages] of
    [getChallengeComments], put one after the other, show every comment of
    the challenge that is not deleted, each once and with its own id, and
    nothing else; a comment comes before every comment with an earlier
    timestamp; and they are as many as [pagination.total] says. *)
Theorem comment_pages_cover_the_listing id limit b :
  Pos.to_nat limit ≤ 100 →
  let shown :=
    concat
      ((λ page, comments (getChallengeComments id page limit b))
         <$> pages_upto
               (p_pages (pagination (getChallengeComments id 1 limit b)))) in
  NoDup shown
  ∧ (∀ cid c,
       (cid, c) ∈ shown ↔
       Comments b !! cid = Some c ∧ c_challenge c = id ∧ isDeleted c = false)
  ∧ StronglySorted (λ x y, c_timestamp y.2 ≤ c_timestamp x.2) shown
  ∧ length shown = p_total (pagination (getChallengeComments id 1 limit b)).
Proof.
  intros Hcap shown.
  assert (shown = visible_comments id b) as ->.
  { subst shown.
    cbn [comments pagination getChallengeComments p_pages pagination_of].
    rewrite <- length_visible_comments. by apply pages_cover. }
  split; [apply NoDup_visible_comments|].
  split; [apply elem_of_visible_comments|].
  split; [|apply length_visible_comments].
  unfold visible_comments. apply (StronglySorted_merge_sort newer).
Qed.

(** X17.  For a [limit] above 100 a page starts every [limit] comments and
    shows 100 of them: a comment whose position in the listing is 100 or more
    past a multiple of [limit] is on no page. *)
Theorem oversized_limit_hides_comments id limit b i entry :
  100 < Pos.to_nat limit →
  visible_comments id b !! i = Some entry →
  100 ≤ i mod Pos.to_nat limit →
  ∀ page, entry ∉ comments (getChallengeComments id page limit b).
Proof.
  intros Hcap Hi Hmod page. cbn [comments getChallengeComments].
  eapply beyond_the_cap; eauto using NoDup_visible_comments.
Qed.

End CommentFacts.

Lemma total_comments_counts_deleted_comments_witness :
  counted (crowd 3)
  ∧ ∀ id page limit,
      default 0 (TotalComments (crowd 3) !! id)
      = p_total (pagination (getChallengeComments id page limit (crowd 3)))
        + length (filter (λ c, c_challenge c = id ∧ isDeleted c = true)
                    (Comments (crowd 3))).
Proof.
  assert (counted (crowd 3)) as Hcrowd.
  { intros id. destruct (decide (id = 7)) as [->|Hne]; [reflexivity|].
    unfold crowd. cbn [Comments TotalComments seq fmap list_fmap].
    rewrite lookup_singleton_ne by done.
    rewrite !filter_cons, !decide_False by (cbn; congruence). reflexivity. }
  split; [exact Hcrowd|].
  apply (total_comments_counts_deleted_comments (λ text, text) (crowd 3) Hcrowd).
Defined.

Lemma deleted_comments_are_not_listed_witness :
  deleteComment 10 user_role 1 (crowd 3)
  = (Sent 200, (deleteComment 10 user_role 1 (crowd 3)).2)
  ∧ ∀ id page limit c,
      (1, c) ∉ comments (getChallengeComments id page limit
                           (deleteComment 10 user_role 1 (crowd 3)).2).
Proof.
  split; [vm_compute; reflexivity|].
  apply (deleted_comments_are_not_listed 10 user_role 1 (crowd 3) _ 200).
  vm_compute. reflexivity.
Defined.

Lemma comment_pages_cover_the_listing_witness :
  NoDup
    (concat
       ((λ page, comments (getChallengeComments 7 page 2 (crowd 6)))
          <$> pages_upto
                (p_pages (pagination (getChallengeComments 7 1 2 (crowd 6))))))
  ∧ (∀ cid c,
       (cid, c)
       ∈ (concat
       ((λ page, comments (getChallengeComments 7 page 2 (crowd 6)))
          <$> pages_upto
                (p_pages (pagination (getChallengeComments 7 1 2 (crowd 6))))))
       ↔ Comments (crowd 6) !! cid = Some c ∧ c_challenge c = 7
         ∧ isDeleted c = false)
  ∧ StronglySorted (λ x y, c_timestamp y.2 ≤ c_timestamp x.2)
      (concat
       ((λ page, comments (getChallengeComments 7 page 2 (crowd 6)))
          <$> pages_upto
                (p_pages (pagination (getChallengeComments 7 1 2 (crowd 6))))))
  ∧ length
      (concat
       ((λ page, comments (getChallengeComments 7 page 2 (crowd 6)))
          <$> pages_upto
                (p_pages (pagination (getChallengeComments 7 1 2 (crowd 6))))))
    = p_total (pagination (getChallengeComments 7 1 2 (crowd 6))).
Proof.
  apply (comment_pages_cover_the_listing 7 2 (crowd 6)). vm_compute. lia.
Defined.

(** The three pages of two comments of [crowd 6]: comment 0 is deleted, the
    other five are shown from the newest to the oldest. *)
Example crowd_pages :
  (λ page, (λ e, (e.1, c_timestamp e.2))
             <$> comments (getChallengeComments 7 page 2 (crowd 6)))
    <$> pages_upto (p_pages (pagination (getChallengeComments 7 1 2 (crowd 6))))
  = [[(5, 5); (4, 4)]; [(3, 3); (2, 2)]; [(1, 1)]].
Proof. vm_compute. reflexivity. Qed.

Lemma oversized_limit_hides_comments_witness :
  ∃ entry,
    visible_comments 7 (crowd 102) !! 100 = Some entry
    ∧ ∀ page, entry ∉ comments (getChallengeComments 7 page 101 (crowd 102)).
Proof.
  eexists. split; [vm_compute; reflexivity|].
  apply (oversized_limit_hides_comments 7 101 (crowd 102) 100).
  - vm_compute. lia.
  - vm_compute. reflexivity.
  - vm_compute. lia.
Defined.

(** ** Messages *)

Lemma filter_insert_count {A} (P : A → Prop) `{!∀ x, Decision (P x)}
    (l : list A) i x y :
  l !! i = Some x →
  length (filter P (<[i := y]> l)) + (if decide (P x) then 1 else 0)
  = length (filter P l) + (if decide (P y) then 1 else 0).
Proof.
  revert i. induction l as [|z l IH]; intros [|i] Hi; simplify_eq/=.
  - rewrite !filter_cons. repeat case_decide; cbn; lia.
  - rewrite !filter_cons. specialize (IH _ Hi).
    destruct (decide (P z)); cbn; lia.
Qed.

#[export] Instance sent_after_total : Total sent_after.
Proof. intros a b. unfold sent_after. lia. Qed.

#[export] Instance sent_after_trans : Transitive sent_after.
Proof. intros a b c. unfold sent_after. lia. Qed.

Lemma first_of_page {A} cap limit (l : list A) :
  0 < cap → head (window cap 1 limit l) = head l.
Proof.
  intros Hcap. unfold window, skip_of, maxLimit_of.
  change (Pos.to_nat 1 - 1) with 0. rewrite Nat.mul_0_l, drop_0.
  destruct (Pos.to_nat limit `min` cap) as [|k] eqn:Hk; [lia|]. by destruct l.
Qed.

Section MessageFacts.
Context {T : Type}.
Variable trim : string -> string.
Implicit Types (m : Mailbox T) (msg : Message).

Lemma elem_of_inbox_of uid unread m mid msg :
  (mid, msg) ∈ inbox_of uid unread m ↔
  Messages m !! mid = Some msg ∧ in_inbox uid unread msg.
Proof.
  unfold inbox_of. rewrite merge_sort_Permutation.
  rewrite list_elem_of_filter, elem_of_indexed. cbn. tauto.
Qed.

Lemma elem_of_outbox_of uid m mid msg :
  (mid, msg) ∈ outbox_of uid m ↔
  Messages m !! mid = Some msg ∧ sent_by uid msg.
Proof.
  unfold outbox_of. rewrite merge_sort_Permutation.
  rewrite list_elem_of_filter, elem_of_indexed. cbn. tauto.
Qed.

(** The newest entry of a listing comes first. *)
Lemma newest_first (l : list (ObjectId * Message)) e :
  e ∈ l → (∀ e', e' ∈ l → e' ≠ e → createdAt e'.2 < createdAt e.2) →
  head (merge_sort sent_after l) = Some e.
Proof.
  intros He Hnew.
  pose proof (StronglySorted_merge_sort sent_after l) as Hsorted.
  assert (∀ x, x ∈ merge_sort sent_after l ↔ x ∈ l) as Hperm.
  { intros x. by rewrite merge_sort_Permutation. }
  destruct (merge_sort sent_after l) as [|h rest].
  - apply Hperm in He. by apply elem_of_nil in He.
  - cbn. f_equal. destruct (decide (h = e)) as [|Hne]; [done|].
    apply Hperm in He. apply elem_of_cons in He as [->|He]; [done|].
    apply StronglySorted_inv in Hsorted as [_ Hall].
    rewrite List.Forall_forall in Hall. apply list_elem_of_In, Hall in He.
    unfold sent_after in He.
    assert (createdAt h.2 < createdAt e.2); [|lia].
    apply Hnew; [|done]. apply Hperm. left.
Qed.

(** X18.  After a successful [deleteMessage] the message is on no page of the
    caller's inbox or sent list; its document is kept, and for every other
    user the message is in the inbox and in the sent list exactly when it was
    before. *)
Theorem deleting_a_message_hides_it_from_the_caller_only uid mid m m' http :
  deleteMessage uid mid m = (Sent http, m') →
  ∃ msg msg',
    Messages m !! mid = Some msg ∧ Messages m' !! mid = Some msg'
    ∧ (sender msg = uid ∨ receiver msg = uid)
    ∧ length (Messages m') = length (Messages m)
    ∧ (∀ page limit unread,
         (mid, msg') ∉ messages (getInbox uid page limit unread m'))
    ∧ (∀ page limit, (mid, msg') ∉ (getSentMessages uid page limit m').1)
    ∧ (∀ other unread, other ≠ uid →
         (mid, msg') ∈ inbox_of other unread m'
         ↔ (mid, msg) ∈ inbox_of other unread m)
    ∧ (∀ other, other ≠ uid →
         (mid, msg') ∈ outbox_of other m' ↔ (mid, msg) ∈ outbox_of other m).
Proof.
  unfold deleteMessage. intros Hrun.
  destruct (Messages m !! mid) as [msg|] eqn:Hmsg; [|done].
  destruct (negb (bool_decide (sender msg = uid))
            && negb (bool_decide (receiver msg = uid))) eqn:Hperm; [done|].
  simplify_eq.
  set (msg' := mark_removed _ _ msg).
  assert (<[mid := msg']> (Messages m) !! mid = Some msg') as Hat.
  { apply list_lookup_insert_eq. by eapply lookup_lt_Some. }
  exists msg, msg'. cbn [Messages with_messages].
  split_and!; [done|done| | | | | |].
  - apply andb_false_iff in Hperm as [Hp|Hp];
      apply negb_false_iff, bool_decide_eq_true in Hp; auto.
  - apply length_insert.
  - intros page limit unread Hin. cbn [messages getInbox] in Hin.
    apply elem_of_window in Hin as (j & _ & Hj).
    apply list_elem_of_lookup_2, elem_of_inbox_of in Hj as (_ & Hto & Hdel & _).
    subst msg'. cbn in Hto, Hdel. rewrite bool_decide_eq_true_2 in Hdel; done.
  - intros page limit Hin. cbn [fst getSentMessages] in Hin.
    apply elem_of_window in Hin as (j & _ & Hj).
    apply list_elem_of_lookup_2, elem_of_outbox_of in Hj as (_ & Hfrom & Hdel).
    subst msg'. cbn in Hfrom, Hdel. rewrite bool_decide_eq_true_2 in Hdel; done.
  - intros other unread Hother. rewrite !elem_of_inbox_of.
    cbn [Messages with_messages]. rewrite Hat, Hmsg.
    unfold in_inbox. subst msg'. cbn.
    split; intros (_ & Hto & Hrest); (split; [done|]); (split; [done|]);
      rewrite bool_decide_eq_false_2 in * by congruence; done.
  - intros other Hother. rewrite !elem_of_outbox_of.
    cbn [Messages with_messages]. rewrite Hat, Hmsg.
    unfold sent_by. subst msg'. cbn.
    split; intros (_ & Hfrom & Hrest); (split; [done|]); (split; [done|]);
      rewrite bool_decide_eq_false_2 in * by congruence; done.
Qed.

(** X19.  A successful [markAsRead] lowers the [unreadCount] of the caller,
    who is the receiver, by one when the message was unread and not deleted
    by the receiver, and leaves it alone otherwise; the [total] of the inbox
    and the unread counts of the other users do not change. *)
Theorem reading_lowers_the_unread_count_by_one uid mid now m m' http :
  markAsRead uid mid now m = (Sent http, m') →
  ∃ msg,
    Messages m !! mid = Some msg ∧ receiver msg = uid
    ∧ Messages m' !! mid = Some (mark_read now msg)
    ∧ ∀ page limit unread,
        unreadCount (getInbox uid page limit unread m)
        = unreadCount (getInbox uid page limit unread m')
          + (if read msg || deletedByReceiver msg then 0 else 1)
        ∧ p_total (m_pagination (getInbox uid page limit false m'))
          = p_total (m_pagination (getInbox uid page limit false m))
        ∧ ∀ other, other ≠ uid →
            unreadCount (getInbox other page limit unread m')
            = unreadCount (getInbox other page limit unread m).
Proof.
  unfold markAsRead. intros Hrun.
  destruct (Messages m !! mid) as [msg|] eqn:Hmsg; [|done].
  destruct (bool_decide (receiver msg = uid)) eqn:Hto; [|done].
  apply bool_decide_eq_true in Hto. cbn [negb] in Hrun. simplify_eq.
  exists msg. cbn [Messages with_messages]. split_and!; [done|done| |].
  { apply list_lookup_insert_eq. by eapply lookup_lt_Some. }
  intros page limit unread.
  cbn [unreadCount m_pagination getInbox p_total pagination_of Messages
       with_messages].
  split_and!.
  - unfold ObjectId in *.
    match goal with |- length (@filter _ _ _ ?P ?D _) = _ =>
      pose proof (@filter_insert_count _ P D (Messages m) mid msg
                    (mark_read now msg) Hmsg) as Hcount
    end.
    cbn [receiver read deletedByReceiver mark_read] in Hcount.
    rewrite (decide_False (P := _ ∧ true = false ∧ _)) in Hcount
      by (intros (_ & ? & _); done).
    destruct (read msg), (deletedByReceiver msg); cbn [orb];
      [rewrite decide_False in Hcount by (intros (_ & ? & _); done)
      |rewrite decide_False in Hcount by (intros (_ & ? & _); done)
      |rewrite decide_False in Hcount by (intros (_ & _ & ?); done)
      |rewrite decide_True in Hcount by done];
      rewrite ?Nat.add_0_r in Hcount |- *; by rewrite Hcount.
  - apply filter_insert_length with msg; [done|]. unfold in_inbox. cbn.
    split; intros (? & ? & _); done.
  - intros other Hother. apply filter_insert_length with msg; [done|].
    cbn. split; intros (? & _); done.
Qed.

(** A document stamped later than all the others heads every listing it
    belongs to. *)
Lemma latest_heads_the_listing (P : Message → Prop) `{!∀ x, Decision (P x)}
    (l : list Message) msg :
  (∀ old, old ∈ l → createdAt old < createdAt msg) → P msg →
  head (merge_sort sent_after (filter (λ e, P e.2) (indexed (l ++ [msg]))))
  = Some (length l, msg).
Proof.
  intros Hnew Hmsg. apply newest_first.
  - apply list_elem_of_filter. split; [done|].
    apply elem_of_indexed. by rewrite lookup_app_r, Nat.sub_diag.
  - intros [i old] [_ Hold%elem_of_indexed]%list_elem_of_filter Hne. cbn.
    apply lookup_app_Some in Hold as [Hold|[Hge Hold]].
    + apply Hnew. by eapply list_elem_of_lookup_2.
    + apply list_lookup_singleton_Some in Hold as [Hi <-].
      destruct Hne. f_equal. lia.
Qed.

(** X20.  A message sent later than every stored one is the first entry of
    page 1 of the receiver's inbox and of the sender's sent list; the
    [unreadCount] of the receiver grows by one and one [new_message]
    notification for the receiver is stored. *)
Theorem a_new_message_tops_the_inbox uid rid subject content now m m' http :
  (∀ msg, msg ∈ Messages m → createdAt msg < now) →
  sendMessage trim uid rid subject content now m = (Sent http, m') →
  ∃ msg,
    Messages m' = Messages m ++ [msg]
    ∧ sender msg = uid ∧ receiver msg = rid ∧ read msg = false
    ∧ 1 ≤ String.length (m_content msg) ≤ 2000
    ∧ (∀ limit unread,
         head (messages (getInbox rid 1 limit unread m'))
         = Some (length (Messages m), msg))
    ∧ (∀ limit,
         head (getSentMessages uid 1 limit m').1 = Some (length (Messages m), msg))
    ∧ (∀ page limit unread,
         unreadCount (getInbox rid page limit unread m')
         = S (unreadCount (getInbox rid page limit unread m)))
    ∧ ∃ note, MailNotifications m' = MailNotifications m ++ [note]
        ∧ n_user note = rid ∧ n_type note = new_message.
Proof.
  unfold sendMessage. intros Hnew Hrun.
  destruct (Users (mail_db m) !! rid) as [doc|]; [|done].
  destruct content as [text|]; [|done].
  destruct (negb _ || negb _) eqn:Hvalid; [done|].
  apply orb_false_iff in Hvalid as [_ Hlen].
  apply negb_false_iff, bool_decide_eq_true in Hlen. simplify_eq.
  eexists. cbn [Messages MailNotifications].
  split_and!; [reflexivity|done|done|done|apply Hlen|apply Hlen| | | |].
  - intros limit unread. cbn [messages getInbox].
    rewrite first_of_page by lia.
    by apply (latest_heads_the_listing (in_inbox rid unread)).
  - intros limit. cbn [fst getSentMessages].
    rewrite first_of_page by lia.
    by apply (latest_heads_the_listing (sent_by uid)).
  - intros page limit unread. cbn [unreadCount getInbox Messages].
    rewrite filter_app, length_app, filter_cons, filter_nil. cbn.
    rewrite decide_True by done. cbn. lia.
  - eexists. split_and!; [reflexivity|done|done].
Qed.

End MessageFacts.

Lemma deleting_a_message_hides_it_from_the_caller_only_witness :
  ∃ msg msg',
    Messages mailbag !! 0 = Some msg
    ∧ Messages (deleteMessage 1 0 mailbag).2 !! 0 = Some msg'
    ∧ (sender msg = 1 ∨ receiver msg = 1)
    ∧ length (Messages (deleteMessage 1 0 mailbag).2) = length (Messages mailbag)
    ∧ (∀ page limit unread,
         (0, msg') ∉ messages (getInbox 1 page limit unread
                                 (deleteMessage 1 0 mailbag).2))
    ∧ (∀ page limit,
         (0, msg') ∉ (getSentMessages 1 page limit (deleteMessage 1 0 mailbag).2).1)
    ∧ (∀ other unread, other ≠ 1 →
         (0, msg') ∈ inbox_of other unread (deleteMessage 1 0 mailbag).2
         ↔ (0, msg) ∈ inbox_of other unread mailbag)
    ∧ (∀ other, other ≠ 1 →
         (0, msg') ∈ outbox_of other (deleteMessage 1 0 mailbag).2
         ↔ (0, msg) ∈ outbox_of other mailbag).
Proof.
  apply (deleting_a_message_hides_it_from_the_caller_only 1 0 mailbag _ 200).
  vm_compute. reflexivity.
Defined.

Lemma reading_lowers_the_unread_count_by_one_witness :
  unreadCount (getInbox 2 1 20 false mailbag) = 1
  ∧ unreadCount (getInbox 2 1 20 false (markAsRead 2 0 5 mailbag).2) = 0
  ∧ ∃ msg,
      Messages mailbag !! 0 = Some msg ∧ receiver msg = 2
      ∧ Messages (markAsRead 2 0 5 mailbag).2 !! 0 = Some (mark_read 5 msg)
      ∧ ∀ page limit unread,
          unreadCount (getInbox 2 page limit unread mailbag)
          = unreadCount (getInbox 2 page limit unread (markAsRead 2 0 5 mailbag).2)
            + (if read msg || deletedByReceiver msg then 0 else 1)
          ∧ p_total (m_pagination
                       (getInbox 2 page limit false (markAsRead 2 0 5 mailbag).2))
            = p_total (m_pagination (getInbox 2 page limit false mailbag))
          ∧ ∀ other, other ≠ 2 →
              unreadCount
                (getInbox other page limit unread (markAsRead 2 0 5 mailbag).2)
              = unreadCount (getInbox other page limit unread mailbag).
Proof.
  split; [vm_compute; reflexivity|]. split; [vm_compute; reflexivity|].
  apply (reading_lowers_the_unread_count_by_one 2 0 5 mailbag _ 200).
  vm_compute. reflexivity.
Defined.

Lemma a_new_message_tops_the_inbox_witness :
  ∃ msg,
    Messages (sendMessage (λ text, text) 1 2 None (Some "again") 3 mailbag).2
    = Messages mailbag ++ [msg]
    ∧ subject msg = "No Subject"
    ∧ ∀ limit unread,
        head (messages
                (getInbox 2 1 limit unread
                   (sendMessage (λ text, text) 1 2 None (Some "again") 3
                      mailbag).2))
        = Some (2, msg).
Proof.
  destruct (a_new_message_tops_the_inbox (λ text, text) 1 2 None (Some "again")
              3 mailbag
              (sendMessage (λ text, text) 1 2 None (Some "again") 3 mailbag).2
              201)
    as (msg & Hsent & _ & _ & _ & _ & Hfirst & _).
  - intros msg Hin. vm_compute in Hin.
    repeat (apply elem_of_cons in Hin as [->|Hin]; [cbn; lia|]).
    by apply elem_of_nil in Hin.
  - vm_compute. reflexivity.
  - exists msg. split; [exact Hsent|]. split; [|exact Hfirst].
    apply app_inj_tail in Hsent as [_ <-]. reflexivity.
Defined.

(** ** Following and blocking *)

Section Spelling.

Lemma length_append (s t : string) :
  String.length (s +:+ t) = String.length s + String.length t.
Proof.
  induction s as [|ch s IH]; [done|].
  rewrite append_cons. cbn [String.length]. by rewrite IH.
Qed.

Lemma length_zeros n : String.length (zeros n) = n.
Proof. induction n as [|n IH]; [done|]. cbn. by rewrite IH. Qed.

Lemma all_hex_append (s t : string) :
  all_hex s = true → all_hex t = true → all_hex (s +:+ t) = true.
Proof.
  induction s as [|ch s IH]; [done|]. rewrite append_cons. cbn [all_hex].
  intros [-> Hs]%andb_true_iff Ht. by apply IH.
Qed.

Lemma all_hex_zeros n : all_hex (zeros n) = true.
Proof. induction n as [|n IH]; [done|]. exact IH. Qed.

Lemma all_hex_cons ch s :
  is_hex_digit ch = true → all_hex s = true → all_hex (String ch s) = true.
Proof. cbn. by intros -> ->. Qed.

Lemma all_hex_of_pos_upto n (p : positive) (rest : string) :
  Pos.size_nat p ≤ n →
  all_hex rest = true → all_hex (HexString.Raw.of_pos p rest) = true.
Proof.
  revert p rest. induction n as [|n IH]; intros p rest Hp Hrest.
  - destruct p; cbn in Hp; lia.
  - do 4 try destruct p as [p|p|]; cbn [HexString.Raw.of_pos];
      first [apply IH; [cbn in Hp; lia|]|idtac]; by apply all_hex_cons.
Qed.

Lemma all_hex_of_pos (p : positive) (rest : string) :
  all_hex rest = true → all_hex (HexString.Raw.of_pos p rest) = true.
Proof. by apply (all_hex_of_pos_upto (Pos.size_nat p)). Qed.

Lemma all_hex_digits x : all_hex (hex_digits x) = true.
Proof.
  unfold hex_digits. destruct (N.of_nat x); [done|]. by apply all_hex_of_pos.
Qed.

Lemma to_N_zeros n (s : string) :
  HexString.Raw.to_N (zeros n +:+ s) 0 = HexString.Raw.to_N s 0.
Proof. induction n as [|n IH]; [done|]. exact IH. Qed.

Lemma to_N_hex_digits x : HexString.Raw.to_N (hex_digits x) 0 = N.of_nat x.
Proof.
  unfold hex_digits. destruct (N.of_nat x) as [|p]; [done|].
  by rewrite HexString.Raw.to_N_of_pos.
Qed.

(** An id is printed with 24 digits at least. *)
Lemma length_toString x : 24 ≤ String.length (toString x).
Proof. unfold toString. rewrite length_append, length_zeros. lia. Qed.

(** Casting reads back the id that was printed. *)
Lemma castObjectId_toString x : castObjectId (toString x) = Some x.
Proof.
  unfold castObjectId.
  rewrite (proj2 (Nat.leb_le _ _) (length_toString x)).
  unfold toString at 1.
  rewrite all_hex_append by (apply all_hex_zeros || apply all_hex_digits).
  cbn [andb]. unfold toString. rewrite to_N_zeros, to_N_hex_digits.
  by rewrite Nat2N.id.
Qed.

Lemma toString_inj x y : toString x = toString y → x = y.
Proof.
  intros Heq. assert (Some x = Some y) as [= ->]; [|done].
  by rewrite <- !castObjectId_toString, Heq.
Qed.



Lemma includes_toString x ids :
  includes (toString x) ids = bool_decide (x ∈ ids).
Proof.
  unfold includes. apply bool_decide_ext. rewrite list_elem_of_fmap. split.
  - by intros (y & ->%toString_inj & Hy).
  - intros Hx. by exists x.
Qed.


Lemma elem_of_without x ids v :
  v ∈ without (toString x) ids ↔ v ∈ ids ∧ v ≠ x.
Proof.
  unfold without. rewrite list_elem_of_filter. split.
  - intros [Hne Hv]. split; [done|]. by intros ->.
  - intros [Hv Hne]. split; [|done]. by intros ?%toString_inj.
Qed.

Lemma NoDup_without raw ids : NoDup ids → NoDup (without raw ids).
Proof. apply NoDup_filter. Qed.

Lemma without_stranger x ids : x ∉ ids → without (toString x) ids = ids.
Proof.
  intros Hx. unfold without. induction ids as [|y ids IH]; [done|].
  rewrite filter_cons. apply not_elem_of_cons in Hx as [Hne Hx].
  rewrite decide_True by (by intros ?%toString_inj). by rewrite IH.
Qed.

Lemma without_last x ids :
  x ∉ ids → without (toString x) (ids ++ [x]) = ids.
Proof.
  intros Hx. unfold without. rewrite filter_app, filter_cons, filter_nil.
  rewrite decide_False by (intros Hne; by apply Hne).
  rewrite app_nil_r. by apply without_stranger.
Qed.

(** A spelling other than the printed one removes nothing. *)
Lemma without_other_spelling raw ids :
  (∀ x, raw ≠ toString x) → without raw ids = ids.
Proof.
  intros Hraw. unfold without. induction ids as [|y ids IH]; [done|].
  rewrite filter_cons, decide_True by (intros Heq; by apply (Hraw y)).
  by rewrite IH.
Qed.

End Spelling.

Section FollowFacts.
Implicit Types (accts : Accounts) (a b : Account) (uid target : ObjectId).

(** Rewriting the [following] of [u] and the [followers] of [t] together
    keeps the lists in agreement when the two edits match. *)
Lemma consistent_relink accts u t a b f F G :
  consistent accts → accts !! u = Some a → accts !! t = Some b → u ≠ t →
  following (f a) = F → followers (f a) = followers a →
  followerCount (f a) = followerCount a →
  NoDup F → u ∉ F → NoDup G →
  (∀ v, v ≠ t → v ∈ F ↔ v ∈ following a) →
  (∀ w, w ≠ u → w ∈ G ↔ w ∈ followers b) →
  (t ∈ F ↔ u ∈ G) →
  consistent (alter (set_followers G) t (alter f u accts)).
Proof.
  intros Hok Hu Ht Hne HF Hfs Hfc HndF HuF HndG HFold HGold Hlink.
  assert (∀ w d, alter (set_followers G) t (alter f u accts) !! w = Some d →
            ∃ d0, accts !! w = Some d0
              ∧ following d = (if decide (w = u) then F else following d0)
              ∧ followers d = (if decide (w = t) then G else followers d0)
              ∧ followerCount d
                = (if decide (w = t) then length G else followerCount d0))
    as Hlook.
  { intros w d. destruct (decide (w = t)) as [->|Hwt].
    - rewrite lookup_alter_eq, lookup_alter_ne, Ht by done.
      intros [= <-]. exists b. by rewrite decide_False by done.
    - rewrite lookup_alter_ne by done. destruct (decide (w = u)) as [->|Hwu].
      + rewrite lookup_alter_eq, Hu. intros [= <-]. eauto.
      + rewrite lookup_alter_ne by done. eauto. }
  intros w d (d0 & Hw & -> & -> & ->)%Hlook.
  destruct (Hok w d0 Hw) as (Hcount & Hnd1 & Hnd2 & Hself & Hsym).
  split_and!.
  - by destruct (decide (w = t)).
  - by destruct (decide (w = u)).
  - by destruct (decide (w = t)).
  - destruct (decide (w = u)) as [->|]; done.
  - intros v e (e0 & Hv & _ & -> & _)%Hlook.
    destruct (decide (w = u)) as [->|Hwu], (decide (v = t)) as [->|Hvt].
    + done.
    + rewrite HFold by done. assert (d0 = a) as -> by congruence. by apply Hsym.
    + assert (e0 = b) as -> by congruence. rewrite HGold by done. by apply Hsym.
    + by apply Hsym.
Qed.

Lemma consistent_alter accts u f :
  consistent accts →
  (∀ a, following (f a) = following a ∧ followers (f a) = followers a
        ∧ followerCount (f a) = followerCount a) →
  consistent (alter f u accts).
Proof.
  intros Hok Hf.
  assert (∀ w d, alter f u accts !! w = Some d →
            ∃ d0, accts !! w = Some d0 ∧ following d = following d0
              ∧ followers d = followers d0
              ∧ followerCount d = followerCount d0) as Hlook.
  { intros w d. destruct (decide (w = u)) as [->|Hwu].
    - rewrite lookup_alter_eq. destruct (accts !! u) as [d0|]; [|done].
      intros [= <-]. exists d0. by destruct (Hf d0) as (-> & -> & ->).
    - rewrite lookup_alter_ne by done. eauto. }
  intros w d (d0 & Hw & -> & -> & ->)%Hlook.
  destruct (Hok w d0 Hw) as (Hcount & Hnd1 & Hnd2 & Hself & Hsym).
  split_and!; try done.
  intros v e (e0 & Hv & _ & -> & _)%Hlook. by apply Hsym.
Qed.

(** The second save when the document is not the caller's own. *)
Lemma save_followers_other uid target b accts :
  target ≠ uid →
  save_followers uid target b accts
  = (Sent 200,
     alter (set_followers (without (toString uid) (followers b))) target accts).
Proof.
  intros Hne. unfold save_followers. by rewrite bool_decide_eq_false_2.
Qed.

(** The handlers on an id spelled as [toString] prints it. *)
Lemma followUser_printed a uid target accts :
  followUser a uid (toString target) accts
  = if bool_decide (target = uid)
    then (Denied 400 "CANNOT_FOLLOW_SELF", accts)
    else
      match accts !! target with
      | None => (Denied 404 "USER_NOT_FOUND", accts)
      | Some b =>
        if bool_decide (target ∈ following a)
        then (Denied 409 "ALREADY_FOLLOWING", accts)
        else
          (Sent 200,
           alter (set_followers (followers b ++ [uid])) target
             (alter (set_following (following a ++ [target])) uid accts))
      end.
Proof.
  unfold followUser. rewrite castObjectId_toString, includes_toString.
  destruct (decide (target = uid)) as [->|Hne].
  - by rewrite !bool_decide_eq_true_2.
  - rewrite !(bool_decide_eq_false_2 (_ = _)); [done..|].
    by intros ?%toString_inj.
Qed.

Lemma unfollowUser_printed a uid target accts :
  unfollowUser a uid (toString target) accts
  = match accts !! target with
    | None => (Denied 404 "USER_NOT_FOUND", accts)
    | Some b =>
      if negb (bool_decide (target ∈ following a))
      then (Denied 400 "NOT_FOLLOWING", accts)
      else
        save_followers uid target b
          (alter (set_following (without (toString target) (following a)))
             uid accts)
    end.
Proof.
  unfold unfollowUser. by rewrite castObjectId_toString, includes_toString.
Qed.

Lemma blockUser_printed a uid target accts :
  blockUser a uid (toString target) accts
  = if bool_decide (target = uid)
    then (Denied 400 "CANNOT_BLOCK_SELF", accts)
    else
      match accts !! target with
      | None => (Denied 404 "USER_NOT_FOUND", accts)
      | Some b =>
        if bool_decide (target ∈ blockedUsers a)
        then (Denied 409 "ALREADY_BLOCKED", accts)
        else
          (Sent 200,
           alter (set_followers (without (toString uid) (followers b))) target
             (alter (λ doc,
                       set_following (without (toString target) (following a))
                         (set_blockedUsers (blockedUsers a ++ [target]) doc))
                uid accts))
      end.
Proof.
  unfold blockUser. rewrite castObjectId_toString, includes_toString.
  destruct (decide (target = uid)) as [->|Hne].
  - by rewrite !bool_decide_eq_true_2.
  - rewrite !(bool_decide_eq_false_2 (_ = _)); [|done|by intros ?%toString_inj].
    destruct (accts !! target); [|done].
    destruct (bool_decide (target ∈ blockedUsers a)); [done|].
    by apply save_followers_other.
Qed.

Lemma unblockUser_printed a uid target accts :
  unblockUser a uid (toString target) accts
  = if negb (bool_decide (target ∈ blockedUsers a))
    then (Denied 400 "NOT_BLOCKED", accts)
    else
      (Sent 200,
       alter (set_blockedUsers (without (toString target) (blockedUsers a)))
         uid accts).
Proof. unfold unblockUser. by rewrite includes_toString. Qed.

Lemma followUser_consistent a uid target accts r accts' :
  consistent accts → accts !! uid = Some a →
  followUser a uid (toString target) accts = (r, accts') → consistent accts'.
Proof.
  rewrite followUser_printed. intros Hok Ha Hrun.
  destruct (bool_decide (target = uid)) eqn:Hself; [by simplify_eq|].
  apply bool_decide_eq_false in Hself.
  destruct (accts !! target) as [b|] eqn:Hb; [|by simplify_eq].
  destruct (bool_decide (target ∈ following a)) eqn:Hin; [by simplify_eq|].
  apply bool_decide_eq_false in Hin. simplify_eq.
  destruct (Hok uid a Ha) as (_ & Hnd & _ & Hme & Hsym).
  destruct (Hok target b Hb) as (_ & _ & Hnd' & _ & _).
  eapply (consistent_relink _ uid target a b _ (following a ++ [target])
            (followers b ++ [uid])); try done.
  - apply NoDup_app. split_and!; [done| |apply NoDup_singleton].
    intros x Hx ->%list_elem_of_singleton. done.
  - rewrite elem_of_app, list_elem_of_singleton. intros [?|?]; done.
  - apply NoDup_app. split_and!; [done| |apply NoDup_singleton].
    intros x Hx ->%list_elem_of_singleton. by apply Hin, (Hsym target b Hb).
  - intros v Hv. rewrite elem_of_app, list_elem_of_singleton. tauto.
  - intros w Hw. rewrite elem_of_app, list_elem_of_singleton. tauto.
  - rewrite !elem_of_app, !list_elem_of_singleton. tauto.
Qed.

Lemma unfollowUser_consistent a uid target accts r accts' :
  consistent accts → accts !! uid = Some a →
  unfollowUser a uid (toString target) accts = (r, accts') → consistent accts'.
Proof.
  rewrite unfollowUser_printed. intros Hok Ha Hrun.
  destruct (accts !! target) as [b|] eqn:Hb; [|by simplify_eq].
  destruct (bool_decide (target ∈ following a)) eqn:Hin; cbn [negb] in Hrun;
    [|by simplify_eq].
  apply bool_decide_eq_true in Hin.
  destruct (Hok uid a Ha) as (_ & Hnd & _ & Hme & Hsym).
  destruct (Hok target b Hb) as (_ & _ & Hnd' & _ & _).
  assert (uid ≠ target) by (intros ->; done).
  rewrite save_followers_other in Hrun by done. simplify_eq.
  eapply (consistent_relink _ uid target a b _
            (without (toString target) (following a))
            (without (toString uid) (followers b)));
    try done; try by apply NoDup_without.
  - rewrite elem_of_without. tauto.
  - intros v Hv. rewrite elem_of_without. tauto.
  - intros w Hw. rewrite elem_of_without. tauto.
  - rewrite !elem_of_without. tauto.
Qed.

Lemma blockUser_consistent a uid target accts r accts' :
  consistent accts → accts !! uid = Some a →
  blockUser a uid (toString target) accts = (r, accts') → consistent accts'.
Proof.
  rewrite blockUser_printed. intros Hok Ha Hrun.
  destruct (bool_decide (target = uid)) eqn:Hself; [by simplify_eq|].
  apply bool_decide_eq_false in Hself.
  destruct (accts !! target) as [b|] eqn:Hb; [|by simplify_eq].
  destruct (bool_decide (target ∈ blockedUsers a)); simplify_eq; [done|].
  destruct (Hok uid a Ha) as (_ & Hnd & _ & Hme & Hsym).
  destruct (Hok target b Hb) as (_ & _ & Hnd' & _ & _).
  eapply (consistent_relink _ uid target a b _
            (without (toString target) (following a))
            (without (toString uid) (followers b)));
    try done; try by apply NoDup_without.
  - rewrite elem_of_without. tauto.
  - intros v Hv. rewrite elem_of_without. tauto.
  - intros w Hw. rewrite elem_of_without. tauto.
  - rewrite !elem_of_without. tauto.
Qed.

Lemma unblockUser_consistent a uid raw accts r accts' :
  consistent accts →
  unblockUser a uid raw accts = (r, accts') → consistent accts'.
Proof.
  unfold unblockUser. intros Hok Hrun.
  destruct (negb _); simplify_eq; [done|]. by apply consistent_alter.
Qed.

Lemma protect_cases uid route accts r accts' :
  protect uid route accts = (r, accts') →
  (accts' = accts ∧ ∃ http code, r = Denied http code)
  ∨ ∃ user, accts !! uid = Some user ∧ isSuspended user = false
      ∧ route user accts = (r, accts').
Proof.
  unfold protect. intros Hrun.
  destruct (accts !! uid) as [user|]; [|left; simplify_eq; eauto].
  destruct (isSuspended user) eqn:Hs; [left; simplify_eq; eauto|].
  right. eauto.
Qed.

Lemma checkBlocked_cases uid body_receiver raw next accts r accts' :
  checkBlocked uid body_receiver raw next accts = (r, accts') →
  (accts' = accts ∧ ∃ http code, r = Denied http code)
  ∨ next accts = (r, accts').
Proof.
  unfold checkBlocked. intros Hrun.
  repeat case_match; simplify_eq; eauto.
Qed.

(** X21.  When the request spells its id as [toString] prints it, the
    follow, unfollow, block and unblock routes keep the follow lists
    consistent: [followerCount] is the length of [followers], no list names
    a user twice, nobody follows themselves, and [v] is in the [following]
    of [u] exactly when [u] is in the [followers] of [v]. *)
Theorem follow_lists_stay_consistent uid req target accts r accts' :
  consistent accts →
  params_id req = toString target →
  user_route uid req accts = (r, accts') →
  consistent accts'.
Proof.
  intros Hok Hid Hrun. destruct req; cbn [user_route params_id] in *;
    subst; apply protect_cases in Hrun as [[-> _]|(user & Hu & _ & Hrun)];
    try done.
  - apply checkBlocked_cases in Hrun as [[-> _]|Hrun]; [done|].
    by eapply followUser_consistent.
  - by eapply unfollowUser_consistent.
  - by eapply blockUser_consistent.
  - by eapply unblockUser_consistent.
Qed.

Lemma set_following_same a : set_following (following a) a = a.
Proof. by destruct a. Qed.

Lemma set_followers_same a :
  followerCount a = length (followers a) → set_followers (followers a) a = a.
Proof. destruct a. cbn. by intros ->. Qed.

Lemma set_followers_twice ids ids' a :
  set_followers ids (set_followers ids' a) = set_followers ids a.
Proof. done. Qed.

Lemma set_following_twice ids ids' a :
  set_following ids (set_following ids' a) = set_following ids a.
Proof. done. Qed.

(** What a successful [followUser] finds and writes. *)
Lemma followUser_success a uid target accts accts' http :
  followUser a uid (toString target) accts = (Sent http, accts') →
  http = 200 ∧ target ≠ uid ∧ (target ∉ following a)
  ∧ ∃ b, accts !! target = Some b
      ∧ accts' = alter (set_followers (followers b ++ [uid])) target
                   (alter (set_following (following a ++ [target])) uid accts).
Proof.
  rewrite followUser_printed. intros Hrun.
  destruct (bool_decide (target = uid)) eqn:Hself; [done|].
  apply bool_decide_eq_false in Hself.
  destruct (accts !! target) as [b|] eqn:Hb; [|done].
  destruct (bool_decide (target ∈ following a)) eqn:Hin; [done|].
  apply bool_decide_eq_false in Hin. simplify_eq. eauto 10.
Qed.

(** What a successful [blockUser] finds and writes. *)
Lemma blockUser_success a uid target accts accts' http :
  blockUser a uid (toString target) accts = (Sent http, accts') →
  http = 200 ∧ target ≠ uid ∧ (target ∉ blockedUsers a)
  ∧ ∃ b, accts !! target = Some b
      ∧ accts'
        = alter (set_followers (without (toString uid) (followers b))) target
            (alter (λ doc,
                      set_following (without (toString target) (following a))
                        (set_blockedUsers (blockedUsers a ++ [target]) doc))
               uid accts).
Proof.
  rewrite blockUser_printed. intros Hrun.
  destruct (bool_decide (target = uid)) eqn:Hself; [done|].
  apply bool_decide_eq_false in Hself.
  destruct (accts !! target) as [b|] eqn:Hb; [|done].
  destruct (bool_decide (target ∈ blockedUsers a)) eqn:Hin; [done|].
  apply bool_decide_eq_false in Hin. simplify_eq. eauto 10.
Qed.

Lemma protect_success uid route accts accts' http :
  protect uid route accts = (Sent http, accts') →
  ∃ user, accts !! uid = Some user ∧ isSuspended user = false
    ∧ route user accts = (Sent http, accts').
Proof.
  intros [[_ (? & ? & ?)]|?]%protect_cases; [done|eauto].
Qed.

Lemma protect_run uid route accts user :
  accts !! uid = Some user → isSuspended user = false →
  protect uid route accts = route user accts.
Proof. unfold protect. by intros -> ->. Qed.

(** X22.  On consistent follow lists, when the two requests spell the id as
    [toString] prints it, an unfollow right after a successful follow is
    answered 200 and gives back the stored users as they were. *)
Theorem unfollowing_undoes_following uid body_receiver target accts accts1 http :
  consistent accts →
  user_route uid (Follow body_receiver (toString target)) accts
  = (Sent http, accts1) →
  user_route uid (Unfollow (toString target)) accts1 = (Sent 200, accts).
Proof.
  intros Hok Hrun. cbn [user_route] in *.
  apply protect_success in Hrun as (a & Ha & Hactive & Hrun).
  apply checkBlocked_cases in Hrun as [[_ (? & ? & ?)]|Hrun]; [done|].
  apply followUser_success in Hrun as (_ & Hne & Hnew & b & Hb & ->).
  destruct (Hok uid a Ha) as (_ & _ & _ & _ & Hsym).
  destruct (Hok target b Hb) as (Hcount & _ & _ & _ & _).
  assert (uid ∉ followers b) as Hnew' by (by rewrite <- (Hsym target b Hb)).
  rewrite (protect_run uid _ _ (set_following (following a ++ [target]) a));
    [|by rewrite lookup_alter_ne, lookup_alter_eq, Ha by done|done].
  rewrite unfollowUser_printed.
  rewrite lookup_alter_eq, lookup_alter_ne, Hb by done.
  cbn [fmap option_fmap option_map following followers set_following
       set_followers].
  rewrite bool_decide_eq_true_2
    by (rewrite elem_of_app, list_elem_of_singleton; auto).
  cbn [negb]. rewrite save_followers_other by done.
  cbn [followers set_followers].
  rewrite !without_last by done. f_equal.
  apply map_eq. intros w.
  destruct (decide (w = target)) as [->|Hw].
  - rewrite lookup_alter_eq, lookup_alter_ne, lookup_alter_eq by done.
    rewrite lookup_alter_ne, Hb by done. cbn. f_equal.
    rewrite set_followers_twice. by apply set_followers_same.
  - rewrite lookup_alter_ne by done. destruct (decide (w = uid)) as [->|Hw'].
    + rewrite lookup_alter_eq, lookup_alter_ne, lookup_alter_eq, Ha by done.
      cbn. f_equal. rewrite set_following_twice. apply set_following_same.
    + by rewrite !lookup_alter_ne.
Qed.



(** X25.  On consistent follow lists, when the requests spell the id as
    [toString] prints it, an unblock after a successful block is answered
    200 and leaves the stored users as an unfollow would have, or as they
    were when the blocker did not follow the blocked user: the block list is
    restored, the follow is not. *)
Theorem blocking_then_unblocking_is_unfollowing uid target accts accts1 http a :
  consistent accts → accts !! uid = Some a →
  user_route uid (Block (toString target)) accts = (Sent http, accts1) →
  user_route uid (Unblock (toString target)) accts1
  = (Sent 200,
     if decide (target ∈ following a)
     then (user_route uid (Unfollow (toString target)) accts).2
     else accts).
Proof.
  intros Hok Ha Hrun. cbn [user_route] in *.
  apply protect_success in Hrun as (a' & Ha' & Hactive & Hrun).
  assert (a' = a) as -> by congruence.
  apply blockUser_success in Hrun as (_ & Hne & Hnew & b & Hb & ->).
  destruct (Hok uid a Ha) as (_ & _ & _ & _ & Hsym).
  destruct (Hok target b Hb) as (Hcount & _ & _ & _ & _).
  rewrite (protect_run uid _ _
             (set_following (without (toString target) (following a))
                (set_blockedUsers (blockedUsers a ++ [target]) a)));
    [|by rewrite lookup_alter_ne, lookup_alter_eq, Ha by done|done].
  rewrite unblockUser_printed.
  cbn [blockedUsers set_following set_blockedUsers].
  rewrite bool_decide_eq_true_2
    by (rewrite elem_of_app, list_elem_of_singleton; auto).
  cbn [negb]. rewrite without_last by done. f_equal.
  rewrite (protect_run uid _ accts a) by done.
  rewrite unfollowUser_printed, Hb.
  destruct (decide (target ∈ following a)) as [Hin|Hout].
  - rewrite bool_decide_eq_true_2 by done. cbn [negb].
    rewrite save_followers_other by done. cbn [snd].
    apply map_eq. intros w. destruct (decide (w = uid)) as [->|Hw].
    + rewrite lookup_alter_eq, !(lookup_alter_ne _ _ target uid) by done.
      rewrite !lookup_alter_eq, Ha. done.
    + rewrite lookup_alter_ne by done. destruct (decide (w = target)) as [->|Hw'].
      * by rewrite !lookup_alter_eq, !lookup_alter_ne by done.
      * by rewrite !lookup_alter_ne by done.
  - assert (uid ∉ followers b) by (by rewrite <- (Hsym target b Hb)).
    rewrite !without_stranger by done.
    apply map_eq. intros w. destruct (decide (w = uid)) as [->|Hw].
    + rewrite lookup_alter_eq, lookup_alter_ne, lookup_alter_eq, Ha by done.
      cbn. f_equal. by destruct a.
    + rewrite lookup_alter_ne by done. destruct (decide (w = target)) as [->|Hw'].
      * rewrite lookup_alter_eq, lookup_alter_ne, Hb by done. cbn. f_equal.
        by apply set_followers_same.
      * by rewrite !lookup_alter_ne by done.
Qed.

End FollowFacts.

Lemma consistent_fans : consistent fans.
Proof. apply (bool_decide_unpack _). vm_compute. exact I. Qed.

Lemma follow_lists_stay_consistent_witness :
  consistent friends
  ∧ consistent (user_route 3 (Follow None (toString 1)) friends).2.
Proof.
  assert (consistent friends) as Hfriends.
  { apply (bool_decide_unpack _). vm_compute. exact I. }
  split; [exact Hfriends|].
  apply (follow_lists_stay_consistent 3 (Follow None (toString 1)) 1 friends
           (Sent 200) _ Hfriends).
  - reflexivity.
  - vm_compute. reflexivity.
Defined.

Lemma unfollowing_undoes_following_witness :
  (user_route 3 (Follow None (toString 1)) friends).1 = Sent 200
  ∧ user_route 3 (Unfollow (toString 1))
      (user_route 3 (Follow None (toString 1)) friends).2
    = (Sent 200, friends).
Proof.
  split; [vm_compute; reflexivity|].
  apply (unfollowing_undoes_following 3 None 1 friends _ 200).
  - apply (bool_decide_unpack _). vm_compute. exact I.
  - vm_compute. reflexivity.
Defined.



Lemma blocking_then_unblocking_is_unfollowing_witness :
  (user_route 1 (Block (toString 2)) friends).1 = Sent 200
  ∧ user_route 1 (Unblock (toString 2))
      (user_route 1 (Block (toString 2)) friends).2
    = (Sent 200, (user_route 1 (Unfollow (toString 2)) friends).2).
Proof.
  split; [vm_compute; reflexivity|].
  apply (blocking_then_unblocking_is_unfollowing 1 2 friends _ 200
           (set_followers [2] (set_following [2] newcomer))).
  - apply (bool_decide_unpack _). vm_compute. exact I.
  - vm_compute. reflexivity.
  - vm_compute. reflexivity.
Defined.

(** The printed ids of users 10 and 11, and the ids their upper-case
    spellings are cast to. *)
Example spellings_of_ids :
  toString 10 = id10 ∧ toString 11 = id11
  ∧ castObjectId ID10 = Some 10 ∧ castObjectId ID11 = Some 11
  ∧ castObjectId "11" = None.
Proof. repeat split; vm_compute; reflexivity. Qed.

(** What the spelling of the request changes, on consistent lists in which
    user 10 follows user 11.  Asked with the upper-case spelling of their
    own id, user 10 is stored as following themselves.  Asked with the
    upper-case spelling of the id of user 11: an unfollow is answered 400
    although user 10 follows user 11; a block is answered 200 and user 10
    goes on following the user they have blocked, who has lost them as a
    follower; an unblock after a block is answered 400; and after a block
    user 10 may follow the blocked user again. *)
Example other_spellings_of_an_id :
  (λ run, (run.1, following <$> run.2 !! 10, followers <$> run.2 !! 10))
    (user_route 10 (Follow None ID10) fans)
  = (Sent 200, Some [11; 10], Some [10])
  ∧ user_route 10 (Unfollow ID11) fans = (Denied 400 "NOT_FOLLOWING", fans)
  ∧ (λ run, (run.1, following <$> run.2 !! 10, blockedUsers <$> run.2 !! 10,
             followers <$> run.2 !! 11))
      (user_route 10 (Block ID11) fans)
    = (Sent 200, Some [11], Some [11], Some [])
  ∧ (user_route 10 (Unblock ID11) (user_route 10 (Block id11) fans).2).1
    = Denied 400 "NOT_BLOCKED"
  ∧ (λ run, (run.1, following <$> run.2 !! 10, blockedUsers <$> run.2 !! 10))
      (user_route 10 (Follow None ID11) (user_route 10 (Block id11) fans).2)
    = (Sent 200, Some [11], Some [11]).
Proof. repeat split; vm_compute; reflexivity. Qed.

(** A user who follows themselves cannot undo it: the unfollow replaces
    [following] with the first save, and the second save, of the same
    document loaded before, is refused. *)
Example unfollowing_oneself_is_refused :
  (λ run, (run.1, following <$> run.2 !! 10, followers <$> run.2 !! 10))
    (user_route 10 (Unfollow id10)
       (user_route 10 (Follow None ID10) fans).2)
  = (Denied 500 "SERVER_ERROR", Some [11], Some [10]).
Proof. vm_compute. reflexivity. Qed.
